(** * BrainfuckCompiler: the translator of src/BrainfuckCompiler.cpp

    The C++ class [BrainfuckCompiler] drives an LLVM [IRBuilder]: every
    handler appends instructions to the basic block the builder points
    at.  This development embeds

    - the compiler object (its members) as the record [BrainfuckCompiler],
    - every [IRBuilder] call of the source as the instruction it creates,
      with the operands, constants, widths and flags the source passes,
    - the member functions [checkBrackets], [createMainFunction],
      [allocateMemory], [setupRuntimeFunctions], [generateIR], the eight
      handlers and [compile] as functions on that record,
    - the command line tool of src/main.cpp: [parseCommandLine] (with
      [std::stoul]), [readFile], [showStatistics] and [main],

    and checks the emitted instructions against the rules of the LLVM
    Language Reference on the operands that must be pointers.  The
    source passes [i8] where a pointer type is meant (for the data
    pointer slot and for every load of it), so the module it emits is
    not valid LLVM IR; a later revision of the file passes a pointer
    type in these places.

    The executable meaning given to the instructions is that of the
    program the source means to emit: a slot is read as it was written,
    whatever type the [load] names.  It is used to show where that
    program, too, leaves what the documentation of the repository
    promises (the bounds of the cursor, the arithmetic of the cells, the
    initial cursor), and for nothing else. *)

From Stdlib Require Import Ascii ZArith.
From stdpp Require Import gmap strings list fin_maps pretty.

Open Scope string_scope.
Open Scope Z_scope.

(** ** The emitted intermediate representation *)

(** [llvm::Type*], as far as the source builds types. *)
Inductive Type_ :=
| Int1Ty
| Int8Ty
| Int32Ty
| Int64Ty
| ArrayTy (elementType : Type_) (numElements : Z).

Definition getBitWidth (ty : Type_) : Z :=
  match ty with
  | Int1Ty => 1
  | Int8Ty => 8
  | Int32Ty => 32
  | Int64Ty => 64
  | ArrayTy _ _ => 0
  end.

(** [llvm::Value*].  The result of an instruction is referred to by the
    name the source gives it ("current_ptr", "val_inc", ...); an
    instruction created without a name has the empty name.  Every use in
    the source refers to the most recent instruction of that name, which
    is how the interpretation below resolves a name. *)
Inductive Value :=
| ConstantInt (ty : Type_) (v : Z)
| Named (name : string)
| NullValue.

(** [llvm::Function*] and [llvm::BasicBlock*] are handles: the position of
    the function in the module's function list, of the block in the
    module's block list. *)
Inductive FunctionName := FnMain | FnMemset | FnPutchar | FnGetchar.

Inductive Instruction :=
| Alloca (ty : Type_) (name : string)
| BitCast (v : Value) (destTy : Type_) (name : string)
| Call (callee : nat) (args : list Value) (name : string)
| InBoundsGEP (ty : Type_) (ptr : Value) (idxList : list Value) (name : string)
| ConstGEP1_32 (ty : Type_) (ptr : Value) (idx0 : Z) (name : string)
| Load (ty : Type_) (ptr : Value) (name : string)
| Store (val ptr : Value)
| Add (lhs rhs : Value) (name : string) (hasNUW hasNSW : bool)
| Sub (lhs rhs : Value) (name : string) (hasNUW hasNSW : bool)
| ZExt (v : Value) (destTy : Type_) (name : string)
| Trunc (v : Value) (destTy : Type_) (name : string)
| ICmpEQ (lhs rhs : Value) (name : string)
| Br (dest : nat)
| CondBr (cond : Value) (ifTrue ifFalse : nat)
| Ret (v : Value).

Record BasicBlock := {
  bb_name : string;
  bb_parent : nat;
  bb_instrs : list Instruction
}.

Record Module := {
  functions : list FunctionName;
  blocks : list BasicBlock
}.

(** What [reportError] writes to the error stream. *)
Inductive Message :=
| ExtraRightBracket            (* checkBrackets: extra right bracket *)
| BracketsDoNotMatch           (* checkBrackets: brackets do not match *)
| ExtraRightBracketAt (ip : nat) (* handleLoopEnd: extra right bracket at position ip *)
| InvalidIR                    (* compile: the generated IR is invalid *)
| BackendMessage (text : string).

(** ** The compiler object *)

Record BrainfuckCompiler := {
  m_memorySize : Z;
  m_enableOptimization : bool;
  m_enableDebugInfo : bool;
  m_statistics : gmap ascii nat;
  m_module : Module;
  m_insertBlock : option nat;      (* the block m_builder points at *)
  m_diBuilder : bool;
  m_memoryArray : Value;
  m_dataPtr : Value;
  m_mainFunction : nat;
  m_putcharFunc : nat;
  m_getcharFunc : nat;
  m_loopStartBlocks : list nat;    (* top of the stack first *)
  m_loopEndBlocks : list nat;
  m_currentIP : nat;
  cerr : list Message
}.

Definition set_statistics (s : gmap ascii nat) (c : BrainfuckCompiler) :=
  {| m_memorySize := m_memorySize c; m_enableOptimization := m_enableOptimization c;
     m_enableDebugInfo := m_enableDebugInfo c; m_statistics := s;
     m_module := m_module c; m_insertBlock := m_insertBlock c;
     m_diBuilder := m_diBuilder c; m_memoryArray := m_memoryArray c;
     m_dataPtr := m_dataPtr c; m_mainFunction := m_mainFunction c;
     m_putcharFunc := m_putcharFunc c; m_getcharFunc := m_getcharFunc c;
     m_loopStartBlocks := m_loopStartBlocks c; m_loopEndBlocks := m_loopEndBlocks c;
     m_currentIP := m_currentIP c; cerr := cerr c |}.

Definition set_module (m : Module) (c : BrainfuckCompiler) :=
  {| m_memorySize := m_memorySize c; m_enableOptimization := m_enableOptimization c;
     m_enableDebugInfo := m_enableDebugInfo c; m_statistics := m_statistics c;
     m_module := m; m_insertBlock := m_insertBlock c;
     m_diBuilder := m_diBuilder c; m_memoryArray := m_memoryArray c;
     m_dataPtr := m_dataPtr c; m_mainFunction := m_mainFunction c;
     m_putcharFunc := m_putcharFunc c; m_getcharFunc := m_getcharFunc c;
     m_loopStartBlocks := m_loopStartBlocks c; m_loopEndBlocks := m_loopEndBlocks c;
     m_currentIP := m_currentIP c; cerr := cerr c |}.

Definition set_insertBlock (b : option nat) (c : BrainfuckCompiler) :=
  {| m_memorySize := m_memorySize c; m_enableOptimization := m_enableOptimization c;
     m_enableDebugInfo := m_enableDebugInfo c; m_statistics := m_statistics c;
     m_module := m_module c; m_insertBlock := b;
     m_diBuilder := m_diBuilder c; m_memoryArray := m_memoryArray c;
     m_dataPtr := m_dataPtr c; m_mainFunction := m_mainFunction c;
     m_putcharFunc := m_putcharFunc c; m_getcharFunc := m_getcharFunc c;
     m_loopStartBlocks := m_loopStartBlocks c; m_loopEndBlocks := m_loopEndBlocks c;
     m_currentIP := m_currentIP c; cerr := cerr c |}.

Definition set_diBuilder (d : bool) (c : BrainfuckCompiler) :=
  {| m_memorySize := m_memorySize c; m_enableOptimization := m_enableOptimization c;
     m_enableDebugInfo := m_enableDebugInfo c; m_statistics := m_statistics c;
     m_module := m_module c; m_insertBlock := m_insertBlock c;
     m_diBuilder := d; m_memoryArray := m_memoryArray c;
     m_dataPtr := m_dataPtr c; m_mainFunction := m_mainFunction c;
     m_putcharFunc := m_putcharFunc c; m_getcharFunc := m_getcharFunc c;
     m_loopStartBlocks := m_loopStartBlocks c; m_loopEndBlocks := m_loopEndBlocks c;
     m_currentIP := m_currentIP c; cerr := cerr c |}.

Definition set_memoryArray (v : Value) (c : BrainfuckCompiler) :=
  {| m_memorySize := m_memorySize c; m_enableOptimization := m_enableOptimization c;
     m_enableDebugInfo := m_enableDebugInfo c; m_statistics := m_statistics c;
     m_module := m_module c; m_insertBlock := m_insertBlock c;
     m_diBuilder := m_diBuilder c; m_memoryArray := v;
     m_dataPtr := m_dataPtr c; m_mainFunction := m_mainFunction c;
     m_putcharFunc := m_putcharFunc c; m_getcharFunc := m_getcharFunc c;
     m_loopStartBlocks := m_loopStartBlocks c; m_loopEndBlocks := m_loopEndBlocks c;
     m_currentIP := m_currentIP c; cerr := cerr c |}.

Definition set_dataPtr (v : Value) (c : BrainfuckCompiler) :=
  {| m_memorySize := m_memorySize c; m_enableOptimization := m_enableOptimization c;
     m_enableDebugInfo := m_enableDebugInfo c; m_statistics := m_statistics c;
     m_module := m_module c; m_insertBlock := m_insertBlock c;
     m_diBuilder := m_diBuilder c; m_memoryArray := m_memoryArray c;
     m_dataPtr := v; m_mainFunction := m_mainFunction c;
     m_putcharFunc := m_putcharFunc c; m_getcharFunc := m_getcharFunc c;
     m_loopStartBlocks := m_loopStartBlocks c; m_loopEndBlocks := m_loopEndBlocks c;
     m_currentIP := m_currentIP c; cerr := cerr c |}.

Definition set_mainFunction (f : nat) (c : BrainfuckCompiler) :=
  {| m_memorySize := m_memorySize c; m_enableOptimization := m_enableOptimization c;
     m_enableDebugInfo := m_enableDebugInfo c; m_statistics := m_statistics c;
     m_module := m_module c; m_insertBlock := m_insertBlock c;
     m_diBuilder := m_diBuilder c; m_memoryArray := m_memoryArray c;
     m_dataPtr := m_dataPtr c; m_mainFunction := f;
     m_putcharFunc := m_putcharFunc c; m_getcharFunc := m_getcharFunc c;
     m_loopStartBlocks := m_loopStartBlocks c; m_loopEndBlocks := m_loopEndBlocks c;
     m_currentIP := m_currentIP c; cerr := cerr c |}.

Definition set_putcharFunc (f : nat) (c : BrainfuckCompiler) :=
  {| m_memorySize := m_memorySize c; m_enableOptimization := m_enableOptimization c;
     m_enableDebugInfo := m_enableDebugInfo c; m_statistics := m_statistics c;
     m_module := m_module c; m_insertBlock := m_insertBlock c;
     m_diBuilder := m_diBuilder c; m_memoryArray := m_memoryArray c;
     m_dataPtr := m_dataPtr c; m_mainFunction := m_mainFunction c;
     m_putcharFunc := f; m_getcharFunc := m_getcharFunc c;
     m_loopStartBlocks := m_loopStartBlocks c; m_loopEndBlocks := m_loopEndBlocks c;
     m_currentIP := m_currentIP c; cerr := cerr c |}.

Definition set_getcharFunc (f : nat) (c : BrainfuckCompiler) :=
  {| m_memorySize := m_memorySize c; m_enableOptimization := m_enableOptimization c;
     m_enableDebugInfo := m_enableDebugInfo c; m_statistics := m_statistics c;
     m_module := m_module c; m_insertBlock := m_insertBlock c;
     m_diBuilder := m_diBuilder c; m_memoryArray := m_memoryArray c;
     m_dataPtr := m_dataPtr c; m_mainFunction := m_mainFunction c;
     m_putcharFunc := m_putcharFunc c; m_getcharFunc := f;
     m_loopStartBlocks := m_loopStartBlocks c; m_loopEndBlocks := m_loopEndBlocks c;
     m_currentIP := m_currentIP c; cerr := cerr c |}.

Definition set_loopBlocks (starts ends : list nat) (c : BrainfuckCompiler) :=
  {| m_memorySize := m_memorySize c; m_enableOptimization := m_enableOptimization c;
     m_enableDebugInfo := m_enableDebugInfo c; m_statistics := m_statistics c;
     m_module := m_module c; m_insertBlock := m_insertBlock c;
     m_diBuilder := m_diBuilder c; m_memoryArray := m_memoryArray c;
     m_dataPtr := m_dataPtr c; m_mainFunction := m_mainFunction c;
     m_putcharFunc := m_putcharFunc c; m_getcharFunc := m_getcharFunc c;
     m_loopStartBlocks := starts; m_loopEndBlocks := ends;
     m_currentIP := m_currentIP c; cerr := cerr c |}.

Definition set_currentIP (ip : nat) (c : BrainfuckCompiler) :=
  {| m_memorySize := m_memorySize c; m_enableOptimization := m_enableOptimization c;
     m_enableDebugInfo := m_enableDebugInfo c; m_statistics := m_statistics c;
     m_module := m_module c; m_insertBlock := m_insertBlock c;
     m_diBuilder := m_diBuilder c; m_memoryArray := m_memoryArray c;
     m_dataPtr := m_dataPtr c; m_mainFunction := m_mainFunction c;
     m_putcharFunc := m_putcharFunc c; m_getcharFunc := m_getcharFunc c;
     m_loopStartBlocks := m_loopStartBlocks c; m_loopEndBlocks := m_loopEndBlocks c;
     m_currentIP := ip; cerr := cerr c |}.

(** [reportError]: one more line on the error stream, nothing else. *)
Definition reportError (message : Message) (c : BrainfuckCompiler) :=
  {| m_memorySize := m_memorySize c; m_enableOptimization := m_enableOptimization c;
     m_enableDebugInfo := m_enableDebugInfo c; m_statistics := m_statistics c;
     m_module := m_module c; m_insertBlock := m_insertBlock c;
     m_diBuilder := m_diBuilder c; m_memoryArray := m_memoryArray c;
     m_dataPtr := m_dataPtr c; m_mainFunction := m_mainFunction c;
     m_putcharFunc := m_putcharFunc c; m_getcharFunc := m_getcharFunc c;
     m_loopStartBlocks := m_loopStartBlocks c; m_loopEndBlocks := m_loopEndBlocks c;
     m_currentIP := m_currentIP c; cerr := cerr c ++ [message] |}.

(** The constructor: [initializeLLVM] makes an empty module and a builder
    that points nowhere; optimisation is on, debug information off. *)
Definition BrainfuckCompiler_new (memorySize : Z) : BrainfuckCompiler :=
  {| m_memorySize := memorySize; m_enableOptimization := true;
     m_enableDebugInfo := false; m_statistics := ∅;
     m_module := {| functions := []; blocks := [] |}; m_insertBlock := None;
     m_diBuilder := false; m_memoryArray := NullValue;
     m_dataPtr := NullValue; m_mainFunction := 0%nat;
     m_putcharFunc := 0%nat; m_getcharFunc := 0%nat;
     m_loopStartBlocks := []; m_loopEndBlocks := [];
     m_currentIP := 0%nat; cerr := [] |}.

Definition setOptimization (enable : bool) (c : BrainfuckCompiler) :=
  {| m_memorySize := m_memorySize c; m_enableOptimization := enable;
     m_enableDebugInfo := m_enableDebugInfo c; m_statistics := m_statistics c;
     m_module := m_module c; m_insertBlock := m_insertBlock c;
     m_diBuilder := m_diBuilder c; m_memoryArray := m_memoryArray c;
     m_dataPtr := m_dataPtr c; m_mainFunction := m_mainFunction c;
     m_putcharFunc := m_putcharFunc c; m_getcharFunc := m_getcharFunc c;
     m_loopStartBlocks := m_loopStartBlocks c; m_loopEndBlocks := m_loopEndBlocks c;
     m_currentIP := m_currentIP c; cerr := cerr c |}.

Definition setDebugInfo (enable : bool) (c : BrainfuckCompiler) :=
  {| m_memorySize := m_memorySize c; m_enableOptimization := m_enableOptimization c;
     m_enableDebugInfo := enable; m_statistics := m_statistics c;
     m_module := m_module c; m_insertBlock := m_insertBlock c;
     m_diBuilder := m_diBuilder c; m_memoryArray := m_memoryArray c;
     m_dataPtr := m_dataPtr c; m_mainFunction := m_mainFunction c;
     m_putcharFunc := m_putcharFunc c; m_getcharFunc := m_getcharFunc c;
     m_loopStartBlocks := m_loopStartBlocks c; m_loopEndBlocks := m_loopEndBlocks c;
     m_currentIP := m_currentIP c; cerr := cerr c |}.

Definition getStatistics (c : BrainfuckCompiler) : gmap ascii nat := m_statistics c.

(** ** The IRBuilder calls the source makes *)

Global Instance FunctionName_eq_dec : EqDecision FunctionName.
Proof. solve_decision. Defined.

Definition append_instr (i : Instruction) (bb : BasicBlock) : BasicBlock :=
  {| bb_name := bb_name bb; bb_parent := bb_parent bb; bb_instrs := bb_instrs bb ++ [i] |}.

(** [IRBuilder::Insert]: the instruction goes to the end of the block the
    builder points at; a builder that points nowhere creates it detached. *)
Definition Insert (i : Instruction) (c : BrainfuckCompiler) : BrainfuckCompiler :=
  match m_insertBlock c with
  | Some b =>
      set_module {| functions := functions (m_module c);
                    blocks := alter (append_instr i) b (blocks (m_module c)) |} c
  | None => c
  end.

Definition SetInsertPoint (b : nat) (c : BrainfuckCompiler) : BrainfuckCompiler :=
  set_insertBlock (Some b) c.

(** [BasicBlock::Create(context, name, parent)]: a new empty block at the
    end of the function; the handle of the new block is returned. *)
Definition BasicBlock_Create (name : string) (parent : nat) (c : BrainfuckCompiler)
  : nat * BrainfuckCompiler :=
  (length (blocks (m_module c)),
   set_module {| functions := functions (m_module c);
                 blocks := blocks (m_module c) ++
                           [{| bb_name := name; bb_parent := parent; bb_instrs := [] |}] |} c).

(** [Function::Create(type, ExternalLinkage, name, module)]. *)
Definition Function_Create (name : FunctionName) (c : BrainfuckCompiler)
  : nat * BrainfuckCompiler :=
  (length (functions (m_module c)),
   set_module {| functions := functions (m_module c) ++ [name];
                 blocks := blocks (m_module c) |} c).

(** [Intrinsic::getOrInsertDeclaration]: the declaration that is already
    in the module, or a new one. *)
Definition getOrInsertDeclaration (name : FunctionName) (c : BrainfuckCompiler)
  : nat * BrainfuckCompiler :=
  match list_find (λ f, f = name) (functions (m_module c)) with
  | Some (i, _) => (i, c)
  | None => Function_Create name c
  end.

Definition CreateAlloca (ty : Type_) (name : string) c : Value * BrainfuckCompiler :=
  (Named name, Insert (Alloca ty name) c).
Definition CreateBitCast (v : Value) (destTy : Type_) (name : string) c : Value * BrainfuckCompiler :=
  (Named name, Insert (BitCast v destTy name) c).
Definition CreateCall (callee : nat) (args : list Value) (name : string) c : Value * BrainfuckCompiler :=
  (Named name, Insert (Call callee args name) c).
Definition CreateInBoundsGEP (ty : Type_) (ptr : Value) (idxList : list Value) (name : string) c
  : Value * BrainfuckCompiler :=
  (Named name, Insert (InBoundsGEP ty ptr idxList name) c).
Definition CreateConstGEP1_32 (ty : Type_) (ptr : Value) (idx0 : Z) (name : string) c
  : Value * BrainfuckCompiler :=
  (Named name, Insert (ConstGEP1_32 ty ptr idx0 name) c).
Definition CreateLoad (ty : Type_) (ptr : Value) (name : string) c : Value * BrainfuckCompiler :=
  (Named name, Insert (Load ty ptr name) c).
Definition CreateStore (val ptr : Value) c : BrainfuckCompiler :=
  Insert (Store val ptr) c.
Definition CreateAdd (lhs rhs : Value) (name : string) (hasNUW hasNSW : bool) c
  : Value * BrainfuckCompiler :=
  (Named name, Insert (Add lhs rhs name hasNUW hasNSW) c).
Definition CreateSub (lhs rhs : Value) (name : string) (hasNUW hasNSW : bool) c
  : Value * BrainfuckCompiler :=
  (Named name, Insert (Sub lhs rhs name hasNUW hasNSW) c).
Definition CreateZExt (v : Value) (destTy : Type_) (name : string) c : Value * BrainfuckCompiler :=
  (Named name, Insert (ZExt v destTy name) c).
Definition CreateTrunc (v : Value) (destTy : Type_) (name : string) c : Value * BrainfuckCompiler :=
  (Named name, Insert (Trunc v destTy name) c).
Definition CreateICmpEQ (lhs rhs : Value) (name : string) c : Value * BrainfuckCompiler :=
  (Named name, Insert (ICmpEQ lhs rhs name) c).
Definition CreateBr (dest : nat) c : BrainfuckCompiler :=
  Insert (Br dest) c.
Definition CreateCondBr (cond : Value) (ifTrue ifFalse : nat) c : BrainfuckCompiler :=
  Insert (CondBr cond ifTrue ifFalse) c.
Definition CreateRet (v : Value) c : BrainfuckCompiler :=
  Insert (Ret v) c.

(** ** The member functions *)

Definition createMainFunction (c : BrainfuckCompiler) : BrainfuckCompiler :=
  let '(mainFunction, c) := Function_Create FnMain c in
  let c := set_mainFunction mainFunction c in
  let '(entryBlock, c) := BasicBlock_Create "entry" (m_mainFunction c) c in
  SetInsertPoint entryBlock c.

Definition allocateMemory (c : BrainfuckCompiler) : BrainfuckCompiler :=
  let memoryArrayType := ArrayTy Int8Ty (m_memorySize c) in
  let '(memoryArray, c) := CreateAlloca memoryArrayType "memory" c in
  let c := set_memoryArray memoryArray c in
  let zero := ConstantInt Int8Ty 0 in
  let '(memsetFunc, c) := getOrInsertDeclaration FnMemset c in
  let size := ConstantInt Int64Ty (m_memorySize c) in
  let volatileFlag := ConstantInt Int1Ty 0 in
  let '(cast, c) := CreateBitCast (m_memoryArray c) Int8Ty "" c in
  let '(_, c) := CreateCall memsetFunc [cast; zero; size; volatileFlag] "" c in
  let '(dataPtr, c) := CreateAlloca Int8Ty "dataptr" c in
  let c := set_dataPtr dataPtr c in
  let indices := [ConstantInt Int32Ty 0; ConstantInt Int32Ty (m_memorySize c / 2)] in
  let '(initialPtr, c) := CreateInBoundsGEP Int8Ty (m_memoryArray c) indices "initial_ptr" c in
  CreateStore initialPtr (m_dataPtr c) c.

Definition setupRuntimeFunctions (c : BrainfuckCompiler) : BrainfuckCompiler :=
  let '(putcharFunc, c) := Function_Create FnPutchar c in
  let c := set_putcharFunc putcharFunc c in
  let '(getcharFunc, c) := Function_Create FnGetchar c in
  set_getcharFunc getcharFunc c.

(** [createDebugInfo]: the builder of debug information is created.  The
    file, the subprogram and its attachment to [main] are metadata of
    the module; [Module] holds functions and blocks only, so they have no
    counterpart here, and what is stated about the module that reaches
    the verifier or a back end is stated for a compiler without debug
    information. *)
Definition createDebugInfo (c : BrainfuckCompiler) : BrainfuckCompiler :=
  set_diBuilder true c.

Definition handleIncrementPtr (c : BrainfuckCompiler) : BrainfuckCompiler :=
  let '(currentPtr, c) := CreateLoad Int8Ty (m_dataPtr c) "current_ptr" c in
  let '(newPtr, c) := CreateConstGEP1_32 Int8Ty currentPtr 1 "ptr_inc" c in
  CreateStore newPtr (m_dataPtr c) c.

Definition handleDecrementPtr (c : BrainfuckCompiler) : BrainfuckCompiler :=
  let '(currentPtr, c) := CreateLoad Int8Ty (m_dataPtr c) "current_ptr" c in
  let '(newPtr, c) := CreateConstGEP1_32 Int8Ty currentPtr (-1) "ptr_dec" c in
  CreateStore newPtr (m_dataPtr c) c.

Definition handleIncrementByte (c : BrainfuckCompiler) : BrainfuckCompiler :=
  let '(currentPtr, c) := CreateLoad Int8Ty (m_dataPtr c) "current_ptr" c in
  let '(currentValue, c) := CreateLoad Int8Ty currentPtr "current_val" c in
  let '(newValue, c) :=
    CreateAdd currentValue (ConstantInt Int8Ty 1) "val_inc" true true c in
  CreateStore newValue currentPtr c.

Definition handleDecrementByte (c : BrainfuckCompiler) : BrainfuckCompiler :=
  let '(currentPtr, c) := CreateLoad Int8Ty (m_dataPtr c) "current_ptr" c in
  let '(currentValue, c) := CreateLoad Int8Ty currentPtr "current_val" c in
  let '(newValue, c) :=
    CreateSub currentValue (ConstantInt Int8Ty 1) "val_dec" true true c in
  CreateStore newValue currentPtr c.

Definition handleOutput (c : BrainfuckCompiler) : BrainfuckCompiler :=
  let '(currentPtr, c) := CreateLoad Int8Ty (m_dataPtr c) "current_ptr" c in
  let '(currentValue, c) := CreateLoad Int8Ty currentPtr "output_val" c in
  let '(extendedValue, c) := CreateZExt currentValue Int32Ty "output_int" c in
  snd (CreateCall (m_putcharFunc c) [extendedValue] "" c).

Definition handleInput (c : BrainfuckCompiler) : BrainfuckCompiler :=
  let '(inputValue, c) := CreateCall (m_getcharFunc c) [] "input_char" c in
  let '(truncatedValue, c) := CreateTrunc inputValue Int8Ty "input_byte" c in
  let '(currentPtr, c) := CreateLoad Int8Ty (m_dataPtr c) "current_ptr" c in
  CreateStore truncatedValue currentPtr c.

Definition handleLoopStart (ip : nat) (c : BrainfuckCompiler) : BrainfuckCompiler :=
  let '(loopHeader, c) :=
    BasicBlock_Create ("loop_header_" +:+ pretty ip) (m_mainFunction c) c in
  let '(loopBody, c) :=
    BasicBlock_Create ("loop_body_" +:+ pretty ip) (m_mainFunction c) c in
  let '(loopEnd, c) :=
    BasicBlock_Create ("loop_end_" +:+ pretty ip) (m_mainFunction c) c in
  let c := CreateBr loopHeader c in
  let c := SetInsertPoint loopHeader c in
  let '(currentPtr, c) := CreateLoad Int8Ty (m_dataPtr c) "current_ptr" c in
  let '(currentValue, c) := CreateLoad Int8Ty currentPtr "loop_val" c in
  let zero := ConstantInt Int8Ty 0 in
  let '(condition, c) := CreateICmpEQ currentValue zero "loop_cond" c in
  let c := CreateCondBr condition loopEnd loopBody c in
  let c := SetInsertPoint loopBody c in
  set_loopBlocks (loopHeader :: m_loopStartBlocks c) (loopEnd :: m_loopEndBlocks c) c.

Definition handleLoopEnd (ip : nat) (c : BrainfuckCompiler) : BrainfuckCompiler :=
  match m_loopStartBlocks c, m_loopEndBlocks c with
  | loopHeader :: startBlocks, loopEnd :: endBlocks =>
      let c := set_loopBlocks startBlocks endBlocks c in
      let c := CreateBr loopHeader c in
      SetInsertPoint loopEnd c
  | _, _ => reportError (ExtraRightBracketAt ip) c
  end.

(** The test of [generateIR] that skips a character. *)
Definition not_instruction (c : ascii) : bool :=
  negb (c =? ">")%char && negb (c =? "<")%char && negb (c =? "+")%char &&
  negb (c =? "-")%char && negb (c =? ".")%char && negb (c =? ",")%char &&
  negb (c =? "[")%char && negb (c =? "]")%char.

(** [m_statistics[c]++]: an absent key starts at zero. *)
Definition statistics_incr (ch : ascii) (s : gmap ascii nat) : gmap ascii nat :=
  <[ch := S (default 0%nat (s !! ch))]> s.

(** One turn of the loop of [generateIR], at index [i] with [ch = source[i]]. *)
Definition generateIR_step (i : nat) (ch : ascii) (c : BrainfuckCompiler) : BrainfuckCompiler :=
  let c := set_currentIP i c in
  if not_instruction ch then c
  else
    let c := set_statistics (statistics_incr ch (m_statistics c)) c in
    if (ch =? ">")%char then handleIncrementPtr c
    else if (ch =? "<")%char then handleDecrementPtr c
    else if (ch =? "+")%char then handleIncrementByte c
    else if (ch =? "-")%char then handleDecrementByte c
    else if (ch =? ".")%char then handleOutput c
    else if (ch =? ",")%char then handleInput c
    else if (ch =? "[")%char then handleLoopStart i c
    else if (ch =? "]")%char then handleLoopEnd i c
    else c.

(** The loop of [generateIR] over the characters from index [i] on. *)
Fixpoint generateIR_loop (i : nat) (source : list ascii) (c : BrainfuckCompiler)
  : BrainfuckCompiler :=
  match source with
  | [] => c
  | ch :: rest => generateIR_loop (S i) rest (generateIR_step i ch c)
  end.

Definition generateIR (source : string) (c : BrainfuckCompiler) : BrainfuckCompiler :=
  let c := set_currentIP 0 c in
  let c := generateIR_loop 0 (String.list_ascii_of_string source) c in
  let retValue := ConstantInt Int32Ty 0 in
  CreateRet retValue c.

(** [checkBrackets].  [bracketCount] is an [int]: incrementing it past
    [INT_MAX] is undefined in C++, which the result [None] stands for. *)
Definition INT_MAX : Z := 2147483647.
Definition INT_MIN : Z := -2147483648.

Definition int_checked (z : Z) : option Z :=
  if (INT_MIN <=? z) && (z <=? INT_MAX) then Some z else None.

Fixpoint checkBrackets_loop (source : list ascii) (bracketCount : Z) (c : BrainfuckCompiler)
  : option (bool * BrainfuckCompiler) :=
  match source with
  | [] =>
      if negb (bracketCount =? 0)
      then Some (false, reportError BracketsDoNotMatch c)
      else Some (true, c)
  | ch :: rest =>
      if (ch =? "[")%char then
        bracketCount ← int_checked (bracketCount + 1);
        checkBrackets_loop rest bracketCount c
      else if (ch =? "]")%char then
        bracketCount ← int_checked (bracketCount - 1);
        if bracketCount <? 0
        then Some (false, reportError ExtraRightBracket c)
        else checkBrackets_loop rest bracketCount c
      else checkBrackets_loop rest bracketCount c
  end.

Definition checkBrackets (source : string) (c : BrainfuckCompiler)
  : option (bool * BrainfuckCompiler) :=
  checkBrackets_loop (String.list_ascii_of_string source) 0 c.

(** [compile].  The LLVM verifier, the optimisation passes and the two
    back ends (JIT execution, object file and link) are LLVM's and the
    system's; they are parameters here.  [verifyModule] answers [true] for
    a broken module, as LLVM's does; the back ends may report errors, and
    [compile] returns [true] after them whatever they report.
    [executeJIT] stands for a JIT run that comes back: the source runs
    the generated program inside [compile], which then returns only if
    that program does.  The source's [executeJIT] also moves the module
    out of the compiler object, which is left without one; the record
    keeps the module, as the module that was handed over, and nothing is
    stated here about a compiler object after a JIT run.  None of the
    steps embedded here throws, so the [catch] branch of the source has
    no counterpart. *)
Section Compile.
Variable verifyModule : Module → bool.
Variable optimizeModule : Module → Module.
Variable executeJIT : Module → list Message.
Variable emitObjectFile : string → Module → list Message.

Definition report_all (msgs : list Message) (c : BrainfuckCompiler) : BrainfuckCompiler :=
  foldl (λ c msg, reportError msg c) c msgs.

Definition compile (source outputFile : string) (enableJIT : bool) (c : BrainfuckCompiler)
  : option (bool * BrainfuckCompiler) :=
  '(ok, c) ← checkBrackets source c;
  if negb ok then Some (false, c)
  else
    let c := set_statistics ∅ c in
    let c := createMainFunction c in
    let c := allocateMemory c in
    let c := setupRuntimeFunctions c in
    let c := if m_enableDebugInfo c then createDebugInfo c else c in
    let c := generateIR source c in
    if verifyModule (m_module c) then Some (false, reportError InvalidIR c)
    else
      let c := if m_enableOptimization c
               then set_module (optimizeModule (m_module c)) c else c in
      let c := if enableJIT
               then report_all (executeJIT (m_module c)) c
               else report_all (emitObjectFile outputFile (m_module c)) c in
      Some (true, c).
End Compile.

(** ** What the emitted instructions do

    The meaning of the instructions, after the LLVM Language Reference,
    for the program the source means to emit.  The types the source
    passes to [load], [bitcast] and [getelementptr] are not looked at
    here: they are looked at in [pointer_operands_ok] below, and the
    emitted code does not pass.  What follows is therefore no account of
    a run of the emitted module, which LLVM rejects, but of the same
    instructions with the data pointer slot read as the pointer that was
    stored in it.

    - An integer of width [w] is [IntVal w n] with [0 <= n < 2^w].
    - Memory is a list of objects, one per executed [alloca]; an object is
      a list of slots and a slot holds one value ([PoisonVal] while
      nothing was stored).  A pointer is an object and a slot offset, so
      an access outside its object is recognisable: it is undefined
      behaviour.  Slots are not split into bytes: the value loaded is the
      value stored, whatever width the [alloca] or the [load] is annotated
      with (the source annotates the data pointer slot with [i8] and
      stores a pointer into it).
    - [add] and [sub] wrap modulo [2^w]; with [nuw] (resp. [nsw]) the
      result is poison when the unsigned (resp. signed) result overflows.
    - A [getelementptr] adds its sign-extended indices, each scaled by the
      size of the type it steps over; with [inbounds] the result is poison
      when it leaves the object (one past the end is allowed).
    - Branching on poison, accessing memory through poison and passing
      poison to the output primitive are undefined behaviour. *)

Inductive RtValue :=
| IntVal (bits : Z) (n : Z)
| PtrVal (obj : nat) (off : Z)
| PoisonVal.

Global Instance RtValue_eq_dec : EqDecision RtValue.
Proof. solve_decision. Defined.

(** The runtime: the memory of the running program, the bytes still to
    be read and the bytes written so far. *)
Record Machine := {
  heap : list (list RtValue);
  input : list Z;
  output : list Z
}.

Abbreviation regs := (gmap string RtValue).

Inductive Control :=
| Continue (r : regs) (m : Machine)
| Jump (dest : nat) (r : regs) (m : Machine)
| Return (v : RtValue) (m : Machine)
| Undefined.

(** The end-of-input value of the C library's [getchar]. *)
Definition EOF : Z := -1.

(** [getchar]: the next byte of the input, [EOF] when there is none left. *)
Definition getchar (m : Machine) : Z * Machine :=
  match input m with
  | [] => (EOF, m)
  | b :: rest => (b, {| heap := heap m; input := rest; output := output m |})
  end.

(** [putchar]: writes its argument converted to [unsigned char]. *)
Definition putchar (ch : Z) (m : Machine) : Machine :=
  {| heap := heap m; input := input m; output := output m ++ [ch mod 256] |}.

Definition signed (bits n : Z) : Z :=
  if n <? 2 ^ (bits - 1) then n else n - 2 ^ bits.

Definition eval (r : regs) (v : Value) : option RtValue :=
  match v with
  | ConstantInt ty z => Some (IntVal (getBitWidth ty) (z mod 2 ^ getBitWidth ty))
  | Named name => r !! name
  | NullValue => None
  end.

(** Sizes in slots. *)
Fixpoint sizeof (ty : Type_) : Z :=
  match ty with
  | ArrayTy elementType numElements => numElements * sizeof elementType
  | _ => 1
  end.

Definition elementType_of (ty : Type_) : Type_ :=
  match ty with
  | ArrayTy elementType _ => elementType
  | _ => ty
  end.

(** The offset a [getelementptr] with source element type [ty] adds: the
    first index steps over whole [ty]s, every further index over the
    elements of the type reached so far.  [None] when an index is
    poison. *)
Fixpoint gep_inner (ty : Type_) (idxs : list RtValue) : option Z :=
  match idxs with
  | [] => Some 0
  | IntVal w n :: rest =>
      o ← gep_inner (elementType_of ty) rest;
      Some (signed w n * sizeof (elementType_of ty) + o)
  | _ :: _ => None
  end.

Definition gep_offset (ty : Type_) (idxs : list RtValue) : option Z :=
  match idxs with
  | [] => Some 0
  | IntVal w n :: rest =>
      o ← gep_inner ty rest;
      Some (signed w n * sizeof ty + o)
  | _ :: _ => None
  end.

Definition heap_load (obj : nat) (off : Z) (h : list (list RtValue)) : option RtValue :=
  if 0 <=? off then slots ← h !! obj; slots !! Z.to_nat off else None.

Definition heap_store (obj : nat) (off : Z) (v : RtValue) (h : list (list RtValue))
  : option (list (list RtValue)) :=
  if 0 <=? off then
    slots ← h !! obj;
    if off <? Z.of_nat (length slots)
    then Some (<[obj := <[Z.to_nat off := v]> slots]> h)
    else None
  else None.

(** [llvm.memset]: [len] slots from the destination on take [v]. *)
Definition heap_memset (obj : nat) (off : Z) (v : RtValue) (len : Z) (h : list (list RtValue))
  : option (list (list RtValue)) :=
  if (0 <=? off) && (0 <=? len) then
    slots ← h !! obj;
    if off + len <=? Z.of_nat (length slots)
    then Some (<[obj := (take (Z.to_nat off) slots ++ replicate (Z.to_nat len) v
                         ++ drop (Z.to_nat (off + len)) slots)%list]> h)
    else None
  else None.

Arguments heap_load : simpl never.
Arguments heap_store : simpl never.
Arguments heap_memset : simpl never.

Definition set_heap (h : list (list RtValue)) (m : Machine) : Machine :=
  {| heap := h; input := input m; output := output m |}.

Definition alloca_slots (ty : Type_) : list RtValue :=
  replicate (Z.to_nat (sizeof ty)) PoisonVal.

Definition add_result (bits a b : Z) (hasNUW hasNSW : bool) : RtValue :=
  if hasNUW && negb (a + b <? 2 ^ bits) then PoisonVal
  else if hasNSW && negb ((- 2 ^ (bits - 1) <=? signed bits a + signed bits b) &&
                          (signed bits a + signed bits b <? 2 ^ (bits - 1))) then PoisonVal
  else IntVal bits ((a + b) mod 2 ^ bits).

Definition sub_result (bits a b : Z) (hasNUW hasNSW : bool) : RtValue :=
  if hasNUW && (a <? b) then PoisonVal
  else if hasNSW && negb ((- 2 ^ (bits - 1) <=? signed bits a - signed bits b) &&
                          (signed bits a - signed bits b <? 2 ^ (bits - 1))) then PoisonVal
  else IntVal bits ((a - b) mod 2 ^ bits).

Definition continue_with (o : option (regs * Machine)) : Control :=
  match o with
  | Some (r, m) => Continue r m
  | None => Undefined
  end.

Definition exec_call (fns : list FunctionName) (callee : nat) (args : list RtValue)
    (name : string) (r : regs) (m : Machine) : option (regs * Machine) :=
  match fns !! callee, args with
  | Some FnMemset, [PtrVal obj off; v; IntVal _ len; IntVal _ _] =>
      h ← heap_memset obj off v len (heap m);
      Some (r, set_heap h m)
  | Some FnPutchar, [IntVal _ ch] =>
      Some (<[name := IntVal 32 (ch mod 256)]> r, putchar ch m)
  | Some FnGetchar, [] =>
      let '(ch, m) := getchar m in
      Some (<[name := IntVal 32 (ch mod 2 ^ 32)]> r, m)
  | _, _ => None
  end.

Definition exec_instr (fns : list FunctionName) (i : Instruction) (r : regs) (m : Machine)
  : Control :=
  match i with
  | Alloca ty name =>
      Continue (<[name := PtrVal (length (heap m)) 0]> r)
               (set_heap (heap m ++ [alloca_slots ty]) m)
  | BitCast v _ name =>
      continue_with (x ← eval r v; Some (<[name := x]> r, m))
  | Call callee args name =>
      continue_with (xs ← mapM (eval r) args; exec_call fns callee xs name r m)
  | InBoundsGEP ty ptr idxList name =>
      continue_with (
        p ← eval r ptr;
        xs ← mapM (eval r) idxList;
        match p with
        | PtrVal obj off =>
            slots ← heap m !! obj;
            match gep_offset ty xs with
            | Some d =>
                if (0 <=? off + d) && (off + d <=? Z.of_nat (length slots))
                then Some (<[name := PtrVal obj (off + d)]> r, m)
                else Some (<[name := PoisonVal]> r, m)
            | None => Some (<[name := PoisonVal]> r, m)
            end
        | PoisonVal => Some (<[name := PoisonVal]> r, m)
        | IntVal _ _ => None
        end)
  | ConstGEP1_32 ty ptr idx0 name =>
      continue_with (
        p ← eval r ptr;
        match p with
        | PtrVal obj off =>
            Some (<[name := PtrVal obj (off + signed 32 (idx0 mod 2 ^ 32) * sizeof ty)]> r, m)
        | PoisonVal => Some (<[name := PoisonVal]> r, m)
        | IntVal _ _ => None
        end)
  | Load _ ptr name =>
      continue_with (
        p ← eval r ptr;
        match p with
        | PtrVal obj off => x ← heap_load obj off (heap m); Some (<[name := x]> r, m)
        | _ => None
        end)
  | Store val ptr =>
      continue_with (
        x ← eval r val;
        p ← eval r ptr;
        match p with
        | PtrVal obj off => h ← heap_store obj off x (heap m); Some (r, set_heap h m)
        | _ => None
        end)
  | Add lhs rhs name hasNUW hasNSW =>
      continue_with (
        a ← eval r lhs;
        b ← eval r rhs;
        match a, b with
        | IntVal w x, IntVal w' y =>
            if w =? w' then Some (<[name := add_result w x y hasNUW hasNSW]> r, m) else None
        | PtrVal _ _, _ | _, PtrVal _ _ => None
        | _, _ => Some (<[name := PoisonVal]> r, m)
        end)
  | Sub lhs rhs name hasNUW hasNSW =>
      continue_with (
        a ← eval r lhs;
        b ← eval r rhs;
        match a, b with
        | IntVal w x, IntVal w' y =>
            if w =? w' then Some (<[name := sub_result w x y hasNUW hasNSW]> r, m) else None
        | PtrVal _ _, _ | _, PtrVal _ _ => None
        | _, _ => Some (<[name := PoisonVal]> r, m)
        end)
  | ZExt v destTy name =>
      continue_with (
        a ← eval r v;
        match a with
        | IntVal _ x => Some (<[name := IntVal (getBitWidth destTy) x]> r, m)
        | PoisonVal => Some (<[name := PoisonVal]> r, m)
        | PtrVal _ _ => None
        end)
  | Trunc v destTy name =>
      continue_with (
        a ← eval r v;
        match a with
        | IntVal _ x =>
            Some (<[name := IntVal (getBitWidth destTy) (x mod 2 ^ getBitWidth destTy)]> r, m)
        | PoisonVal => Some (<[name := PoisonVal]> r, m)
        | PtrVal _ _ => None
        end)
  | ICmpEQ lhs rhs name =>
      continue_with (
        a ← eval r lhs;
        b ← eval r rhs;
        match a, b with
        | IntVal w x, IntVal w' y =>
            if w =? w' then Some (<[name := IntVal 1 (if x =? y then 1 else 0)]> r, m) else None
        | PtrVal _ _, _ | _, PtrVal _ _ => None
        | _, _ => Some (<[name := PoisonVal]> r, m)
        end)
  | Br dest => Jump dest r m
  | CondBr cond ifTrue ifFalse =>
      match eval r cond with
      | Some (IntVal 1 1) => Jump ifTrue r m
      | Some (IntVal 1 0) => Jump ifFalse r m
      | _ => Undefined
      end
  | Ret v =>
      match eval r v with
      | Some x => Return x m
      | None => Undefined
      end
  end.

(** A run of instructions; what follows a branch or a return is not
    reached. *)
Fixpoint exec_instrs (fns : list FunctionName) (code : list Instruction) (r : regs)
    (m : Machine) : Control :=
  match code with
  | [] => Continue r m
  | i :: rest =>
      match exec_instr fns i r m with
      | Continue r m => exec_instrs fns rest r m
      | stop => stop
      end
  end.

Inductive Outcome :=
| Finished (v : RtValue) (m : Machine)
| UndefinedBehaviour
| OutOfFuel.

(** Running from block [b]: at most [fuel] blocks are executed.  A block
    without a terminator is malformed; running into its end counts as
    undefined. *)
Fixpoint run (fuel : nat) (M : Module) (b : nat) (r : regs) (m : Machine) : Outcome :=
  match fuel with
  | O => OutOfFuel
  | S fuel =>
      match blocks M !! b with
      | None => UndefinedBehaviour
      | Some bb =>
          match exec_instrs (functions M) (bb_instrs bb) r m with
          | Jump dest r m => run fuel M dest r m
          | Return v m => Finished v m
          | Continue _ _ | Undefined => UndefinedBehaviour
          end
      end
  end.

(** The program: function [f] of the module, entered at its first block
    with no register set, no memory allocated and nothing written. *)
Definition run_function (fuel : nat) (M : Module) (f : nat) (inp : list Z) : Outcome :=
  match list_find (λ bb, bb_parent bb = f) (blocks M) with
  | Some (entry, _) => run fuel M entry ∅ {| heap := []; input := inp; output := [] |}
  | None => UndefinedBehaviour
  end.

(** A fresh compiler after the set-up steps of [compile], where
    [generateIR] starts. *)
Definition after_setup (memorySize : Z) : BrainfuckCompiler :=
  setupRuntimeFunctions
    (allocateMemory (createMainFunction (BrainfuckCompiler_new memorySize))).

(** The compiler after [generateIR]: its module is the one [compile]
    passes to the verifier. *)
Definition translate (memorySize : Z) (source : string) : BrainfuckCompiler :=
  generateIR source (after_setup memorySize).

(** Translating [source] and running the program on the input [inp]. *)
Definition run_source (fuel : nat) (memorySize : Z) (source : string) (inp : list Z) : Outcome :=
  let c := translate memorySize source in
  run_function fuel (m_module c) (m_mainFunction c) inp.

(** ** Reading the result of a handler *)

Definition block_instrs (c : BrainfuckCompiler) (b : nat) : list Instruction :=
  match blocks (m_module c) !! b with
  | Some bb => bb_instrs bb
  | None => []
  end.

(** The instructions [handler] adds to the block the builder points at
    when it is called. *)
Definition emitted (handler : BrainfuckCompiler → BrainfuckCompiler) (c : BrainfuckCompiler)
  : list Instruction :=
  match m_insertBlock c with
  | Some b => drop (length (block_instrs c b)) (block_instrs (handler c) b)
  | None => []
  end.

Global Instance Type__eq_dec : EqDecision Type_.
Proof. solve_decision. Defined.

Global Instance Value_eq_dec : EqDecision Value.
Proof. solve_decision. Defined.

(** The state of the compiler while [generateIR] runs: the builder points
    at a block of the module, the data pointer is the one
    [allocateMemory] made, the I/O primitives are the ones
    [setupRuntimeFunctions] declared, and the blocks on the loop stacks
    exist. *)
Definition ready (c : BrainfuckCompiler) : bool :=
  match m_insertBlock c with
  | Some b => bool_decide (b < length (blocks (m_module c)))%nat
  | None => false
  end
  && bool_decide (m_dataPtr c = Named "dataptr")
  && bool_decide (functions (m_module c) !! m_putcharFunc c = Some FnPutchar)
  && bool_decide (functions (m_module c) !! m_getcharFunc c = Some FnGetchar)
  && forallb (λ b, bool_decide (b < length (blocks (m_module c)))%nat) (m_loopStartBlocks c)
  && forallb (λ b, bool_decide (b < length (blocks (m_module c)))%nat) (m_loopEndBlocks c).

(** The running program between two Brainfuck instructions: the array
    [memory] is object 0 and holds [cells], the slot [dataptr] is object
    1 and holds the address of cell [cursor]. *)
Definition bf_machine (r : regs) (m : Machine) (cells : list RtValue) (cursor : Z) : Prop :=
  r !! "memory" = Some (PtrVal 0 0) ∧
  r !! "dataptr" = Some (PtrVal 1 0) ∧
  heap m = [cells; [PtrVal 0 cursor]].

Definition valid_index (cells : list RtValue) (cursor : Z) : Prop :=
  0 ≤ cursor < Z.of_nat (length cells).

(** Several [Insert]s in a row. *)
Definition Inserts (code : list Instruction) (c : BrainfuckCompiler) : BrainfuckCompiler :=
  foldl (λ c i, Insert i c) c code.

(** The code of [+] and [-], with the arithmetic instruction left open. *)
Definition cell_code (arith : Instruction) (name : string) : list Instruction :=
  [Load Int8Ty (Named "dataptr") "current_ptr";
   Load Int8Ty (Named "current_ptr") "current_val";
   arith;
   Store (Named name) (Named "current_ptr")].

(** The registers and the memory of a running program with the given
    cells and cursor, for examples. *)
Definition bf_regs : regs :=
  <["dataptr" := PtrVal 1 0]> (<["memory" := PtrVal 0 0]> ∅).

Definition bf_memory (cells : list RtValue) (cursor : Z) (inp : list Z) : Machine :=
  {| heap := [cells; [PtrVal 0 cursor]]; input := inp; output := [] |}.

(** The cursor a finished run leaves in the data pointer slot. *)
Definition final_cursor (o : Outcome) : option RtValue :=
  match o with
  | Finished _ m => slot ← heap m !! 1%nat; slot !! 0%nat
  | _ => None
  end.

Definition final_cells (o : Outcome) : option (list RtValue) :=
  match o with
  | Finished _ m => heap m !! 0%nat
  | _ => None
  end.

(** The value [allocateMemory]'s [getelementptr inbounds] computes for
    the index constant [i32 (N / 2)]. *)
Definition initial_ptr (N : Z) : RtValue :=
  let d := signed 32 ((N / 2) mod 2 ^ 32) in
  if (0 <=? d) && (d <=? N) then PtrVal 0 d else PoisonVal.

(** ** Notions the properties are stated with *)

(** The running bracket counter of the specification: +1 on '[', -1 on
    ']'. *)
Definition bracket_delta (ch : ascii) : Z :=
  if (ch =? "[")%char then 1 else if (ch =? "]")%char then -1 else 0.

Fixpoint bracket_counter (source : list ascii) : Z :=
  match source with
  | [] => 0
  | ch :: rest => bracket_delta ch + bracket_counter rest
  end.


(** The offset of the first ']' that takes the counter below zero. *)
Fixpoint first_unmatched_close (source : list ascii) (count : Z) : option nat :=
  match source with
  | [] => None
  | ch :: rest =>
      if count + bracket_delta ch <? 0 then Some 0%nat
      else S <$> first_unmatched_close rest (count + bracket_delta ch)
  end.

(** The offset of the offending ']' can be computed from what
    [checkBrackets] returns. *)
Definition offset_recoverable : Prop :=
  ∃ offset_of : option (bool * BrainfuckCompiler) → nat,
  ∀ (source : string) (k : nat),
    first_unmatched_close (String.list_ascii_of_string source) 0 = Some k →
    offset_of (checkBrackets source (BrainfuckCompiler_new 30000)) = k.



(** The compiler with its debug-information switches cleared: what two
    compilers created with the same size and optimisation setting share,
    however [setDebugInfo] was called on them. *)
Definition without_debug (c : BrainfuckCompiler) : BrainfuckCompiler :=
  set_diBuilder false (setDebugInfo false c).

(** The state [compile] hands to [generateIR], for a fresh compiler of
    size [N] with optimisation [opt] and debug information [dbg]. *)
Definition before_generateIR (N : Z) (opt dbg : bool) : BrainfuckCompiler :=
  let c := setupRuntimeFunctions
             (allocateMemory
                (createMainFunction
                   (set_statistics ∅
                      (setDebugInfo dbg (setOptimization opt (BrainfuckCompiler_new N)))))) in
  if m_enableDebugInfo c then createDebugInfo c else c.

(** The verdict of [checkBrackets] depends on the source only: [None]
    when the counter overflows, otherwise the message reported, if any. *)
Fixpoint bracket_verdict (source : list ascii) (bracketCount : Z) : option (option Message) :=
  match source with
  | [] => Some (if negb (bracketCount =? 0) then Some BracketsDoNotMatch else None)
  | ch :: rest =>
      if (ch =? "[")%char then
        bracketCount ← int_checked (bracketCount + 1);
        bracket_verdict rest bracketCount
      else if (ch =? "]")%char then
        bracketCount ← int_checked (bracketCount - 1);
        if bracketCount <? 0 then Some (Some ExtraRightBracket)
        else bracket_verdict rest bracketCount
      else bracket_verdict rest bracketCount
  end.

Definition stack_ok (c : BrainfuckCompiler) (stack : list nat) : Prop :=
  ∀ b, In b stack → (b < length (blocks (m_module c)))%nat.

(** A block that is neither the insertion point nor waiting on the stack
    of loop exits is finished: nothing is added to it any more. *)
Definition finished_block (c : BrainfuckCompiler) (k : nat) : Prop :=
  (k < length (blocks (m_module c)))%nat ∧
  m_insertBlock c ≠ Some k ∧
  ¬ In k (m_loopEndBlocks c).

(** The blocks an instruction can branch to. *)
Definition branch_targets (i : Instruction) : list nat :=
  match i with
  | Br dest => [dest]
  | CondBr _ ifTrue ifFalse => [ifTrue; ifFalse]
  | _ => []
  end.

(** Block [k] holds a branch to block [t]. *)
Definition jumps_to (c : BrainfuckCompiler) (k t : nat) : Prop :=
  ∃ i, In i (block_instrs c k) ∧ In t (branch_targets i).

(** Every branch in the module goes to a block of the module. *)
Definition well_targeted (c : BrainfuckCompiler) : Prop :=
  ∀ k t, jumps_to c k t → (t < length (blocks (m_module c)))%nat.

(** Block [body] exists, is not a loop header still open, and is
    branched to from block [header] only. *)
Definition entered_only_from (c : BrainfuckCompiler) (header body : nat) : Prop :=
  (body < length (blocks (m_module c)))%nat ∧
  ¬ In body (m_loopStartBlocks c) ∧
  ∀ k, jumps_to c k body → k = header.

(** ** The command line tool of src/main.cpp *)

(** The exceptions the tool throws and catches: the [std::runtime_error]s
    of [parseCommandLine] and [readFile], and the two exceptions of
    [std::stoul]. *)
Inductive Exception :=
| MissingInputFileName          (* runtime_error: the input file name is missing *)
| MissingOutputFileName         (* runtime_error: the output file name is missing *)
| MissingMemorySize             (* runtime_error: the memory size is missing *)
| UnknownOption (arg : string)  (* runtime_error: unknown option: arg *)
| CannotOpenFile (filename : string) (* runtime_error: cannot open file: filename *)
| InvalidArgument               (* std::invalid_argument of stoul *)
| OutOfRange.                   (* std::out_of_range of stoul *)

Record CommandLineOptions := {
  inputFile : string;
  outputFile : string;
  memorySize : Z;
  enableOptimization : bool;
  enableDebugInfo : bool;
  enableJIT : bool;
  showStats : bool;
  showHelp : bool
}.

(** The default member initialisers of the struct. *)
Definition CommandLineOptions_default : CommandLineOptions :=
  {| inputFile := ""; outputFile := "a.out"; memorySize := 30000;
     enableOptimization := false; enableDebugInfo := false; enableJIT := false;
     showStats := false; showHelp := false |}.

Definition set_inputFile (v : string) (o : CommandLineOptions) :=
  {| inputFile := v; outputFile := outputFile o; memorySize := memorySize o;
     enableOptimization := enableOptimization o; enableDebugInfo := enableDebugInfo o;
     enableJIT := enableJIT o; showStats := showStats o; showHelp := showHelp o |}.

Definition set_outputFile (v : string) (o : CommandLineOptions) :=
  {| inputFile := inputFile o; outputFile := v; memorySize := memorySize o;
     enableOptimization := enableOptimization o; enableDebugInfo := enableDebugInfo o;
     enableJIT := enableJIT o; showStats := showStats o; showHelp := showHelp o |}.

Definition set_memorySize (v : Z) (o : CommandLineOptions) :=
  {| inputFile := inputFile o; outputFile := outputFile o; memorySize := v;
     enableOptimization := enableOptimization o; enableDebugInfo := enableDebugInfo o;
     enableJIT := enableJIT o; showStats := showStats o; showHelp := showHelp o |}.

Definition set_enableOptimization (v : bool) (o : CommandLineOptions) :=
  {| inputFile := inputFile o; outputFile := outputFile o; memorySize := memorySize o;
     enableOptimization := v; enableDebugInfo := enableDebugInfo o;
     enableJIT := enableJIT o; showStats := showStats o; showHelp := showHelp o |}.

Definition set_enableDebugInfo (v : bool) (o : CommandLineOptions) :=
  {| inputFile := inputFile o; outputFile := outputFile o; memorySize := memorySize o;
     enableOptimization := enableOptimization o; enableDebugInfo := v;
     enableJIT := enableJIT o; showStats := showStats o; showHelp := showHelp o |}.

Definition set_enableJIT (v : bool) (o : CommandLineOptions) :=
  {| inputFile := inputFile o; outputFile := outputFile o; memorySize := memorySize o;
     enableOptimization := enableOptimization o; enableDebugInfo := enableDebugInfo o;
     enableJIT := v; showStats := showStats o; showHelp := showHelp o |}.

Definition set_showStats (v : bool) (o : CommandLineOptions) :=
  {| inputFile := inputFile o; outputFile := outputFile o; memorySize := memorySize o;
     enableOptimization := enableOptimization o; enableDebugInfo := enableDebugInfo o;
     enableJIT := enableJIT o; showStats := v; showHelp := showHelp o |}.

Definition set_showHelp (v : bool) (o : CommandLineOptions) :=
  {| inputFile := inputFile o; outputFile := outputFile o; memorySize := memorySize o;
     enableOptimization := enableOptimization o; enableDebugInfo := enableDebugInfo o;
     enableJIT := enableJIT o; showStats := showStats o; showHelp := v |}.

(** [std::stoul(str)], that is [strtoul(str.c_str(), &end, 10)] of the C
    library with [unsigned long] of 64 bits: white space is skipped, one
    sign is accepted, the longest run of decimal digits is converted and
    what follows it is ignored.  No digit: [std::invalid_argument].  A
    value above [ULONG_MAX]: [std::out_of_range].  After a minus sign
    the value is negated as an [unsigned long]. *)
Definition isspace (c : ascii) : bool :=
  let n := Ascii.N_of_ascii c in ((n =? 32) || ((9 <=? n) && (n <=? 13)))%N.

Definition isdigit (c : ascii) : bool :=
  let n := Ascii.N_of_ascii c in ((48 <=? n) && (n <=? 57))%N.

Definition digit_value (c : ascii) : Z := Z.of_N (Ascii.N_of_ascii c) - 48.

Fixpoint skip_space (s : list ascii) : list ascii :=
  match s with
  | c :: rest => if isspace c then skip_space rest else s
  | [] => []
  end.

Fixpoint strtoul_digits (s : list ascii) (acc : Z) : Z :=
  match s with
  | c :: rest => if isdigit c then strtoul_digits rest (acc * 10 + digit_value c) else acc
  | [] => acc
  end.

Definition ULONG_MAX : Z := 2 ^ 64 - 1.

Definition stoul (str : string) : Exception + Z :=
  let s := skip_space (String.list_ascii_of_string str) in
  let '(negative, s) :=
    match s with
    | c :: rest =>
        if (c =? "-")%char then (true, rest)
        else if (c =? "+")%char then (false, rest)
        else (false, s)
    | [] => (false, s)
    end in
  match s with
  | c :: _ =>
      if isdigit c then
        let v := strtoul_digits s 0 in
        if ULONG_MAX <? v then inl OutOfRange
        else inr (if negative then (- v) mod 2 ^ 64 else v)
      else inl InvalidArgument
  | [] => inl InvalidArgument
  end.

(** [parseCommandLine]: the loop over [argv[1]], ..., [argv[argc - 1]].
    An option that takes a value consumes the next argument, whatever it
    looks like. *)
Fixpoint parseCommandLine_loop (args : list string) (options : CommandLineOptions)
  : Exception + CommandLineOptions :=
  match args with
  | [] => inr options
  | arg :: rest =>
      if (arg =? "-i")%string || (arg =? "--input")%string then
        match rest with
        | value :: rest => parseCommandLine_loop rest (set_inputFile value options)
        | [] => inl MissingInputFileName
        end
      else if (arg =? "-o")%string || (arg =? "--output")%string then
        match rest with
        | value :: rest => parseCommandLine_loop rest (set_outputFile value options)
        | [] => inl MissingOutputFileName
        end
      else if (arg =? "-m")%string || (arg =? "--memory")%string then
        match rest with
        | value :: rest =>
            match stoul value with
            | inr n => parseCommandLine_loop rest (set_memorySize n options)
            | inl e => inl e
            end
        | [] => inl MissingMemorySize
        end
      else if (arg =? "-O")%string || (arg =? "--optimize")%string then
        parseCommandLine_loop rest (set_enableOptimization true options)
      else if (arg =? "-g")%string || (arg =? "--debug")%string then
        parseCommandLine_loop rest (set_enableDebugInfo true options)
      else if (arg =? "-j")%string || (arg =? "--jit")%string then
        parseCommandLine_loop rest (set_enableJIT true options)
      else if (arg =? "-s")%string || (arg =? "--stats")%string then
        parseCommandLine_loop rest (set_showStats true options)
      else if (arg =? "-h")%string || (arg =? "--help")%string then
        parseCommandLine_loop rest (set_showHelp true options)
      else inl (UnknownOption arg)
  end.

(** [args] is [argv] without the program name [argv[0]]. *)
Definition parseCommandLine (args : list string) : Exception + CommandLineOptions :=
  parseCommandLine_loop args CommandLineOptions_default.

(** What the tool writes, line by line. *)
Inductive Line :=
| Usage (programName : string)        (* the text of showUsage *)
| InputFileRequired                   (* error: an input file must be given *)
| SeeHelp (programName : string)      (* use 'programName --help' *)
| Compiling (inputFile : string)
| MemorySizeIs (memorySize : Z)
| OptimizationIs (enabled : bool)
| DebugInfoIs (enabled : bool)
| ExecutionModeIs (jit : bool)
| Reported (message : Message)        (* a line of the compiler's reportError *)
| CompilationFailed
| StatisticsHeader                    (* the two heading lines of showStatistics *)
| InstructionCount (instr : ascii) (count : nat)
| TotalInstructions (count : nat)
| CompilationSucceeded
| OutputFileIs (outputFile : string)
| Caught (e : Exception).             (* error: e.what() *)

Definition instructionNames : list ascii :=
  [">"; "<"; "+"; "-"; "."; ","; "["; "]"]%char.

(** [showStatistics]: one line for every instruction that has an entry,
    in the order of [instructionNames], then the sum of these entries. *)
Definition showStatistics (compiler : BrainfuckCompiler) : list Line :=
  let stats := getStatistics compiler in
  let '(lines, totalInstructions) :=
    foldl (λ '(lines, totalInstructions) instr,
             match stats !! instr with
             | Some n => ((lines ++ [InstructionCount instr n])%list,
                          (totalInstructions + n)%nat)
             | None => (lines, totalInstructions)
             end)
          (([] : list Line), 0%nat) instructionNames in
  (StatisticsHeader :: lines ++ [TotalInstructions totalInstructions])%list.

Record MainResult := {
  exit_code : Z;
  stdout : list Line;
  stderr : list Line
}.

(** [main].  The files of the system are [files] (the content of a file
    that can be opened); the parts of LLVM are the parameters of
    [compile].  [stdout] holds what [main] and [showStatistics] write;
    the back ends write there too (after the line on the execution
    mode).  The result is [None] where [compile] has no defined
    result. *)
Section Main.
Variable verifyModule : Module → bool.
Variable optimizeModule : Module → Module.
Variable executeJIT : Module → list Message.
Variable emitObjectFile : string → Module → list Message.
Variable files : string → option string.

Definition readFile (filename : string) : Exception + string :=
  match files filename with
  | Some content => inr content
  | None => inl (CannotOpenFile filename)
  end.

Definition main (programName : string) (args : list string) : option MainResult :=
  match parseCommandLine args with
  | inl e => Some {| exit_code := 1; stdout := []; stderr := [Caught e] |}
  | inr options =>
      if showHelp options then
        Some {| exit_code := 0; stdout := [Usage programName]; stderr := [] |}
      else if (inputFile options =? "")%string then
        Some {| exit_code := 1; stdout := [];
                stderr := [InputFileRequired; SeeHelp programName] |}
      else
        match readFile (inputFile options) with
        | inl e => Some {| exit_code := 1; stdout := []; stderr := [Caught e] |}
        | inr sourceCode =>
            let compiler := BrainfuckCompiler_new (memorySize options) in
            let compiler := setOptimization (enableOptimization options) compiler in
            let compiler := setDebugInfo (enableDebugInfo options) compiler in
            let out := [Compiling (inputFile options);
                        MemorySizeIs (memorySize options);
                        OptimizationIs (enableOptimization options);
                        DebugInfoIs (enableDebugInfo options);
                        ExecutionModeIs (enableJIT options)] in
            '(success, compiler) ←
              compile verifyModule optimizeModule executeJIT emitObjectFile
                sourceCode (outputFile options) (enableJIT options) compiler;
            let err := Reported <$> cerr compiler in
            if negb success then
              Some {| exit_code := 1; stdout := out;
                      stderr := (err ++ [CompilationFailed])%list |}
            else
              let out := if showStats options
                         then (out ++ showStatistics compiler)%list else out in
              let out := (out ++ [CompilationSucceeded])%list in
              let out := if negb (enableJIT options)
                         then (out ++ [OutputFileIs (outputFile options)])%list else out in
              Some {| exit_code := 0; stdout := out; stderr := err |}
        end
  end.
End Main.

(** The string does not start with a decimal digit. *)
Definition no_leading_digit (s : string) : Prop :=
  match String.list_ascii_of_string s with
  | c :: _ => isdigit c = false
  | [] => True
  end.

(** The option names [parseCommandLine] knows. *)
Definition known_options : list string :=
  ["-i"; "--input"; "-o"; "--output"; "-m"; "--memory"; "-O"; "--optimize";
   "-g"; "--debug"; "-j"; "--jit"; "-s"; "--stats"; "-h"; "--help"].

(** ** The steps of [compile]

    The members no step of a compilation writes: the memory size and the
    two switches. *)
Definition settings (c : BrainfuckCompiler) : Z * bool * bool :=
  (m_memorySize c, m_enableOptimization c, m_enableDebugInfo c).

(** The set-up steps of [compile] before [generateIR]. *)
Definition setup (c : BrainfuckCompiler) : BrainfuckCompiler :=
  let c := setupRuntimeFunctions (allocateMemory (createMainFunction c)) in
  if m_enableDebugInfo c then createDebugInfo c else c.

(** ** The program a source reads as

    Brainfuck programs as trees: what a source in which the brackets
    match reads as.  A translation is followed through the structure of
    its source along these trees. *)

#[warnings="-register-all"] Inductive Cmd :=
| MoveRight | MoveLeft | Increment | Decrement | Output | Input
| Loop (body : list Cmd).

(** The instruction a character stands for, loop delimiters apart. *)
Definition simple_cmd (ch : ascii) : option Cmd :=
  if (ch =? ">")%char then Some MoveRight
  else if (ch =? "<")%char then Some MoveLeft
  else if (ch =? "+")%char then Some Increment
  else if (ch =? "-")%char then Some Decrement
  else if (ch =? ".")%char then Some Output
  else if (ch =? ",")%char then Some Input
  else None.

(** Reading a program: up to the end of the source or to a ']' that
    closes no '[' of the part read; the result is the program read and
    the source that is left. *)
Fixpoint parse_upto (fuel : nat) (source : list ascii) : option (list Cmd * list ascii) :=
  match fuel with
  | O => None
  | S fuel =>
      match source with
      | [] => Some ([], [])
      | ch :: rest =>
          if (ch =? "]")%char then Some ([], source)
          else if (ch =? "[")%char then
            '(body, rest) ← parse_upto fuel rest;
            match rest with
            | _ :: rest =>
                '(prog, rest) ← parse_upto fuel rest;
                Some (Loop body :: prog, rest)
            | [] => None
            end
          else
            '(prog, rest) ← parse_upto fuel rest;
            match simple_cmd ch with
            | Some cmd => Some (cmd :: prog, rest)
            | None => Some (prog, rest)
            end
      end
  end.

(** The program of a source in which the brackets match. *)
Definition parse (source : string) : option (list Cmd) :=
  let chars := String.list_ascii_of_string source in
  match parse_upto (S (length chars)) chars with
  | Some (prog, []) => Some prog
  | _ => None
  end.

(** [parses source prog]: the source reads as the program. *)
Inductive parses : list ascii → list Cmd → Prop :=
| parses_nil : parses [] []
| parses_skip ch source prog :
    not_instruction ch = true → parses source prog → parses (ch :: source) prog
| parses_simple ch cmd source prog :
    simple_cmd ch = Some cmd → parses source prog → parses (ch :: source) (cmd :: prog)
| parses_loop body rest body_prog rest_prog :
    parses body body_prog → parses rest rest_prog →
    parses ("["%char :: body ++ "]"%char :: rest) (Loop body_prog :: rest_prog).

(** The state of the compiler during a translation, with what concerns
    the blocks that wait on the stack of loop exits: they are distinct,
    still empty, and none of them is the insertion point. *)
Definition translating (c : BrainfuckCompiler) : Prop :=
  ready c = true ∧
  NoDup (m_loopEndBlocks c) ∧
  ∀ e, e ∈ m_loopEndBlocks c → block_instrs c e = [] ∧ m_insertBlock c ≠ Some e.

(** [code] is the code of the instruction [cmd], with [p] and [g] the
    handles of the output and the input primitive. *)
Definition is_code_of (p g : nat) (cmd : Cmd) (code : list Instruction) : Prop :=
  match cmd with
  | MoveRight =>
      code = [Load Int8Ty (Named "dataptr") "current_ptr";
              ConstGEP1_32 Int8Ty (Named "current_ptr") 1 "ptr_inc";
              Store (Named "ptr_inc") (Named "dataptr")]
  | MoveLeft =>
      code = [Load Int8Ty (Named "dataptr") "current_ptr";
              ConstGEP1_32 Int8Ty (Named "current_ptr") (-1) "ptr_dec";
              Store (Named "ptr_dec") (Named "dataptr")]
  | Increment =>
      code = cell_code (Add (Named "current_val") (ConstantInt Int8Ty 1) "val_inc" true true)
               "val_inc"
  | Decrement =>
      code = cell_code (Sub (Named "current_val") (ConstantInt Int8Ty 1) "val_dec" true true)
               "val_dec"
  | Output =>
      code = [Load Int8Ty (Named "dataptr") "current_ptr";
              Load Int8Ty (Named "current_ptr") "output_val";
              ZExt (Named "output_val") Int32Ty "output_int";
              Call p [Named "output_int"] ""]
  | Input =>
      code = [Call g [] "input_char";
              Trunc (Named "input_char") Int8Ty "input_byte";
              Load Int8Ty (Named "dataptr") "current_ptr";
              Store (Named "input_byte") (Named "current_ptr")]
  | Loop _ => False
  end.

(** The name and the function of every block, in the order of the
    blocks. *)
Definition block_labels (c : BrainfuckCompiler) : list (string * nat) :=
  (λ bb, (bb_name bb, bb_parent bb)) <$> blocks (m_module c).

(** The labels of the three blocks of each loop of a source: for a '['
    at offset [ip] a header, a body and an exit block that carry [ip] in
    their names, in the function [f]. *)
Fixpoint loop_labels (ip : nat) (source : list ascii) (f : nat) : list (string * nat) :=
  match source with
  | [] => []
  | ch :: rest =>
      ((if (ch =? "[")%char
        then [("loop_header_" +:+ pretty ip, f); ("loop_body_" +:+ pretty ip, f);
              ("loop_end_" +:+ pretty ip, f)]
        else []) ++ loop_labels (S ip) rest f)%list
  end.

(** ** Complete blocks *)

Definition is_terminator (i : Instruction) : bool :=
  match i with
  | Br _ | CondBr _ _ _ | Ret _ => true
  | _ => false
  end.

(** A block under construction: no terminator yet. *)
Definition open_block (code : list Instruction) : bool :=
  forallb (λ i, negb (is_terminator i)) code.

(** A complete block: one terminator, at the end. *)
Fixpoint complete_block (code : list Instruction) : bool :=
  match code with
  | [] => false
  | [t] => is_terminator t
  | i :: rest => negb (is_terminator i) && complete_block rest
  end.

(** During a translation the insertion point and the blocks on the
    stack of loop exits are open, every other block is complete. *)
Definition blocks_in_order (c : BrainfuckCompiler) : Prop :=
  ∀ k, (k < length (blocks (m_module c)))%nat →
       if bool_decide (m_insertBlock c = Some k ∨ k ∈ m_loopEndBlocks c)
       then open_block (block_instrs c k) = true
       else complete_block (block_instrs c k) = true.

(** ** The operands that must be pointers

    What the LLVM Language Reference requires of the instructions above
    where an operand has to be a pointer, and what LLVM's verifier
    rejects a module for ("Load operand must be a pointer", "Store
    operand must be a pointer", "GEP base pointer is not a vector or a
    vector of pointers", "Invalid bitcast"):

    - the address operand of a [load] and of a [store] is a pointer;
    - the base of a [getelementptr] is a pointer;
    - a [bitcast] of a pointer gives a pointer.

    The source builds integer and array types only ([Type_] has no
    pointer type), so the only values of pointer type are the results of
    [alloca] and [getelementptr]: what a [load], a cast, an arithmetic
    instruction, a comparison or a call is created with is an integer (or
    void).  These rules are necessary for a module to be valid, not
    sufficient: the verifier checks more. *)

(** The name an instruction defines, and whether its type is a pointer
    type. *)
Definition result_is_pointer (i : Instruction) : option (string * bool) :=
  match i with
  | Alloca _ name | InBoundsGEP _ _ _ name | ConstGEP1_32 _ _ _ name => Some (name, true)
  | BitCast _ _ name | Call _ _ name | Load _ _ name
  | Add _ _ name _ _ | Sub _ _ name _ _
  | ZExt _ _ name | Trunc _ _ name | ICmpEQ _ _ name => Some (name, false)
  | Store _ _ | Br _ | CondBr _ _ _ | Ret _ => None
  end.

(** Whether a value is of pointer type, as far as the instructions seen
    so far tell ([env]: the most recent definition of each name). *)
Definition is_pointer (env : gmap string bool) (v : Value) : option bool :=
  match v with
  | Named name => env !! name
  | ConstantInt _ _ => Some false
  | NullValue => None
  end.

(** One instruction: [false] when an operand that must be a pointer is
    known to be none, or a pointer is cast to an integer type. *)
Definition pointer_operand_ok (env : gmap string bool) (i : Instruction) : bool :=
  match i with
  | Load _ ptr _ | Store _ ptr | InBoundsGEP _ ptr _ _ | ConstGEP1_32 _ ptr _ _ =>
      negb (bool_decide (is_pointer env ptr = Some false))
  | BitCast v _ _ => negb (bool_decide (is_pointer env v = Some true))
  | _ => true
  end.

(** A sequence of instructions, in the order of emission. *)
Fixpoint pointer_operands_ok (env : gmap string bool) (code : list Instruction) : bool :=
  match code with
  | [] => true
  | i :: rest =>
      pointer_operand_ok env i &&
      pointer_operands_ok
        (match result_is_pointer i with
         | Some (name, p) => <[name := p]> env
         | None => env
         end) rest
  end.

(** A module: every block on its own, a value defined in another block
    being taken as fit for its use. *)
Definition module_pointer_operands_ok (M : Module) : bool :=
  forallb (λ bb, pointer_operands_ok ∅ (bb_instrs bb)) (blocks M).

(** ** Fresh compiler objects *)

(** A compiler object in a fresh state, as far as a translation reads
    the state it starts in: the module is empty and so are the loop
    stacks.  The other members are left open: the statistics, the
    current position, the insertion point, the main function, the memory
    array, the data pointer and the handles of the runtime functions may
    hold anything. *)
Definition fresh (c : BrainfuckCompiler) : Prop :=
  m_module c = {| functions := []; blocks := [] |} ∧
  m_loopStartBlocks c = [] ∧ m_loopEndBlocks c = [].

(** Two compiler objects with the same settings and the same error
    stream so far. *)
Definition same_settings (c1 c2 : BrainfuckCompiler) : Prop :=
  m_memorySize c1 = m_memorySize c2 ∧
  m_enableOptimization c1 = m_enableOptimization c2 ∧
  m_enableDebugInfo c1 = m_enableDebugInfo c2 ∧
  m_diBuilder c1 = m_diBuilder c2 ∧
  cerr c1 = cerr c2.

(** * Properties *)

(** ** Lemmas on the builder *)

Lemma Insert_fields i c :
  m_memorySize (Insert i c) = m_memorySize c ∧
  m_statistics (Insert i c) = m_statistics c ∧
  m_insertBlock (Insert i c) = m_insertBlock c ∧
  m_dataPtr (Insert i c) = m_dataPtr c ∧
  m_memoryArray (Insert i c) = m_memoryArray c ∧
  m_mainFunction (Insert i c) = m_mainFunction c ∧
  m_putcharFunc (Insert i c) = m_putcharFunc c ∧
  m_getcharFunc (Insert i c) = m_getcharFunc c ∧
  m_loopStartBlocks (Insert i c) = m_loopStartBlocks c ∧
  m_loopEndBlocks (Insert i c) = m_loopEndBlocks c ∧
  m_currentIP (Insert i c) = m_currentIP c ∧
  cerr (Insert i c) = cerr c ∧
  functions (m_module (Insert i c)) = functions (m_module c) ∧
  length (blocks (m_module (Insert i c))) = length (blocks (m_module c)).
Proof.
  unfold Insert. destruct (m_insertBlock c) eqn:E; simpl; rewrite ?E;
    repeat split; try reflexivity.
  apply length_alter.
Qed.

Lemma Insert_block_instrs i c b :
  m_insertBlock c = Some b → (b < length (blocks (m_module c)))%nat →
  block_instrs (Insert i c) b = (block_instrs c b ++ [i])%list.
Proof.
  intros Hb Hlt. unfold Insert, block_instrs. rewrite Hb. simpl.
  rewrite list_lookup_alter_eq.
  destruct (lookup_lt_is_Some_2 _ _ Hlt) as [bb Hbb]. rewrite Hbb. reflexivity.
Qed.

Lemma Insert_block_instrs_ne i c b b' :
  m_insertBlock c = Some b → b ≠ b' →
  block_instrs (Insert i c) b' = block_instrs c b'.
Proof.
  intros Hb Hne. unfold Insert, block_instrs. rewrite Hb. simpl.
  rewrite list_lookup_alter_ne by done. reflexivity.
Qed.

Lemma Inserts_fields code c :
  m_statistics (Inserts code c) = m_statistics c ∧
  m_insertBlock (Inserts code c) = m_insertBlock c ∧
  m_dataPtr (Inserts code c) = m_dataPtr c ∧
  m_mainFunction (Inserts code c) = m_mainFunction c ∧
  m_putcharFunc (Inserts code c) = m_putcharFunc c ∧
  m_getcharFunc (Inserts code c) = m_getcharFunc c ∧
  m_loopStartBlocks (Inserts code c) = m_loopStartBlocks c ∧
  m_loopEndBlocks (Inserts code c) = m_loopEndBlocks c ∧
  cerr (Inserts code c) = cerr c ∧
  functions (m_module (Inserts code c)) = functions (m_module c) ∧
  length (blocks (m_module (Inserts code c))) = length (blocks (m_module c)).
Proof.
  revert c. induction code as [|i code IH]; intros c; simpl.
  - repeat split; reflexivity.
  - destruct (IH (Insert i c)) as (?&?&?&?&?&?&?&?&?&?&?).
    destruct (Insert_fields i c) as (?&?&?&?&?&?&?&?&?&?&?&?&?&?).
    repeat split; congruence.
Qed.

Lemma Inserts_block_instrs code c b :
  m_insertBlock c = Some b → (b < length (blocks (m_module c)))%nat →
  block_instrs (Inserts code c) b = (block_instrs c b ++ code)%list.
Proof.
  revert c. induction code as [|i code IH]; intros c Hb Hlt; simpl.
  - by rewrite app_nil_r.
  - destruct (Insert_fields i c) as (?&?&Hi&?&?&?&?&?&?&?&?&?&?&Hl).
    rewrite IH by (rewrite ?Hi, ?Hl; done).
    rewrite Insert_block_instrs by done. by rewrite <- app_assoc.
Qed.

Lemma Inserts_block_instrs_ne code c b b' :
  m_insertBlock c = Some b → b ≠ b' →
  block_instrs (Inserts code c) b' = block_instrs c b'.
Proof.
  revert c. induction code as [|i code IH]; intros c Hb Hne; simpl; [done|].
  destruct (Insert_fields i c) as (?&?&Hi&?).
  rewrite IH by (rewrite ?Hi; done). by apply Insert_block_instrs_ne with b.
Qed.

Lemma emitted_Inserts handler code c b :
  m_insertBlock c = Some b → (b < length (blocks (m_module c)))%nat →
  handler c = Inserts code c →
  emitted handler c = code.
Proof.
  intros Hb Hlt Hh. unfold emitted. rewrite Hb, Hh.
  rewrite Inserts_block_instrs by done. by rewrite drop_app_length.
Qed.

(** Each handler outside the loop delimiters is a fixed run of [Insert]s. *)
Lemma handleIncrementPtr_Inserts c :
  handleIncrementPtr c =
  Inserts [Load Int8Ty (m_dataPtr c) "current_ptr";
           ConstGEP1_32 Int8Ty (Named "current_ptr") 1 "ptr_inc";
           Store (Named "ptr_inc") (m_dataPtr c)] c.
Proof.
  unfold handleIncrementPtr, CreateLoad, CreateConstGEP1_32, CreateStore. simpl.
  destruct (Insert_fields (Load Int8Ty (m_dataPtr c) "current_ptr") c) as (?&?&?&Hd&?).
  destruct (Insert_fields (ConstGEP1_32 Int8Ty (Named "current_ptr") 1 "ptr_inc")
              (Insert (Load Int8Ty (m_dataPtr c) "current_ptr") c)) as (?&?&?&Hd'&?).
  by rewrite Hd', Hd.
Qed.

Lemma handleDecrementPtr_Inserts c :
  handleDecrementPtr c =
  Inserts [Load Int8Ty (m_dataPtr c) "current_ptr";
           ConstGEP1_32 Int8Ty (Named "current_ptr") (-1) "ptr_dec";
           Store (Named "ptr_dec") (m_dataPtr c)] c.
Proof.
  unfold handleDecrementPtr, CreateLoad, CreateConstGEP1_32, CreateStore. simpl.
  destruct (Insert_fields (Load Int8Ty (m_dataPtr c) "current_ptr") c) as (?&?&?&Hd&?).
  destruct (Insert_fields (ConstGEP1_32 Int8Ty (Named "current_ptr") (-1) "ptr_dec")
              (Insert (Load Int8Ty (m_dataPtr c) "current_ptr") c)) as (?&?&?&Hd'&?).
  by rewrite Hd', Hd.
Qed.

Lemma handleIncrementByte_Inserts c :
  handleIncrementByte c =
  Inserts [Load Int8Ty (m_dataPtr c) "current_ptr";
           Load Int8Ty (Named "current_ptr") "current_val";
           Add (Named "current_val") (ConstantInt Int8Ty 1) "val_inc" true true;
           Store (Named "val_inc") (Named "current_ptr")] c.
Proof. reflexivity. Qed.

Lemma handleDecrementByte_Inserts c :
  handleDecrementByte c =
  Inserts [Load Int8Ty (m_dataPtr c) "current_ptr";
           Load Int8Ty (Named "current_ptr") "current_val";
           Sub (Named "current_val") (ConstantInt Int8Ty 1) "val_dec" true true;
           Store (Named "val_dec") (Named "current_ptr")] c.
Proof. reflexivity. Qed.

Lemma handleOutput_Inserts c :
  handleOutput c =
  Inserts [Load Int8Ty (m_dataPtr c) "current_ptr";
           Load Int8Ty (Named "current_ptr") "output_val";
           ZExt (Named "output_val") Int32Ty "output_int";
           Call (m_putcharFunc c) [Named "output_int"] ""] c.
Proof.
  unfold handleOutput, CreateLoad, CreateZExt, CreateCall. simpl.
  repeat match goal with
  | |- context [m_putcharFunc (Insert ?i ?c)] =>
      let H := fresh in
      destruct (Insert_fields i c) as (_&_&_&_&_&_&H&_); rewrite H; clear H
  end.
  reflexivity.
Qed.

Lemma handleInput_Inserts c :
  handleInput c =
  Inserts [Call (m_getcharFunc c) [] "input_char";
           Trunc (Named "input_char") Int8Ty "input_byte";
           Load Int8Ty (m_dataPtr c) "current_ptr";
           Store (Named "input_byte") (Named "current_ptr")] c.
Proof.
  unfold handleInput, CreateLoad, CreateTrunc, CreateCall, CreateStore. simpl.
  repeat match goal with
  | |- context [m_dataPtr (Insert ?i ?c)] =>
      let H := fresh in
      destruct (Insert_fields i c) as (_&_&_&H&_); rewrite H; clear H
  end.
  reflexivity.
Qed.

(** ** Lemmas on the running program *)

Lemma ready_inv c :
  ready c = true →
  ∃ b, m_insertBlock c = Some b ∧ (b < length (blocks (m_module c)))%nat ∧
       m_dataPtr c = Named "dataptr" ∧
       functions (m_module c) !! m_putcharFunc c = Some FnPutchar ∧
       functions (m_module c) !! m_getcharFunc c = Some FnGetchar.
Proof.
  unfold ready. intros H.
  repeat (apply andb_prop in H; destruct H as [H ?]).
  destruct (m_insertBlock c) as [b|]; [|done].
  exists b. repeat split; try by eapply bool_decide_eq_true_1.
Qed.

Ltac regs_lookup :=
  repeat first
    [ rewrite lookup_insert_eq
    | rewrite lookup_insert_ne by (intros ?; discriminate) ].

Lemma exec_move fns (d : Z) name r m cells cursor :
  bf_machine r m cells cursor →
  signed 32 (d mod 2 ^ 32) = d →
  name ≠ "dataptr" → name ≠ "memory" →
  ∃ r' m',
    exec_instrs fns
      [Load Int8Ty (Named "dataptr") "current_ptr";
       ConstGEP1_32 Int8Ty (Named "current_ptr") d name;
       Store (Named name) (Named "dataptr")] r m = Continue r' m' ∧
    bf_machine r' m' cells (cursor + d) ∧
    input m' = input m ∧ output m' = output m.
Proof.
  intros (Hmem & Hdp & Hheap) Hd Hn1 Hn2.
  eexists _, _. split; [|split].
  - simpl. rewrite Hdp. simpl. rewrite Hheap. simpl.
    regs_lookup. simpl. rewrite Hd.
    rewrite lookup_insert_eq. simpl.
    rewrite lookup_insert_ne by done.
    rewrite lookup_insert_ne by (intros ?; discriminate).
    rewrite Hdp. simpl. rewrite Hheap. simpl. reflexivity.
  - unfold bf_machine. simpl.
    rewrite !(lookup_insert_ne _ name) by done.
    rewrite !lookup_insert_ne by (intros ?; discriminate).
    repeat split; try done. by rewrite Z.mul_1_r.
  - done.
Qed.

Lemma heap_load_slot cells p : heap_load 1 0 [cells; [p]] = Some p.
Proof. reflexivity. Qed.

Lemma heap_load_cell cells slot cursor :
  heap_load 0 cursor [cells; slot] =
  if 0 <=? cursor then cells !! Z.to_nat cursor else None.
Proof. reflexivity. Qed.

Lemma heap_load_valid cells slot cursor :
  valid_index cells cursor →
  ∃ x, cells !! Z.to_nat cursor = Some x ∧ heap_load 0 cursor [cells; slot] = Some x.
Proof.
  intros [H0 H1]. rewrite heap_load_cell.
  destruct (lookup_lt_is_Some_2 cells (Z.to_nat cursor)) as [x Hx]; [lia|].
  exists x. split; [done|]. by rewrite (proj2 (Z.leb_le _ _) H0).
Qed.

Lemma heap_load_invalid cells slot cursor :
  ¬ valid_index cells cursor → heap_load 0 cursor [cells; slot] = None.
Proof.
  intros H. rewrite heap_load_cell. destruct (0 <=? cursor) eqn:E; [|done].
  apply Z.leb_le in E. apply lookup_ge_None. unfold valid_index in H. lia.
Qed.

Lemma heap_store_valid cells slot cursor v :
  valid_index cells cursor →
  heap_store 0 cursor v [cells; slot] = Some [<[Z.to_nat cursor := v]> cells; slot].
Proof.
  intros [H0 H1]. unfold heap_store. simpl.
  rewrite (proj2 (Z.leb_le _ _) H0), (proj2 (Z.ltb_lt _ _) H1). reflexivity.
Qed.

Lemma exec_cell_code fns arith name (f : Z → RtValue) r m cells cursor v :
  bf_machine r m cells cursor →
  valid_index cells cursor →
  cells !! Z.to_nat cursor = Some (IntVal 8 v) →
  name ≠ "dataptr" → name ≠ "memory" → name ≠ "current_ptr" →
  (∀ r0 m0, r0 !! "current_val" = Some (IntVal 8 v) →
            exec_instr fns arith r0 m0 = Continue (<[name := f v]> r0) m0) →
  ∃ r' m',
    exec_instrs fns (cell_code arith name) r m = Continue r' m' ∧
    bf_machine r' m' (<[Z.to_nat cursor := f v]> cells) cursor ∧
    input m' = input m ∧ output m' = output m.
Proof.
  intros (Hmem & Hdp & Hheap) Hvalid Hcell Hn1 Hn2 Hn3 Harith.
  destruct (heap_load_valid cells [PtrVal 0 cursor] cursor Hvalid) as (x & Hx & Hload).
  assert (x = IntVal 8 v) as -> by congruence.
  eexists _, _. split; [|split].
  - unfold cell_code. simpl. rewrite Hdp. simpl. rewrite Hheap, heap_load_slot. simpl.
    regs_lookup. simpl. rewrite Hheap, Hload. simpl.
    rewrite Harith by (by rewrite lookup_insert_eq).
    simpl. rewrite lookup_insert_eq. simpl.
    rewrite lookup_insert_ne by done.
    rewrite lookup_insert_ne by (intros ?; discriminate).
    rewrite lookup_insert_eq. simpl. rewrite Hheap.
    rewrite heap_store_valid by done. simpl. reflexivity.
  - unfold bf_machine. simpl.
    rewrite !(lookup_insert_ne _ name) by done.
    rewrite !lookup_insert_ne by (intros ?; discriminate).
    done.
  - done.
Qed.

(** With the cursor outside the array the first access of the cell is
    undefined behaviour, whatever follows. *)
Lemma exec_cell_access_invalid fns name rest r m cells cursor :
  bf_machine r m cells cursor →
  ¬ valid_index cells cursor →
  exec_instrs fns
    (Load Int8Ty (Named "dataptr") "current_ptr" ::
     Load Int8Ty (Named "current_ptr") name :: rest) r m = Undefined.
Proof.
  intros (Hmem & Hdp & Hheap) Hinvalid.
  simpl. rewrite Hdp. simpl. rewrite Hheap, heap_load_slot. simpl.
  rewrite lookup_insert_eq. simpl.
  by rewrite Hheap, heap_load_invalid.
Qed.

Lemma exec_Add_one fns r m v :
  r !! "current_val" = Some (IntVal 8 v) →
  exec_instr fns (Add (Named "current_val") (ConstantInt Int8Ty 1) "val_inc" true true) r m
  = Continue (<["val_inc" := add_result 8 v 1 true true]> r) m.
Proof. intros H. simpl. rewrite H. reflexivity. Qed.

Lemma exec_Sub_one fns r m v :
  r !! "current_val" = Some (IntVal 8 v) →
  exec_instr fns (Sub (Named "current_val") (ConstantInt Int8Ty 1) "val_dec" true true) r m
  = Continue (<["val_dec" := sub_result 8 v 1 true true]> r) m.
Proof. intros H. simpl. rewrite H. reflexivity. Qed.

(** [add nuw nsw i8 v, 1]: defined unless [v] is 127 (signed overflow) or
    255 (unsigned overflow). *)
Lemma add_result_one v :
  0 ≤ v < 256 →
  add_result 8 v 1 true true =
  if (v =? 127) || (v =? 255) then PoisonVal else IntVal 8 (v + 1).
Proof.
  intros Hv.
  assert (Forall (λ v, add_result 8 v 1 true true =
                       if (v =? 127) || (v =? 255) then PoisonVal else IntVal 8 (v + 1))
                 (seqZ 0 256)) as H
    by (apply (bool_decide_unpack _); vm_compute; exact I).
  rewrite Forall_forall in H. apply H, elem_of_seqZ. lia.
Qed.

(** [sub nuw nsw i8 v, 1]: defined unless [v] is 0 (unsigned overflow) or
    128 (signed overflow). *)
Lemma sub_result_one v :
  0 ≤ v < 256 →
  sub_result 8 v 1 true true =
  if (v =? 0) || (v =? 128) then PoisonVal else IntVal 8 (v - 1).
Proof.
  intros Hv.
  assert (Forall (λ v, sub_result 8 v 1 true true =
                       if (v =? 0) || (v =? 128) then PoisonVal else IntVal 8 (v - 1))
                 (seqZ 0 256)) as H
    by (apply (bool_decide_unpack _); vm_compute; exact I).
  rewrite Forall_forall in H. apply H, elem_of_seqZ. lia.
Qed.

Lemma emitted_handleIncrementPtr c :
  ready c = true →
  emitted handleIncrementPtr c =
  [Load Int8Ty (Named "dataptr") "current_ptr";
   ConstGEP1_32 Int8Ty (Named "current_ptr") 1 "ptr_inc";
   Store (Named "ptr_inc") (Named "dataptr")].
Proof.
  intros (b & Hb & Hlt & Hd & _)%ready_inv.
  rewrite (emitted_Inserts _ _ _ _ Hb Hlt (handleIncrementPtr_Inserts c)).
  by rewrite Hd.
Qed.

Lemma emitted_handleDecrementPtr c :
  ready c = true →
  emitted handleDecrementPtr c =
  [Load Int8Ty (Named "dataptr") "current_ptr";
   ConstGEP1_32 Int8Ty (Named "current_ptr") (-1) "ptr_dec";
   Store (Named "ptr_dec") (Named "dataptr")].
Proof.
  intros (b & Hb & Hlt & Hd & _)%ready_inv.
  rewrite (emitted_Inserts _ _ _ _ Hb Hlt (handleDecrementPtr_Inserts c)).
  by rewrite Hd.
Qed.

Lemma emitted_handleIncrementByte c :
  ready c = true →
  emitted handleIncrementByte c =
  cell_code (Add (Named "current_val") (ConstantInt Int8Ty 1) "val_inc" true true) "val_inc".
Proof.
  intros (b & Hb & Hlt & Hd & _)%ready_inv.
  rewrite (emitted_Inserts _ _ _ _ Hb Hlt (handleIncrementByte_Inserts c)).
  by rewrite Hd.
Qed.

Lemma emitted_handleDecrementByte c :
  ready c = true →
  emitted handleDecrementByte c =
  cell_code (Sub (Named "current_val") (ConstantInt Int8Ty 1) "val_dec" true true) "val_dec".
Proof.
  intros (b & Hb & Hlt & Hd & _)%ready_inv.
  rewrite (emitted_Inserts _ _ _ _ Hb Hlt (handleDecrementByte_Inserts c)).
  by rewrite Hd.
Qed.

Lemma emitted_handleInput c :
  ready c = true →
  emitted handleInput c =
  [Call (m_getcharFunc c) [] "input_char";
   Trunc (Named "input_char") Int8Ty "input_byte";
   Load Int8Ty (Named "dataptr") "current_ptr";
   Store (Named "input_byte") (Named "current_ptr")].
Proof.
  intros (b & Hb & Hlt & Hd & _)%ready_inv.
  rewrite (emitted_Inserts _ _ _ _ Hb Hlt (handleInput_Inserts c)).
  by rewrite Hd.
Qed.

(** ** C1: cursor movement *)

(** C1, the code at failing inputs.  With two cells the cursor starts at
    index 1.  After [<<] it is -1, where moving left from index 0 should
    wrap to index N - 1 = 1; after [>] it is 2, where moving right from
    index N - 1 should wrap to index 0.  Neither is an index of the
    array: the cursor is not kept modulo N. *)
Theorem C1_cursor_leaves_the_array :
  final_cursor (run_source 10 2 "<<" []) = Some (PtrVal 0 (-1)) ∧
  final_cursor (run_source 10 2 ">" []) = Some (PtrVal 0 2) ∧
  final_cells (run_source 10 2 "<<" []) = Some [IntVal 8 0; IntVal 8 0] ∧
  ¬ valid_index [IntVal 8 0; IntVal 8 0] (-1) ∧
  ¬ valid_index [IntVal 8 0; IntVal 8 0] 2.
Proof.
  split; [vm_compute; reflexivity|].
  split; [vm_compute; reflexivity|].
  split; [vm_compute; reflexivity|].
  unfold valid_index. simpl. lia.
Qed.

(** What the code of [>] and [<] does in general.  At any point of a
    translation, the code of [>] adds one to the cursor and the code of
    [<] subtracts one, with no reduction modulo the array size; cells,
    input and output are untouched.  Once the cursor is outside the
    array, the code of an instruction that touches the current cell is
    undefined behaviour. *)
Lemma cursor_moves_without_wraparound
    (c : BrainfuckCompiler) (r : regs) (m : Machine) (cells : list RtValue) (cursor : Z) :
  ready c = true →
  bf_machine r m cells cursor →
  (∃ r' m',
      exec_instrs (functions (m_module c)) (emitted handleIncrementPtr c) r m
        = Continue r' m' ∧
      bf_machine r' m' cells (cursor + 1) ∧
      input m' = input m ∧ output m' = output m) ∧
  (∃ r' m',
      exec_instrs (functions (m_module c)) (emitted handleDecrementPtr c) r m
        = Continue r' m' ∧
      bf_machine r' m' cells (cursor - 1) ∧
      input m' = input m ∧ output m' = output m) ∧
  (¬ valid_index cells cursor →
      exec_instrs (functions (m_module c)) (emitted handleIncrementByte c) r m = Undefined ∧
      exec_instrs (functions (m_module c)) (emitted handleDecrementByte c) r m = Undefined).
Proof.
  intros Hready Hm. split; [|split].
  - rewrite emitted_handleIncrementPtr by done.
    apply exec_move; done.
  - rewrite emitted_handleDecrementPtr by done.
    apply (exec_move _ (-1)); done.
  - intros Hinvalid.
    rewrite emitted_handleIncrementByte, emitted_handleDecrementByte by done.
    split; eapply exec_cell_access_invalid; eauto.
Qed.

(** ** C2: cell arithmetic *)

(** What the code of [+] and of [-] does to a cell that holds the byte
    [v]: [add nuw nsw] and [sub nuw nsw] on [i8].  The result is [v + 1]
    (resp. [v - 1]) except at the two values where an overflow flag
    applies, where it is poison. *)
Lemma exec_increment_decrement_byte
    (c : BrainfuckCompiler) (r : regs) (m : Machine) (cells : list RtValue)
    (cursor v : Z) :
  ready c = true →
  bf_machine r m cells cursor →
  valid_index cells cursor →
  cells !! Z.to_nat cursor = Some (IntVal 8 v) →
  0 ≤ v < 256 →
  (∃ r' m',
      exec_instrs (functions (m_module c)) (emitted handleIncrementByte c) r m
        = Continue r' m' ∧
      bf_machine r' m'
        (<[Z.to_nat cursor :=
             if (v =? 127) || (v =? 255) then PoisonVal else IntVal 8 (v + 1)]> cells)
        cursor ∧
      input m' = input m ∧ output m' = output m) ∧
  (∃ r' m',
      exec_instrs (functions (m_module c)) (emitted handleDecrementByte c) r m
        = Continue r' m' ∧
      bf_machine r' m'
        (<[Z.to_nat cursor :=
             if (v =? 0) || (v =? 128) then PoisonVal else IntVal 8 (v - 1)]> cells)
        cursor ∧
      input m' = input m ∧ output m' = output m).
Proof.
  intros Hready Hm Hvalid Hcell Hv. split.
  - rewrite emitted_handleIncrementByte by done.
    rewrite <- add_result_one by done.
    apply (exec_cell_code _ _ _ (λ v, add_result 8 v 1 true true) r m cells cursor v);
      try done.
    intros r0 m0 H0. by apply exec_Add_one.
  - rewrite emitted_handleDecrementByte by done.
    rewrite <- sub_result_one by done.
    apply (exec_cell_code _ _ _ (λ v, sub_result 8 v 1 true true) r m cells cursor v);
      try done.
    intros r0 m0 H0. by apply exec_Sub_one.
Qed.

(** C2, the code at the failing inputs.  [CreateAdd] and [CreateSub] are
    called with both overflow flags set, so the emitted instructions are
    [add nuw nsw] and [sub nuw nsw].  Decrementing a cell that holds 0
    (program [-], every cell starts at 0) leaves poison in the cell, not
    255; incrementing a cell that holds 255 leaves poison, not 0, and so
    does incrementing 127 and decrementing 128.  Away from these values
    the result is the claimed one: [+] on 0 gives 1. *)
Theorem C2_overflow_flags_make_wraparound_poison :
  final_cells (run_source 10 2 "-" []) = Some [IntVal 8 0; PoisonVal] ∧
  final_cells (run_source 10 2 "+" []) = Some [IntVal 8 0; IntVal 8 1] ∧
  (let c := after_setup 2 in
   let code_inc := emitted handleIncrementByte c in
   let code_dec := emitted handleDecrementByte c in
   let fns := functions (m_module c) in
   (∃ r, exec_instrs fns code_inc bf_regs (bf_memory [IntVal 8 0; IntVal 8 255] 1 [])
         = Continue r (bf_memory [IntVal 8 0; PoisonVal] 1 [])) ∧
   (∃ r, exec_instrs fns code_inc bf_regs (bf_memory [IntVal 8 0; IntVal 8 127] 1 [])
         = Continue r (bf_memory [IntVal 8 0; PoisonVal] 1 [])) ∧
   (∃ r, exec_instrs fns code_dec bf_regs (bf_memory [IntVal 8 0; IntVal 8 128] 1 [])
         = Continue r (bf_memory [IntVal 8 0; PoisonVal] 1 [])) ∧
   (∃ r, exec_instrs fns code_dec bf_regs (bf_memory [IntVal 8 0; IntVal 8 0] 1 [])
         = Continue r (bf_memory [IntVal 8 0; PoisonVal] 1 [])) ∧
   (∃ r, exec_instrs fns code_inc bf_regs (bf_memory [IntVal 8 0; IntVal 8 254] 1 [])
         = Continue r (bf_memory [IntVal 8 0; IntVal 8 255] 1 []))).
Proof.
  split; [vm_compute; reflexivity|].
  split; [vm_compute; reflexivity|].
  repeat split; eexists; vm_compute; reflexivity.
Qed.

(** ** C8: initialisation *)

Lemma emitted_allocateMemory N :
  emitted allocateMemory (createMainFunction (BrainfuckCompiler_new N)) =
  [Alloca (ArrayTy Int8Ty N) "memory";
   BitCast (Named "memory") Int8Ty "";
   Call 1 [Named ""; ConstantInt Int8Ty 0; ConstantInt Int64Ty N; ConstantInt Int1Ty 0] "";
   Alloca Int8Ty "dataptr";
   InBoundsGEP Int8Ty (Named "memory")
     [ConstantInt Int32Ty 0; ConstantInt Int32Ty (N / 2)] "initial_ptr";
   Store (Named "initial_ptr") (Named "dataptr")].
Proof. reflexivity. Qed.

Lemma heap_memset_all v x N :
  0 ≤ N →
  heap_memset 0 0 v N [replicate (Z.to_nat N) x] = Some [replicate (Z.to_nat N) v].
Proof.
  intros HN. unfold heap_memset. simpl.
  rewrite (proj2 (Z.leb_le _ _) HN). simpl.
  rewrite length_replicate, Z2Nat.id by done.
  rewrite Z.leb_refl. simpl.
  rewrite drop_ge by (rewrite length_replicate; lia).
  by rewrite app_nil_r.
Qed.

Lemma exec_allocateMemory N inp :
  1 ≤ N < 2 ^ 64 →
  ∃ r,
    exec_instrs [FnMain; FnMemset]
      (emitted allocateMemory (createMainFunction (BrainfuckCompiler_new N)))
      ∅ {| heap := []; input := inp; output := [] |}
    = Continue r {| heap := [replicate (Z.to_nat N) (IntVal 8 0); [initial_ptr N]];
                    input := inp; output := [] |} ∧
    r !! "memory" = Some (PtrVal 0 0) ∧ r !! "dataptr" = Some (PtrVal 1 0).
Proof.
  intros HN. rewrite emitted_allocateMemory.
  exists (<["initial_ptr" := initial_ptr N]>
            (<["dataptr" := PtrVal 1 0]>
               (<["" := PtrVal 0 0]> (<["memory" := PtrVal 0 0]> ∅)))).
  split.
  - cbn [exec_instrs exec_instr]. unfold alloca_slots.
    cbn [sizeof heap length app set_heap input output].
    rewrite Z.mul_1_r.
    cbn [eval continue_with mbind option_bind]. regs_lookup.
    cbn [eval continue_with mbind option_bind mapM].
    regs_lookup.
    cbn [eval continue_with mbind option_bind mapM mret option_ret fmap option_fmap
         option_map getBitWidth exec_call lookup list_lookup heap set_heap input output].
    rewrite (Z.mod_small N) by lia.
    rewrite heap_memset_all by lia.
    cbn [eval continue_with mbind option_bind mapM mret option_ret fmap option_fmap
         option_map getBitWidth exec_call lookup list_lookup heap set_heap input output
         length app sizeof Z.to_nat Pos.to_nat Pos.iter_op Init.Nat.add replicate].
    regs_lookup.
    cbn [eval continue_with mbind option_bind mapM mret option_ret fmap option_fmap
         option_map getBitWidth exec_call lookup list_lookup heap set_heap input output
         length app sizeof gep_offset gep_inner elementType_of].
    change (0 mod 2 ^ 32) with 0. change (signed 32 0) with 0.
    rewrite length_replicate, Z2Nat.id by lia.
    rewrite !Z.mul_1_r, !Z.add_0_r, !Z.add_0_l.
    change (0 mod 2 ^ 8) with 0. unfold initial_ptr.
    destruct ((0 <=? signed 32 ((N / 2) mod 2 ^ 32)) &&
              (signed 32 ((N / 2) mod 2 ^ 32) <=? N));
      cbn [continue_with mbind option_bind]; regs_lookup;
      cbn [continue_with mbind option_bind heap set_heap]; reflexivity.
  - by regs_lookup.
Qed.

Lemma initial_ptr_below_2_32 N :
  1 ≤ N < 2 ^ 32 → initial_ptr N = PtrVal 0 (N / 2).
Proof.
  intros HN. unfold initial_ptr, signed.
  assert (0 ≤ N / 2 < 2 ^ 31) as Hhalf.
  { change (2 ^ 32) with (2 * 2 ^ 31) in HN. split.
    - apply Z.div_pos; lia.
    - apply Z.div_lt_upper_bound; lia. }
  assert (N / 2 ≤ N) as Hle.
  { apply Z.div_le_upper_bound; lia. }
  rewrite Z.mod_small by (change (2 ^ 32) with (2 * 2 ^ 31); lia).
  change (32 - 1) with 31.
  rewrite (proj2 (Z.ltb_lt _ _) (proj2 Hhalf)).
  rewrite (proj2 (Z.leb_le _ _) (proj1 Hhalf)), (proj2 (Z.leb_le _ _) Hle).
  reflexivity.
Qed.

(** What the claim says, on the sizes where the code achieves it: for
    [1 <= N < 2^32] the code [allocateMemory] emits leaves [N] cells, all
    zero, and the cursor at index [N / 2]. *)
Lemma allocateMemory_initialises (N : Z) (inp : list Z) :
  1 ≤ N < 2 ^ 32 →
  ∃ r m,
    exec_instrs [FnMain; FnMemset]
      (emitted allocateMemory (createMainFunction (BrainfuckCompiler_new N)))
      ∅ {| heap := []; input := inp; output := [] |} = Continue r m ∧
    bf_machine r m (replicate (Z.to_nat N) (IntVal 8 0)) (N / 2) ∧
    Z.of_nat (length (replicate (Z.to_nat N) (IntVal 8 0))) = N ∧
    valid_index (replicate (Z.to_nat N) (IntVal 8 0)) (N / 2) ∧
    input m = inp ∧ output m = [].
Proof.
  intros HN.
  destruct (exec_allocateMemory N inp) as (r & Hexec & Hr1 & Hr2).
  { change (2 ^ 64) with (2 ^ 32 * 2 ^ 32). change (2 ^ 32) with 4294967296 in *. lia. }
  rewrite initial_ptr_below_2_32 in Hexec by done.
  eexists _, _. split; [exact Hexec|].
  assert (Z.of_nat (length (replicate (Z.to_nat N) (IntVal 8 0))) = N) as Hlen
    by (rewrite length_replicate; lia).
  repeat split; try done.
  - apply Z.div_pos; lia.
  - rewrite Hlen. apply Z.div_lt; lia.
Qed.

(** C8, the code at failing inputs.  [allocateMemory] passes the cursor
    index [m_memorySize / 2] as a 32-bit constant.  With the default size
    30000 the cursor starts at 15000, as claimed.  With
    [N = 8589934592 = 2^33] the constant [N / 2 = 2^32] is 0 in 32 bits:
    the cursor starts at index 0, not at [N / 2].  With
    [N = 4294967296 = 2^32] the constant [2^31] is negative as a
    [getelementptr] index: the [inbounds] result is poison, and the
    cursor is no index at all. *)
Theorem C8_cursor_index_is_a_32_bit_constant :
  (∃ r, exec_instrs [FnMain; FnMemset]
          (emitted allocateMemory (createMainFunction (BrainfuckCompiler_new 30000)))
          ∅ {| heap := []; input := []; output := [] |}
        = Continue r {| heap := [replicate (Z.to_nat 30000) (IntVal 8 0); [PtrVal 0 15000]];
                        input := []; output := [] |}) ∧
  (∃ r, exec_instrs [FnMain; FnMemset]
          (emitted allocateMemory (createMainFunction (BrainfuckCompiler_new 8589934592)))
          ∅ {| heap := []; input := []; output := [] |}
        = Continue r {| heap := [replicate (Z.to_nat 8589934592) (IntVal 8 0); [PtrVal 0 0]];
                        input := []; output := [] |}) ∧
  8589934592 / 2 = 4294967296 ∧
  (∃ r, exec_instrs [FnMain; FnMemset]
          (emitted allocateMemory (createMainFunction (BrainfuckCompiler_new 4294967296)))
          ∅ {| heap := []; input := []; output := [] |}
        = Continue r {| heap := [replicate (Z.to_nat 4294967296) (IntVal 8 0); [PoisonVal]];
                        input := []; output := [] |}).
Proof.
  split; [|split; [|split]].
  - destruct (exec_allocateMemory 30000 []) as (r & Hexec & _); [done|].
    exists r. exact Hexec.
  - destruct (exec_allocateMemory 8589934592 []) as (r & Hexec & _); [done|].
    exists r. exact Hexec.
  - reflexivity.
  - destruct (exec_allocateMemory 4294967296 []) as (r & Hexec & _); [done|].
    exists r. exact Hexec.
Qed.

(** ** C3: the bracket check *)




(** [first_unmatched_close] finds nothing exactly when no prefix has a
    negative counter. *)
Lemma first_unmatched_close_None source : ∀ count,
  0 ≤ count →
  first_unmatched_close source count = None ↔
  ∀ k : nat, 0 ≤ count + bracket_counter (take k source).
Proof.
  induction source as [|ch rest IH]; intros count Hc; simpl.
  - split; [|done]. intros _ k. rewrite take_nil. simpl. lia.
  - destruct (count + bracket_delta ch <? 0) eqn:E.
    + apply Z.ltb_lt in E. split; [done|]. intros H.
      specialize (H 1%nat). simpl in H. rewrite ?take_0 in H. simpl in H. lia.
    + apply Z.ltb_ge in E. rewrite fmap_None, IH by done. split.
      * intros H [|k]; simpl; [lia|]. specialize (H k). lia.
      * intros H k. specialize (H (S k)). simpl in H. lia.
Qed.

(** What it finds is the offset of a ']' at which the counter becomes
    negative for the first time. *)
Lemma first_unmatched_close_Some source : ∀ count k,
  0 ≤ count →
  first_unmatched_close source count = Some k →
  source !! k = Some "]"%char ∧
  count + bracket_counter (take (S k) source) < 0 ∧
  ∀ j : nat, (j ≤ k)%nat → 0 ≤ count + bracket_counter (take j source).
Proof.
  induction source as [|ch rest IH]; intros count k Hc; simpl; [done|].
  destruct (count + bracket_delta ch <? 0) eqn:E.
  - apply Z.ltb_lt in E. intros [= <-]. simpl. rewrite ?take_0. simpl.
    split; [|split; [lia|]].
    + unfold bracket_delta in E. destruct (Ascii.eqb_spec ch "["); [lia|].
      destruct (Ascii.eqb_spec ch "]"); [by subst|lia].
    + intros j Hj. assert (j = 0%nat) as -> by lia. simpl. lia.
  - apply Z.ltb_ge in E. intros H.
    destruct (first_unmatched_close rest (count + bracket_delta ch)) as [k'|] eqn:Hk;
      [|done].
    simpl in H. injection H as <-.
    destruct (IH _ _ E Hk) as (H1 & H2 & H3).
    split; [done|]. split; [simpl in *; lia|].
    intros [|j] Hj; simpl; [lia|]. specialize (H3 j). lia.
Qed.

(** C3, the code at a failing input.  In "+++[>+++<-]++]", the source of
    the repository's error test, the counter goes negative at the ']' at
    offset 13.  [checkBrackets] fails with the message "extra right
    bracket", which has no position in it; the sources "]" and "+]",
    whose unmatched ']' are at offsets 0 and 1, get the very same
    result.  The offset of the offending ']' cannot be read off the
    error. *)
Theorem C3_unmatched_close_is_reported_without_offset :
  first_unmatched_close (String.list_ascii_of_string "+++[>+++<-]++]") 0 = Some 13%nat ∧
  checkBrackets "+++[>+++<-]++]" (BrainfuckCompiler_new 30000)
    = Some (false, reportError ExtraRightBracket (BrainfuckCompiler_new 30000)) ∧
  first_unmatched_close (String.list_ascii_of_string "]") 0 = Some 0%nat ∧
  first_unmatched_close (String.list_ascii_of_string "+]") 0 = Some 1%nat ∧
  checkBrackets "]" (BrainfuckCompiler_new 30000)
    = Some (false, reportError ExtraRightBracket (BrainfuckCompiler_new 30000)) ∧
  checkBrackets "+]" (BrainfuckCompiler_new 30000)
    = Some (false, reportError ExtraRightBracket (BrainfuckCompiler_new 30000)) ∧
  ¬ offset_recoverable.
Proof.
  split; [reflexivity|]. split; [reflexivity|]. split; [reflexivity|].
  split; [reflexivity|]. split; [reflexivity|]. split; [reflexivity|].
  intros [offset_of H].
  pose proof (H "]" 0%nat eq_refl) as H0.
  pose proof (H "+]" 1%nat eq_refl) as H1.
  change (checkBrackets "+]" (BrainfuckCompiler_new 30000))
    with (checkBrackets "]" (BrainfuckCompiler_new 30000)) in H1.
  congruence.
Qed.


(** ** C5: validation comes first *)

Lemma checkBrackets_loop_result source : ∀ count c ok c',
  checkBrackets_loop source count c = Some (ok, c') →
  (ok = true ∧ c' = c) ∨ (ok = false ∧ ∃ message, c' = reportError message c).
Proof.
  induction source as [|ch rest IH]; intros count c ok c'; simpl.
  - destruct (negb (count =? 0)); intros [= <- <-]; eauto.
  - destruct (ch =? "[")%char.
    + destruct (int_checked (count + 1)); simpl; [apply IH|done].
    + destruct (ch =? "]")%char; [|apply IH].
      destruct (int_checked (count - 1)) as [n|]; simpl; [|done].
      destruct (n <? 0); [|apply IH].
      intros [= <- <-]; eauto.
Qed.

(** C5.  [compile] starts with [checkBrackets] on the whole source, and
    every code generation step works on the state that check returns.  If
    the check fails, [compile] returns [false] with that state: one
    message more on the error stream and nothing else changed, so no
    function, block or instruction was created and the statistics and
    the loop stacks are as before.  If the check succeeds it leaves the
    compiler as it was, and the rest of [compile] starts from there. *)
Theorem C5_validation_precedes_code_generation
    (verifyModule : Module → bool) (optimizeModule : Module → Module)
    (executeJIT : Module → list Message) (emitObjectFile : string → Module → list Message)
    (source outputFile : string) (enableJIT : bool) (c : BrainfuckCompiler) :
  match checkBrackets source c with
  | None =>
      compile verifyModule optimizeModule executeJIT emitObjectFile
        source outputFile enableJIT c = None
  | Some (false, c') =>
      compile verifyModule optimizeModule executeJIT emitObjectFile
        source outputFile enableJIT c = Some (false, c') ∧
      (∃ message, c' = reportError message c) ∧
      m_module c' = m_module c ∧
      m_insertBlock c' = m_insertBlock c ∧
      m_statistics c' = m_statistics c ∧
      m_memoryArray c' = m_memoryArray c ∧
      m_dataPtr c' = m_dataPtr c ∧
      m_loopStartBlocks c' = m_loopStartBlocks c ∧
      m_loopEndBlocks c' = m_loopEndBlocks c
  | Some (true, c') =>
      c' = c ∧
      let generated :=
        generateIR source
          (let c1 := setupRuntimeFunctions
                       (allocateMemory (createMainFunction (set_statistics ∅ c))) in
           if m_enableDebugInfo c1 then createDebugInfo c1 else c1) in
      compile verifyModule optimizeModule executeJIT emitObjectFile
        source outputFile enableJIT c =
      if verifyModule (m_module generated)
      then Some (false, reportError InvalidIR generated)
      else
        let optimized :=
          if m_enableOptimization generated
          then set_module (optimizeModule (m_module generated)) generated
          else generated in
        Some (true,
              if enableJIT
              then report_all (executeJIT (m_module optimized)) optimized
              else report_all (emitObjectFile outputFile (m_module optimized)) optimized)
  end.
Proof.
  unfold compile.
  destruct (checkBrackets source c) as [[ok c']|] eqn:Hcheck; [|reflexivity].
  apply checkBrackets_loop_result in Hcheck.
  destruct Hcheck as [[-> ->]|[-> [message ->]]]; cbn [mbind option_bind negb].
  - split; reflexivity.
  - split; [reflexivity|]. split; [by exists message|].
    repeat split; reflexivity.
Qed.

Example compile_rejects_unbalanced verifyModule optimizeModule executeJIT emitObjectFile :
  compile verifyModule optimizeModule executeJIT emitObjectFile
    "+++[>+++<-]++]" "a.out" false (BrainfuckCompiler_new 30000)
  = Some (false, reportError ExtraRightBracket (BrainfuckCompiler_new 30000)).
Proof. reflexivity. Qed.

(** ** Lemmas on the loop handlers *)

Lemma handleLoopStart_eq ip c :
  handleLoopStart ip c =
  let n := length (blocks (m_module c)) in
  set_loopBlocks (n :: m_loopStartBlocks c) (S (S n) :: m_loopEndBlocks c)
    (SetInsertPoint (S n)
       (Inserts [Load Int8Ty (m_dataPtr c) "current_ptr";
                 Load Int8Ty (Named "current_ptr") "loop_val";
                 ICmpEQ (Named "loop_val") (ConstantInt Int8Ty 0) "loop_cond";
                 CondBr (Named "loop_cond") (S (S n)) (S n)]
          (SetInsertPoint n
             (Insert (Br n)
                (set_module
                   {| functions := functions (m_module c);
                      blocks := blocks (m_module c) ++
                        [{| bb_name := "loop_header_" +:+ pretty ip;
                            bb_parent := m_mainFunction c; bb_instrs := [] |};
                         {| bb_name := "loop_body_" +:+ pretty ip;
                            bb_parent := m_mainFunction c; bb_instrs := [] |};
                         {| bb_name := "loop_end_" +:+ pretty ip;
                            bb_parent := m_mainFunction c; bb_instrs := [] |}] |}
                   c))))).
Proof.
  destruct c as [sz opt dbg stats [fns blks] ib di ma dp mf pf gf starts ends cip err].
  unfold handleLoopStart, BasicBlock_Create, CreateBr, CreateLoad, CreateICmpEQ,
    CreateCondBr, SetInsertPoint, Inserts, Insert.
  cbn [m_module set_module blocks functions m_mainFunction m_insertBlock set_insertBlock
       m_dataPtr m_loopStartBlocks m_loopEndBlocks set_loopBlocks foldl
       m_memorySize m_enableOptimization m_enableDebugInfo m_statistics m_diBuilder
       m_memoryArray m_putcharFunc m_getcharFunc m_currentIP cerr].
  rewrite !length_app. cbn [length].
  rewrite <- !app_assoc. cbn [app].
  replace (length blks + 1)%nat with (S (length blks)) by lia.
  replace (S (length blks) + 1)%nat with (S (S (length blks))) by lia.
  destruct ib; reflexivity.
Qed.

Lemma handleLoopEnd_fields ip c :
  m_statistics (handleLoopEnd ip c) = m_statistics c ∧
  m_dataPtr (handleLoopEnd ip c) = m_dataPtr c ∧
  m_putcharFunc (handleLoopEnd ip c) = m_putcharFunc c ∧
  m_getcharFunc (handleLoopEnd ip c) = m_getcharFunc c ∧
  m_mainFunction (handleLoopEnd ip c) = m_mainFunction c ∧
  functions (m_module (handleLoopEnd ip c)) = functions (m_module c) ∧
  length (blocks (m_module (handleLoopEnd ip c))) = length (blocks (m_module c)).
Proof.
  unfold handleLoopEnd, CreateBr, SetInsertPoint, Insert.
  destruct (m_loopStartBlocks c), (m_loopEndBlocks c); simpl;
    try (repeat split; reflexivity).
  destruct (m_insertBlock c); simpl; rewrite ?length_alter; repeat split; reflexivity.
Qed.

Lemma handleLoopStart_fields ip c :
  m_statistics (handleLoopStart ip c) = m_statistics c ∧
  cerr (handleLoopStart ip c) = cerr c ∧
  m_dataPtr (handleLoopStart ip c) = m_dataPtr c ∧
  m_putcharFunc (handleLoopStart ip c) = m_putcharFunc c ∧
  m_getcharFunc (handleLoopStart ip c) = m_getcharFunc c ∧
  m_mainFunction (handleLoopStart ip c) = m_mainFunction c ∧
  functions (m_module (handleLoopStart ip c)) = functions (m_module c) ∧
  length (blocks (m_module (handleLoopStart ip c)))
    = (length (blocks (m_module c)) + 3)%nat ∧
  m_insertBlock (handleLoopStart ip c) = Some (S (length (blocks (m_module c)))) ∧
  m_loopStartBlocks (handleLoopStart ip c)
    = length (blocks (m_module c)) :: m_loopStartBlocks c ∧
  m_loopEndBlocks (handleLoopStart ip c)
    = S (S (length (blocks (m_module c)))) :: m_loopEndBlocks c.
Proof.
  rewrite handleLoopStart_eq. cbv zeta.
  set (n := length (blocks (m_module c))).
  set (c0 := set_module _ c).
  set (code := [_; _; _; _]).
  destruct (Insert_fields (Br n) c0) as (_&H1&_&H2&_&H3&H4&H5&_&_&_&H6&H7&H8).
  destruct (Inserts_fields code (SetInsertPoint n (Insert (Br n) c0)))
    as (G1&_&G2&G3&G4&G5&_&_&G6&G7&G8).
  cbn [m_statistics cerr m_dataPtr m_putcharFunc m_getcharFunc m_mainFunction m_module
       m_insertBlock m_loopStartBlocks m_loopEndBlocks
       set_loopBlocks SetInsertPoint set_insertBlock] in *.
  rewrite G1, G2, G3, G4, G5, G6, G7, G8, H1, H2, H3, H4, H5, H6, H7, H8.
  subst c0. cbn [m_statistics cerr m_dataPtr m_putcharFunc m_getcharFunc m_mainFunction
                 m_module set_module functions blocks].
  rewrite length_app. cbn [length].
  repeat split; reflexivity.
Qed.

(** ** C7: statistics *)









Example statistics_example :
  map_to_list (getStatistics (generateIR "a+b[-]c.+" (after_setup 30000)))
  ≡ₚ [("+"%char, 2%nat); ("-"%char, 1%nat); ("."%char, 1%nat);
      ("["%char, 1%nat); ("]"%char, 1%nat)].
Proof. vm_compute. apply (bool_decide_unpack _). vm_compute. exact I. Qed.

(** ** Lemmas on the loop stacks *)

Lemma handleLoopEnd_empty ip c :
  m_loopStartBlocks c = [] ∨ m_loopEndBlocks c = [] →
  handleLoopEnd ip c = reportError (ExtraRightBracketAt ip) c.
Proof.
  unfold handleLoopEnd. intros [H|H]; rewrite H; [done|].
  by destruct (m_loopStartBlocks c).
Qed.

Lemma handleLoopEnd_nonempty ip c h starts e ends :
  m_loopStartBlocks c = h :: starts → m_loopEndBlocks c = e :: ends →
  handleLoopEnd ip c =
  SetInsertPoint e (Insert (Br h) (set_loopBlocks starts ends c)).
Proof. unfold handleLoopEnd, CreateBr. by intros -> ->. Qed.

(** The loop stacks and the error stream across one character, as long
    as a ']' finds the stacks non-empty: the depth follows the bracket
    counter and nothing is reported. *)
Lemma generateIR_step_depth i ch c (depth : Z) :
  Z.of_nat (length (m_loopStartBlocks c)) = depth →
  Z.of_nat (length (m_loopEndBlocks c)) = depth →
  0 ≤ depth + bracket_delta ch →
  cerr (generateIR_step i ch c) = cerr c ∧
  Z.of_nat (length (m_loopStartBlocks (generateIR_step i ch c)))
    = depth + bracket_delta ch ∧
  Z.of_nat (length (m_loopEndBlocks (generateIR_step i ch c)))
    = depth + bracket_delta ch.
Proof.
  intros Hs He Hd. unfold generateIR_step, bracket_delta in *.
  destruct (not_instruction ch) eqn:Hskip.
  { unfold not_instruction in Hskip.
    repeat (apply andb_prop in Hskip; destruct Hskip as [Hskip ?]).
    destruct (ch =? "[")%char; [done|]. destruct (ch =? "]")%char; [done|].
    simpl. rewrite Hs, He. repeat split; lia. }
  set (c1 := set_statistics _ _).
  assert (cerr c1 = cerr c ∧ m_loopStartBlocks c1 = m_loopStartBlocks c ∧
          m_loopEndBlocks c1 = m_loopEndBlocks c) as (Hc1 & Hc2 & Hc3) by done.
  rewrite <- Hc1. rewrite <- Hc2 in Hs. rewrite <- Hc3 in He. clearbody c1.
  assert (∀ code, ch ≠ "["%char → ch ≠ "]"%char →
            cerr (Inserts code c1) = cerr c1 ∧
            Z.of_nat (length (m_loopStartBlocks (Inserts code c1)))
              = depth + (if (ch =? "[")%char then 1 else if (ch =? "]")%char then -1 else 0) ∧
            Z.of_nat (length (m_loopEndBlocks (Inserts code c1)))
              = depth + (if (ch =? "[")%char then 1 else if (ch =? "]")%char then -1 else 0))
    as Hsimple.
  { intros code H1 H2.
    destruct (Inserts_fields code c1) as (_&_&_&_&_&_&G1&G2&G3&_).
    rewrite G1, G2, G3, Hs, He.
    destruct (Ascii.eqb_spec ch "["); [done|].
    destruct (Ascii.eqb_spec ch "]"); [done|]. repeat split; lia. }
  destruct (Ascii.eqb_spec ch ">");
    [subst; rewrite handleIncrementPtr_Inserts; by apply Hsimple|].
  destruct (Ascii.eqb_spec ch "<");
    [subst; rewrite handleDecrementPtr_Inserts; by apply Hsimple|].
  destruct (Ascii.eqb_spec ch "+");
    [subst; rewrite handleIncrementByte_Inserts; by apply Hsimple|].
  destruct (Ascii.eqb_spec ch "-");
    [subst; rewrite handleDecrementByte_Inserts; by apply Hsimple|].
  destruct (Ascii.eqb_spec ch ".");
    [subst; rewrite handleOutput_Inserts; by apply Hsimple|].
  destruct (Ascii.eqb_spec ch ",");
    [subst; rewrite handleInput_Inserts; by apply Hsimple|].
  clear Hsimple.
  destruct (Ascii.eqb_spec ch "[").
  { destruct (handleLoopStart_fields i c1) as (_&G1&_&_&_&_&_&_&_&G2&G3).
    rewrite G1, G2, G3. simpl length. repeat split; lia. }
  destruct (Ascii.eqb_spec ch "]"); [|rewrite Hs, He; repeat split; lia].
  destruct (m_loopStartBlocks c1) as [|h starts] eqn:E1; [simpl in Hs; lia|].
  destruct (m_loopEndBlocks c1) as [|x ends] eqn:E2; [simpl in He; lia|].
  rewrite (handleLoopEnd_nonempty i c1 h starts x ends E1 E2).
  destruct (Insert_fields (Br h) (set_loopBlocks starts ends c1))
    as (_&_&_&_&_&_&_&_&G1&G2&_&G3&_).
  cbn [cerr m_loopStartBlocks m_loopEndBlocks SetInsertPoint set_insertBlock].
  rewrite G1, G2, G3. simpl in *. repeat split; lia.
Qed.

Lemma generateIR_loop_depth source : ∀ i c (depth : Z),
  Z.of_nat (length (m_loopStartBlocks c)) = depth →
  Z.of_nat (length (m_loopEndBlocks c)) = depth →
  first_unmatched_close source depth = None →
  cerr (generateIR_loop i source c) = cerr c ∧
  Z.of_nat (length (m_loopStartBlocks (generateIR_loop i source c)))
    = depth + bracket_counter source ∧
  Z.of_nat (length (m_loopEndBlocks (generateIR_loop i source c)))
    = depth + bracket_counter source.
Proof.
  induction source as [|ch rest IH]; intros i c depth Hs He Hnone; simpl.
  - repeat split; lia.
  - simpl in Hnone.
    destruct (depth + bracket_delta ch <? 0) eqn:E; [done|].
    apply Z.ltb_ge in E. apply fmap_None in Hnone.
    destruct (generateIR_step_depth i ch c depth Hs He E) as (G1 & G2 & G3).
    destruct (IH (S i) _ _ G2 G3 Hnone) as (K1 & K2 & K3).
    rewrite K1, K2, K3, G1. repeat split; lia.
Qed.

Lemma checkBrackets_true source c0 c1 :
  checkBrackets source c0 = Some (true, c1) →
  first_unmatched_close (String.list_ascii_of_string source) 0 = None ∧
  bracket_counter (String.list_ascii_of_string source) = 0.
Proof.
  unfold checkBrackets.
  generalize (String.list_ascii_of_string source) as chars.
  assert (∀ chars count, 0 ≤ count →
            checkBrackets_loop chars count c0 = Some (true, c1) →
            first_unmatched_close chars count = None ∧
            count + bracket_counter chars = 0) as H.
  { induction chars as [|ch rest IH]; intros count Hc; simpl.
    - destruct (count =? 0) eqn:E; simpl; [|done].
      apply Z.eqb_eq in E. intros _. split; [done|lia].
    - unfold bracket_delta. destruct (ch =? "[")%char.
      + unfold int_checked.
        destruct ((INT_MIN <=? count + 1) && (count + 1 <=? INT_MAX)); simpl; [|done].
        replace (count + 1 <? 0) with false by (symmetry; apply Z.ltb_ge; lia).
        intros H. destruct (IH (count + 1)) as [H1 H2]; [lia|done|].
        rewrite H1. split; [done|lia].
      + destruct (ch =? "]")%char.
        * unfold int_checked.
          destruct ((INT_MIN <=? count - 1) && (count - 1 <=? INT_MAX)); simpl; [|done].
          change (count + -1) with (count - 1).
          destruct (count - 1 <? 0) eqn:E; [done|]. apply Z.ltb_ge in E.
          intros H. destruct (IH (count - 1)) as [H1 H2]; [lia|done|].
          rewrite H1. split; [done|lia].
        * rewrite Z.add_0_r.
          replace (count <? 0) with false by (symmetry; apply Z.ltb_ge; lia).
          intros H. destruct (IH count) as [H1 H2]; [lia|done|].
          rewrite H1. split; [done|lia]. }
  intros chars Hcheck. by apply H in Hcheck.
Qed.

Lemma generateIR_reports_nothing source c c0 c1 :
  m_loopStartBlocks c = [] → m_loopEndBlocks c = [] →
  checkBrackets source c0 = Some (true, c1) →
  cerr (generateIR source c) = cerr c ∧
  m_loopStartBlocks (generateIR source c) = [] ∧
  m_loopEndBlocks (generateIR source c) = [].
Proof.
  intros Hs He Hcheck. apply checkBrackets_true in Hcheck as [Hnone Hzero].
  unfold generateIR, CreateRet.
  set (c' := generateIR_loop _ _ _).
  destruct (Insert_fields (Ret (ConstantInt Int32Ty 0)) c')
    as (_&_&_&_&_&_&_&_&G1&G2&_&G3&_).
  rewrite G1, G2, G3. subst c'.
  destruct (generateIR_loop_depth (String.list_ascii_of_string source) 0%nat
              (set_currentIP 0 c) 0) as (K1 & K2 & K3).
  - simpl. by rewrite Hs.
  - simpl. by rewrite He.
  - done.
  - rewrite Hzero in K2, K3. split; [done|].
    split; apply length_zero_iff_nil; lia.
Qed.

(** ** Lemmas on the switches *)

Lemma without_debug_Insert i c :
  without_debug (Insert i c) = Insert i (without_debug c).
Proof. unfold Insert. simpl. by destruct (m_insertBlock c). Qed.

Lemma without_debug_Inserts code : ∀ c,
  without_debug (Inserts code c) = Inserts code (without_debug c).
Proof.
  induction code as [|i code IH]; intros c; simpl; [done|].
  by rewrite IH, without_debug_Insert.
Qed.

Lemma without_debug_handleLoopStart ip c :
  without_debug (handleLoopStart ip c) = handleLoopStart ip (without_debug c).
Proof.
  rewrite !handleLoopStart_eq. cbv zeta.
  change (without_debug (set_loopBlocks ?a ?b ?x))
    with (set_loopBlocks a b (without_debug x)).
  change (without_debug (SetInsertPoint ?a ?x)) with (SetInsertPoint a (without_debug x)).
  rewrite without_debug_Inserts.
  change (without_debug (SetInsertPoint ?a ?x)) with (SetInsertPoint a (without_debug x)).
  rewrite without_debug_Insert.
  reflexivity.
Qed.

Lemma without_debug_handleLoopEnd ip c :
  without_debug (handleLoopEnd ip c) = handleLoopEnd ip (without_debug c).
Proof.
  unfold handleLoopEnd, CreateBr.
  change (m_loopStartBlocks (without_debug c)) with (m_loopStartBlocks c).
  change (m_loopEndBlocks (without_debug c)) with (m_loopEndBlocks c).
  destruct (m_loopStartBlocks c), (m_loopEndBlocks c); try reflexivity.
  change (without_debug (SetInsertPoint ?a ?x)) with (SetInsertPoint a (without_debug x)).
  by rewrite without_debug_Insert.
Qed.

Lemma without_debug_generateIR_step i ch c :
  without_debug (generateIR_step i ch c) = generateIR_step i ch (without_debug c).
Proof.
  unfold generateIR_step.
  destruct (not_instruction ch); [reflexivity|].
  change (set_statistics (statistics_incr ch (m_statistics (set_currentIP i (without_debug c))))
            (set_currentIP i (without_debug c)))
    with (without_debug
            (set_statistics (statistics_incr ch (m_statistics (set_currentIP i c)))
               (set_currentIP i c))).
  set (c1 := set_statistics _ _). clearbody c1.
  destruct (ch =? ">")%char;
    [rewrite !handleIncrementPtr_Inserts; apply without_debug_Inserts|].
  destruct (ch =? "<")%char;
    [rewrite !handleDecrementPtr_Inserts; apply without_debug_Inserts|].
  destruct (ch =? "+")%char;
    [rewrite !handleIncrementByte_Inserts; apply without_debug_Inserts|].
  destruct (ch =? "-")%char;
    [rewrite !handleDecrementByte_Inserts; apply without_debug_Inserts|].
  destruct (ch =? ".")%char;
    [rewrite !handleOutput_Inserts; apply without_debug_Inserts|].
  destruct (ch =? ",")%char;
    [rewrite !handleInput_Inserts; apply without_debug_Inserts|].
  destruct (ch =? "[")%char; [apply without_debug_handleLoopStart|].
  destruct (ch =? "]")%char; [apply without_debug_handleLoopEnd|].
  reflexivity.
Qed.

Lemma without_debug_generateIR source c :
  without_debug (generateIR source c) = generateIR source (without_debug c).
Proof.
  unfold generateIR, CreateRet. rewrite without_debug_Insert. f_equal.
  change (set_currentIP 0 (without_debug c)) with (without_debug (set_currentIP 0 c)).
  generalize (set_currentIP 0 c) as c0. generalize 0%nat as i.
  induction (String.list_ascii_of_string source) as [|ch rest IH]; intros i c0; simpl.
  - reflexivity.
  - by rewrite IH, without_debug_generateIR_step.
Qed.


Lemma without_debug_before_generateIR N opt dbg :
  without_debug (before_generateIR N opt dbg) = before_generateIR N opt false.
Proof. destruct dbg; vm_compute; reflexivity. Qed.

Lemma checkBrackets_loop_verdict source : ∀ count c,
  checkBrackets_loop source count c =
  match bracket_verdict source count with
  | None => None
  | Some None => Some (true, c)
  | Some (Some message) => Some (false, reportError message c)
  end.
Proof.
  induction source as [|ch rest IH]; intros count c; simpl.
  - by destruct (negb (count =? 0)).
  - destruct (ch =? "[")%char.
    + destruct (int_checked (count + 1)); simpl; [apply IH|done].
    + destruct (ch =? "]")%char; [|apply IH].
      destruct (int_checked (count - 1)) as [n|]; simpl; [|done].
      destruct (n <? 0); [done|apply IH].
Qed.

Lemma compile_fresh verifyModule optimizeModule executeJIT emitObjectFile
    source outputFile enableJIT N opt dbg :
  compile verifyModule optimizeModule executeJIT emitObjectFile source outputFile enableJIT
    (setDebugInfo dbg (setOptimization opt (BrainfuckCompiler_new N))) =
  match bracket_verdict (String.list_ascii_of_string source) 0 with
  | None => None
  | Some (Some message) =>
      Some (false, reportError message
                     (setDebugInfo dbg (setOptimization opt (BrainfuckCompiler_new N))))
  | Some None =>
      let generated := generateIR source (before_generateIR N opt dbg) in
      if verifyModule (m_module generated)
      then Some (false, reportError InvalidIR generated)
      else
        let optimized :=
          if m_enableOptimization generated
          then set_module (optimizeModule (m_module generated)) generated
          else generated in
        Some (true,
              if enableJIT
              then report_all (executeJIT (m_module optimized)) optimized
              else report_all (emitObjectFile outputFile (m_module optimized)) optimized)
  end.
Proof.
  unfold compile, checkBrackets. rewrite checkBrackets_loop_verdict.
  destruct (bracket_verdict _ _) as [[message|]|];
    cbn [mbind option_bind negb]; unfold before_generateIR; cbv zeta; reflexivity.
Qed.

(** ** Lemmas on the blocks of a loop *)

(** One turn of [generateIR]'s loop is one of four things. *)
Lemma generateIR_step_cases i ch c :
  let c1 := set_statistics (statistics_incr ch (m_statistics c)) (set_currentIP i c) in
  (bracket_delta ch = 0 ∧
   (generateIR_step i ch c = set_currentIP i c ∨
    ∃ code, generateIR_step i ch c = Inserts code c1)) ∨
  (bracket_delta ch = 1 ∧ ch = "["%char ∧ generateIR_step i ch c = handleLoopStart i c1) ∨
  (bracket_delta ch = -1 ∧ ch = "]"%char ∧ generateIR_step i ch c = handleLoopEnd i c1).
Proof.
  intros c1. unfold generateIR_step, bracket_delta. fold c1.
  destruct (not_instruction ch) eqn:Hskip.
  { unfold not_instruction in Hskip.
    repeat (apply andb_prop in Hskip; destruct Hskip as [Hskip ?]).
    destruct (ch =? "[")%char; [done|]. destruct (ch =? "]")%char; [done|].
    left. split; [done|]. by left. }
  destruct (Ascii.eqb_spec ch ">");
    [subst; left; split; [done|]; right; eexists; apply handleIncrementPtr_Inserts|].
  destruct (Ascii.eqb_spec ch "<");
    [subst; left; split; [done|]; right; eexists; apply handleDecrementPtr_Inserts|].
  destruct (Ascii.eqb_spec ch "+");
    [subst; left; split; [done|]; right; eexists; apply handleIncrementByte_Inserts|].
  destruct (Ascii.eqb_spec ch "-");
    [subst; left; split; [done|]; right; eexists; apply handleDecrementByte_Inserts|].
  destruct (Ascii.eqb_spec ch ".");
    [subst; left; split; [done|]; right; eexists; apply handleOutput_Inserts|].
  destruct (Ascii.eqb_spec ch ",");
    [subst; left; split; [done|]; right; eexists; apply handleInput_Inserts|].
  destruct (Ascii.eqb_spec ch "["); [right; left; done|].
  destruct (Ascii.eqb_spec ch "]"); [right; right; done|].
  left. split; [done|]. right. by exists [].
Qed.

(** Across a stretch of source in which no ']' is unmatched, the loop
    stacks below the starting depth are untouched. *)
Lemma generateIR_step_stacks i ch c topS topE baseS baseE :
  m_loopStartBlocks c = (topS ++ baseS)%list →
  m_loopEndBlocks c = (topE ++ baseE)%list →
  length topS = length topE →
  0 ≤ Z.of_nat (length topS) + bracket_delta ch →
  ∃ topS' topE',
    m_loopStartBlocks (generateIR_step i ch c) = (topS' ++ baseS)%list ∧
    m_loopEndBlocks (generateIR_step i ch c) = (topE' ++ baseE)%list ∧
    length topS' = length topE' ∧
    Z.of_nat (length topS') = Z.of_nat (length topS) + bracket_delta ch.
Proof.
  intros Hs He Hlen Hd.
  destruct (generateIR_step_cases i ch c) as [[Hdelta Hstep]|[(Hdelta & _ & ->)|(Hdelta & _ & ->)]];
    rewrite Hdelta in *.
  - exists topS, topE. destruct Hstep as [->|[code ->]].
    + simpl. repeat split; try done. lia.
    + destruct (Inserts_fields code
                  (set_statistics (statistics_incr ch (m_statistics c)) (set_currentIP i c)))
        as (_&_&_&_&_&_&G1&G2&_).
      rewrite G1, G2. simpl. repeat split; try done. lia.
  - destruct (handleLoopStart_fields i
                (set_statistics (statistics_incr ch (m_statistics c)) (set_currentIP i c)))
      as (_&_&_&_&_&_&_&_&_&G1&G2).
    rewrite G1, G2. simpl. rewrite Hs, He.
    eexists (_ :: topS), (_ :: topE). simpl. repeat split; try done; lia.
  - destruct topS as [|h topS]; [simpl in Hd; lia|].
    destruct topE as [|x topE]; [done|].
    rewrite (handleLoopEnd_nonempty i _ h (topS ++ baseS) x (topE ++ baseE))
      by (simpl; by rewrite ?Hs, ?He).
    destruct (Insert_fields (Br h)
                (set_loopBlocks (topS ++ baseS) (topE ++ baseE)
                   (set_statistics (statistics_incr ch (m_statistics c))
                      (set_currentIP i c))))
      as (_&_&_&_&_&_&_&_&G1&G2&_).
    cbn [m_loopStartBlocks m_loopEndBlocks SetInsertPoint set_insertBlock].
    rewrite G1, G2. exists topS, topE. simpl in *. repeat split; try done; lia.
Qed.

Lemma generateIR_loop_stacks source : ∀ i c topS topE baseS baseE,
  m_loopStartBlocks c = (topS ++ baseS)%list →
  m_loopEndBlocks c = (topE ++ baseE)%list →
  length topS = length topE →
  first_unmatched_close source (Z.of_nat (length topS)) = None →
  ∃ topS' topE',
    m_loopStartBlocks (generateIR_loop i source c) = (topS' ++ baseS)%list ∧
    m_loopEndBlocks (generateIR_loop i source c) = (topE' ++ baseE)%list ∧
    length topS' = length topE' ∧
    Z.of_nat (length topS') = Z.of_nat (length topS) + bracket_counter source.
Proof.
  induction source as [|ch rest IH]; intros i c topS topE baseS baseE Hs He Hlen Hnone.
  - exists topS, topE. simpl. repeat split; try done. lia.
  - simpl in Hnone.
    destruct (Z.of_nat (length topS) + bracket_delta ch <? 0) eqn:E; [done|].
    apply Z.ltb_ge in E. apply fmap_None in Hnone.
    destruct (generateIR_step_stacks i ch c topS topE baseS baseE Hs He Hlen E)
      as (topS1 & topE1 & G1 & G2 & G3 & G4).
    rewrite <- G4 in Hnone.
    destruct (IH (S i) _ _ _ _ _ G1 G2 G3 Hnone) as (topS2 & topE2 & K1 & K2 & K3 & K4).
    exists topS2, topE2. simpl. repeat split; try done. lia.
Qed.

Lemma ready_iff c :
  ready c = true ↔
  (∃ b, m_insertBlock c = Some b ∧ (b < length (blocks (m_module c)))%nat) ∧
  m_dataPtr c = Named "dataptr" ∧
  functions (m_module c) !! m_putcharFunc c = Some FnPutchar ∧
  functions (m_module c) !! m_getcharFunc c = Some FnGetchar ∧
  stack_ok c (m_loopStartBlocks c) ∧
  stack_ok c (m_loopEndBlocks c).
Proof.
  unfold ready, stack_ok. rewrite !andb_true_iff, !forallb_forall, !bool_decide_eq_true.
  setoid_rewrite bool_decide_eq_true.
  destruct (m_insertBlock c) as [b|].
  - rewrite bool_decide_eq_true. split.
    + intros (((((?&?)&?)&?)&?)&?). repeat split; eauto.
    + intros ((b' & [= <-] & ?)&?&?&?&?&?). repeat split; eauto.
  - split; [intros (((((?&?)&?)&?)&?)&?); done|].
    intros ((b' & ? & ?)&_). done.
Qed.

Lemma ready_Inserts code c : ready c = true → ready (Inserts code c) = true.
Proof.
  rewrite !ready_iff. unfold stack_ok.
  destruct (Inserts_fields code c) as (_&G1&G2&_&G3&G4&G5&G6&_&G7&G8).
  rewrite G1, G2, G3, G4, G5, G6, G7, G8. done.
Qed.

Lemma ready_handleLoopStart ip c : ready c = true → ready (handleLoopStart ip c) = true.
Proof.
  rewrite !ready_iff. unfold stack_ok.
  destruct (handleLoopStart_fields ip c) as (_&_&G1&G2&G3&_&G4&G5&G6&G7&G8).
  rewrite G1, G2, G3, G4, G5, G6, G7, G8.
  intros ((b & Hb & Hlt) & ? & ? & ? & Hs & He).
  split; [exists (S (length (blocks (m_module c)))); split; [done|lia]|].
  repeat split; try done.
  - intros x [<-|Hx]; [lia|]. specialize (Hs x Hx). lia.
  - intros x [<-|Hx]; [lia|]. specialize (He x Hx). lia.
Qed.

Lemma ready_handleLoopEnd ip c : ready c = true → ready (handleLoopEnd ip c) = true.
Proof.
  intros Hready.
  destruct (m_loopStartBlocks c) as [|h starts] eqn:Es;
    [rewrite handleLoopEnd_empty by (by left); exact Hready|].
  destruct (m_loopEndBlocks c) as [|x ends] eqn:Ee;
    [rewrite handleLoopEnd_empty by (by right); exact Hready|].
  rewrite (handleLoopEnd_nonempty ip c h starts x ends Es Ee).
  revert Hready. rewrite !ready_iff. unfold stack_ok. rewrite Es, Ee.
  destruct (Insert_fields (Br h) (set_loopBlocks starts ends c))
    as (_&_&_&G1&_&_&G2&G3&G4&G5&_&_&G6&G7).
  cbn [m_insertBlock m_dataPtr m_putcharFunc m_getcharFunc m_loopStartBlocks
       m_loopEndBlocks m_module SetInsertPoint set_insertBlock] in *.
  rewrite G1, G2, G3, G4, G5, G6, G7.
  cbn [m_dataPtr m_putcharFunc m_getcharFunc m_loopStartBlocks m_loopEndBlocks m_module
       set_loopBlocks].
  intros ((b & Hb & Hlt) & ? & ? & ? & Hs & He).
  split; [exists x; split; [done|]; apply He; by left|].
  repeat split; try done.
  - intros y Hy. apply Hs. by right.
  - intros y Hy. apply He. by right.
Qed.

Lemma ready_generateIR_step i ch c : ready c = true → ready (generateIR_step i ch c) = true.
Proof.
  intros Hready.
  assert (ready (set_statistics (statistics_incr ch (m_statistics c)) (set_currentIP i c))
          = true) as Hready1 by exact Hready.
  destruct (generateIR_step_cases i ch c)
    as [[_ [->| [code ->]]]|[(_ & _ & ->)|(_ & _ & ->)]].
  - exact Hready.
  - by apply ready_Inserts.
  - by apply ready_handleLoopStart.
  - by apply ready_handleLoopEnd.
Qed.

(** The state in which the handlers are studied is the state of every
    translation, at every character of every source. *)
Lemma ready_generateIR_loop source : ∀ i c,
  ready c = true → ready (generateIR_loop i source c) = true.
Proof.
  induction source as [|ch rest IH]; intros i c Hready; simpl; [done|].
  by apply IH, ready_generateIR_step.
Qed.

Lemma ready_set_currentIP i c : ready (set_currentIP i c) = ready c.
Proof. reflexivity. Qed.

Lemma ready_after_setup N : ready (after_setup N) = true.
Proof. vm_compute. reflexivity. Qed.

Lemma ready_during_translation N source i :
  ready (generateIR_loop 0 (take i (String.list_ascii_of_string source))
           (set_currentIP 0 (after_setup N))) = true.
Proof.
  apply ready_generateIR_loop. rewrite ready_set_currentIP. apply ready_after_setup.
Qed.

Lemma block_instrs_app c fns old new k :
  blocks (m_module c) = old →
  block_instrs (set_module {| functions := fns; blocks := old ++ new |} c) k =
  if decide (k < length old)%nat then block_instrs c k
  else match new !! (k - length old)%nat with
       | Some bb => bb_instrs bb
       | None => []
       end.
Proof.
  intros Hold. unfold block_instrs. cbn [m_module set_module blocks]. rewrite Hold.
  destruct (decide (k < length old)%nat).
  - by rewrite lookup_app_l.
  - by rewrite lookup_app_r by lia.
Qed.

(** The blocks after [handleLoopStart]. *)
Lemma handleLoopStart_blocks ip c b :
  m_insertBlock c = Some b → (b < length (blocks (m_module c)))%nat →
  let n := length (blocks (m_module c)) in
  block_instrs (handleLoopStart ip c) b = (block_instrs c b ++ [Br n])%list ∧
  block_instrs (handleLoopStart ip c) n =
    [Load Int8Ty (m_dataPtr c) "current_ptr";
     Load Int8Ty (Named "current_ptr") "loop_val";
     ICmpEQ (Named "loop_val") (ConstantInt Int8Ty 0) "loop_cond";
     CondBr (Named "loop_cond") (S (S n)) (S n)] ∧
  block_instrs (handleLoopStart ip c) (S n) = [] ∧
  block_instrs (handleLoopStart ip c) (S (S n)) = [].
Proof.
  intros Hb Hlt n. rewrite handleLoopStart_eq. cbv zeta. fold n.
  match goal with
  | |- context [set_module {| functions := _; blocks := (_ ++ ?l)%list |} c] =>
      set (news := l)
  end.
  set (c0 := set_module _ c).
  set (code := [_; _; _; _]).
  change (block_instrs (set_loopBlocks ?x ?y (SetInsertPoint ?z ?w)))
    with (block_instrs w).
  assert (m_insertBlock c0 = Some b) as Hb0 by exact Hb.
  assert (length (blocks (m_module c0)) = (n + 3)%nat) as Hlen0.
  { subst c0. cbn [m_module set_module blocks]. by rewrite length_app. }
  assert (∀ k, block_instrs c0 k =
               if decide (k < n)%nat then block_instrs c k
               else match news !! (k - n)%nat with
                    | Some bb => bb_instrs bb
                    | None => []
                    end) as Hc0.
  { intros k. subst c0. by apply block_instrs_app. }
  destruct (Insert_fields (Br n) c0) as (_&_&Hib&_&_&_&_&_&_&_&_&_&_&Hlen1).
  set (c1 := Insert (Br n) c0) in *.
  assert (m_insertBlock (SetInsertPoint n c1) = Some n) as Hn by reflexivity.
  assert (n < length (blocks (m_module (SetInsertPoint n c1))))%nat as Hnlt.
  { change (n < length (blocks (m_module c1)))%nat. lia. }
  assert (∀ k, block_instrs (SetInsertPoint n c1) k = block_instrs c1 k) as Hsip by done.
  assert (∀ k, k ≠ b → block_instrs c1 k = block_instrs c0 k) as Hne.
  { intros k Hk. subst c1. apply Insert_block_instrs_ne with b; done. }
  split; [|split; [|split]].
  - rewrite (Inserts_block_instrs_ne code _ n b Hn) by lia.
    rewrite Hsip. subst c1. rewrite Insert_block_instrs by (rewrite ?Hlen0; done || lia).
    rewrite Hc0. by rewrite decide_True by done.
  - rewrite (Inserts_block_instrs code _ n Hn Hnlt).
    rewrite Hsip, Hne, Hc0 by lia.
    rewrite decide_False by lia. by rewrite Nat.sub_diag.
  - rewrite (Inserts_block_instrs_ne code _ n (S n) Hn) by lia.
    rewrite Hsip, Hne, Hc0 by lia.
    rewrite decide_False by lia. by replace (S n - n)%nat with 1%nat by lia.
  - rewrite (Inserts_block_instrs_ne code _ n (S (S n)) Hn) by lia.
    rewrite Hsip, Hne, Hc0 by lia.
    rewrite decide_False by lia. by replace (S (S n) - n)%nat with 2%nat by lia.
Qed.

Lemma finished_Insert i c k :
  finished_block c k →
  finished_block (Insert i c) k ∧ block_instrs (Insert i c) k = block_instrs c k.
Proof.
  intros (Hlt & Hib & Hends).
  destruct (Insert_fields i c) as (_&_&G1&_&_&_&_&_&_&G2&_&_&_&G3).
  split.
  - unfold finished_block. by rewrite G1, G2, G3.
  - destruct (m_insertBlock c) as [b|] eqn:E.
    + apply Insert_block_instrs_ne with b; [done|]. by intros ->.
    + unfold Insert. by rewrite E.
Qed.

Lemma finished_Inserts code : ∀ c k,
  finished_block c k →
  finished_block (Inserts code c) k ∧ block_instrs (Inserts code c) k = block_instrs c k.
Proof.
  induction code as [|i code IH]; intros c k Hf; simpl; [done|].
  destruct (finished_Insert i c k Hf) as [Hf1 Hb1].
  destruct (IH _ _ Hf1) as [Hf2 Hb2]. split; [done|]. by rewrite Hb2.
Qed.

Lemma finished_handleLoopStart ip c k :
  finished_block c k →
  finished_block (handleLoopStart ip c) k ∧
  block_instrs (handleLoopStart ip c) k = block_instrs c k.
Proof.
  intros (Hlt & Hib & Hends).
  destruct (handleLoopStart_fields ip c) as (_&_&_&_&_&_&_&G1&G2&_&G3).
  split.
  - unfold finished_block. rewrite G1, G2, G3. split; [lia|]. split.
    + intros [= ?]. lia.
    + intros [?|?]; [lia|done].
  - rewrite handleLoopStart_eq. cbv zeta.
    change (block_instrs (set_loopBlocks ?x ?y (SetInsertPoint ?z ?w)))
      with (block_instrs w).
    set (n := length (blocks (m_module c))) in *.
    set (c0 := set_module _ c).
    assert (finished_block c0 k) as Hf0.
    { unfold finished_block. subst c0. cbn [m_module set_module blocks].
      rewrite length_app. split; [lia|]. done. }
    assert (block_instrs c0 k = block_instrs c k) as Hb0.
    { subst c0. erewrite block_instrs_app by reflexivity. by rewrite decide_True. }
    destruct (finished_Insert (Br n) c0 k Hf0) as [Hf1 Hb1].
    assert (finished_block (SetInsertPoint n (Insert (Br n) c0)) k) as Hf2.
    { destruct Hf1 as (H1 & H2 & H3). split; [exact H1|]. split; [|exact H3].
      cbn. intros [= ?]. lia. }
    destruct (finished_Inserts
                [Load Int8Ty (m_dataPtr c) "current_ptr";
                 Load Int8Ty (Named "current_ptr") "loop_val";
                 ICmpEQ (Named "loop_val") (ConstantInt Int8Ty 0) "loop_cond";
                 CondBr (Named "loop_cond") (S (S n)) (S n)] _ k Hf2) as [_ Hb3].
    rewrite Hb3.
    change (block_instrs (SetInsertPoint n (Insert (Br n) c0)) k)
      with (block_instrs (Insert (Br n) c0) k).
    by rewrite Hb1, Hb0.
Qed.

Lemma finished_handleLoopEnd ip c k :
  finished_block c k →
  finished_block (handleLoopEnd ip c) k ∧
  block_instrs (handleLoopEnd ip c) k = block_instrs c k.
Proof.
  intros Hf.
  destruct (m_loopStartBlocks c) as [|h starts] eqn:Es;
    [rewrite handleLoopEnd_empty by (by left); done|].
  destruct (m_loopEndBlocks c) as [|x ends] eqn:Ee;
    [rewrite handleLoopEnd_empty by (by right); done|].
  rewrite (handleLoopEnd_nonempty ip c h starts x ends Es Ee).
  destruct Hf as (Hlt & Hib & Hends). rewrite Ee in Hends.
  assert (finished_block (set_loopBlocks starts ends c) k) as Hf0.
  { split; [exact Hlt|]. split; [exact Hib|]. cbn. intros ?. apply Hends. by right. }
  destruct (finished_Insert (Br h) _ k Hf0) as [(H1 & H2 & H3) Hb1].
  split.
  - split; [exact H1|]. split; [|exact H3].
    cbn. intros [= ->]. apply Hends. by left.
  - change (block_instrs (SetInsertPoint ?z ?w)) with (block_instrs w).
    by rewrite Hb1.
Qed.

Lemma finished_generateIR_loop source : ∀ i c k,
  finished_block c k →
  finished_block (generateIR_loop i source c) k ∧
  block_instrs (generateIR_loop i source c) k = block_instrs c k.
Proof.
  induction source as [|ch rest IH]; intros i c k Hf; simpl; [done|].
  assert (finished_block (generateIR_step i ch c) k ∧
          block_instrs (generateIR_step i ch c) k = block_instrs c k) as [Hf1 Hb1].
  { assert (finished_block
              (set_statistics (statistics_incr ch (m_statistics c)) (set_currentIP i c)) k)
      as Hf' by exact Hf.
    change (block_instrs c k)
      with (block_instrs
              (set_statistics (statistics_incr ch (m_statistics c)) (set_currentIP i c)) k).
    destruct (generateIR_step_cases i ch c)
      as [[_ [->| [code ->]]]|[(_ & _ & ->)|(_ & _ & ->)]].
    - done.
    - by apply finished_Inserts.
    - by apply finished_handleLoopStart.
    - by apply finished_handleLoopEnd. }
  destruct (IH (S i) _ k Hf1) as [Hf2 Hb2]. split; [done|]. by rewrite Hb2.
Qed.

Lemma jumps_to_Insert i c k t :
  jumps_to (Insert i c) k t →
  jumps_to c k t ∨ (m_insertBlock c = Some k ∧ In t (branch_targets i)).
Proof.
  intros (x & Hx & Ht). unfold Insert, block_instrs in *.
  destruct (m_insertBlock c) as [b|] eqn:Hb; [|left; by exists x].
  cbn [m_module set_module blocks] in Hx.
  rewrite list_lookup_alter in Hx.
  destruct (decide (b = k)) as [->|Hne]; [|left; by exists x].
  destruct (blocks (m_module c) !! k) as [bb|] eqn:Hbb; simpl in Hx; [|done].
  apply in_app_or in Hx as [Hx|[<-|[]]].
  - left. exists x. unfold block_instrs. by rewrite Hbb.
  - right. done.
Qed.

Lemma jumps_to_Inserts code : ∀ c k t,
  jumps_to (Inserts code c) k t →
  jumps_to c k t ∨ (m_insertBlock c = Some k ∧ ∃ i, In i code ∧ In t (branch_targets i)).
Proof.
  induction code as [|i code IH]; intros c k t H; simpl in H; [by left|].
  apply IH in H as [H|(Hb & x & Hx & Ht)].
  - apply jumps_to_Insert in H as [H|[Hb Ht]]; [by left|].
    right. split; [done|]. exists i. split; [by left|done].
  - right. destruct (Insert_fields i c) as (_&_&G&_). rewrite G in Hb.
    split; [done|]. exists x. split; [by right|done].
Qed.

Lemma jumps_to_handleLoopStart ip c k t :
  let n := length (blocks (m_module c)) in
  jumps_to (handleLoopStart ip c) k t →
  jumps_to c k t ∨
  (m_insertBlock c = Some k ∧ t = n) ∨
  (k = n ∧ (t = S (S n) ∨ t = S n)).
Proof.
  intros n. rewrite handleLoopStart_eq. cbv zeta. fold n.
  match goal with
  | |- context [set_module {| functions := _; blocks := (_ ++ ?l)%list |} c] =>
      set (news := l)
  end.
  set (c0 := set_module _ c).
  set (code := [_; _; _; _]).
  change (jumps_to (set_loopBlocks ?x ?y (SetInsertPoint ?z ?w)) k t)
    with (jumps_to w k t).
  intros H. apply jumps_to_Inserts in H as [H|(Hb & x & Hx & Ht)].
  - change (jumps_to (Insert (Br n) c0) k t) in H.
    apply jumps_to_Insert in H as [(x & Hx & Ht)|[Hb Ht]].
    + left. exists x. split; [|done].
      subst c0. erewrite block_instrs_app in Hx by reflexivity.
      destruct (decide (k < length (blocks (m_module c)))%nat); [done|].
      fold n in Hx.
      destruct (k - n)%nat as [|[|[|?]]]; simpl in Hx; done.
    + right. left. split; [exact Hb|]. simpl in Ht. by destruct Ht.
  - right. right. injection Hb as <-. split; [done|].
    subst code. simpl in Hx.
    destruct Hx as [<-|[<-|[<-|[<-|[]]]]]; simpl in Ht; try done.
    destruct Ht as [<-|[<-|[]]]; auto.
Qed.

Lemma jumps_to_handleLoopEnd ip c k t :
  jumps_to (handleLoopEnd ip c) k t →
  jumps_to c k t ∨ In t (m_loopStartBlocks c).
Proof.
  destruct (m_loopStartBlocks c) as [|h starts] eqn:Es;
    [rewrite handleLoopEnd_empty by (by left); by left|].
  destruct (m_loopEndBlocks c) as [|x ends] eqn:Ee;
    [rewrite handleLoopEnd_empty by (by right); by left|].
  rewrite (handleLoopEnd_nonempty ip c h starts x ends Es Ee).
  change (jumps_to (SetInsertPoint ?z ?w) k t) with (jumps_to w k t).
  intros H. apply jumps_to_Insert in H as [H|[_ Ht]].
  - by left.
  - right. simpl in Ht. destruct Ht as [<-|[]]. by left.
Qed.

(** The code of the six instructions outside the loop delimiters has no
    branch. *)
Lemma generateIR_step_simple i ch c :
  bracket_delta ch = 0 →
  generateIR_step i ch c = set_currentIP i c ∨
  ∃ code, generateIR_step i ch c =
            Inserts code
              (set_statistics (statistics_incr ch (m_statistics c)) (set_currentIP i c)) ∧
          ∀ x, In x code → branch_targets x = [].
Proof.
  intros Hdelta. unfold generateIR_step, bracket_delta in *.
  destruct (not_instruction ch) eqn:Hskip; [by left|]. right.
  set (c1 := set_statistics _ _).
  assert (∀ code : list Instruction,
            Forall (λ x, branch_targets x = []) code →
            ∀ x, In x code → branch_targets x = []) as Hall.
  { intros code H x Hx. rewrite Forall_forall in H. apply H. by apply list_elem_of_In. }
  destruct (Ascii.eqb_spec ch ">");
    [eexists; split; [apply handleIncrementPtr_Inserts|apply Hall; repeat constructor]|].
  destruct (Ascii.eqb_spec ch "<");
    [eexists; split; [apply handleDecrementPtr_Inserts|apply Hall; repeat constructor]|].
  destruct (Ascii.eqb_spec ch "+");
    [eexists; split; [apply handleIncrementByte_Inserts|apply Hall; repeat constructor]|].
  destruct (Ascii.eqb_spec ch "-");
    [eexists; split; [apply handleDecrementByte_Inserts|apply Hall; repeat constructor]|].
  destruct (Ascii.eqb_spec ch ".");
    [eexists; split; [apply handleOutput_Inserts|apply Hall; repeat constructor]|].
  destruct (Ascii.eqb_spec ch ",");
    [eexists; split; [apply handleInput_Inserts|apply Hall; repeat constructor]|].
  destruct (Ascii.eqb_spec ch "["); [done|].
  destruct (Ascii.eqb_spec ch "]"); [done|].
  exists []. split; [done|]. intros x [].
Qed.

(** What one character adds: branches to blocks on the stack of loop
    headers, or to blocks that this very step creates. *)
Lemma jumps_to_generateIR_step i ch c k t :
  jumps_to (generateIR_step i ch c) k t →
  jumps_to c k t ∨
  In t (m_loopStartBlocks c) ∨
  (length (blocks (m_module c)) ≤ t < length (blocks (m_module (generateIR_step i ch c))))%nat.
Proof.
  set (c1 := set_statistics (statistics_incr ch (m_statistics c)) (set_currentIP i c)).
  assert (∀ k t, jumps_to c1 k t ↔ jumps_to c k t) as Hc1 by done.
  destruct (generateIR_step_cases i ch c)
    as [[Hdelta _]|[(_ & _ & Heq)|(_ & _ & Heq)]].
  - destruct (generateIR_step_simple i ch c Hdelta) as [->|(code & -> & Hcode)].
    + intros H. by left.
    + intros H. apply jumps_to_Inserts in H as [H|(_ & x & Hx & Ht)]; [by left|].
      rewrite (Hcode x Hx) in Ht. done.
  - rewrite Heq. fold c1. intros H.
    destruct (handleLoopStart_fields i c1) as (_&_&_&_&_&_&_&G&_).
    rewrite G.
    apply jumps_to_handleLoopStart in H as [H|[[_ ->]|[-> [->| ->]]]].
    + left. by apply Hc1.
    + right. right. change (length (blocks (m_module c1))) with (length (blocks (m_module c))). lia.
    + right. right. change (length (blocks (m_module c1))) with (length (blocks (m_module c))). lia.
    + right. right. change (length (blocks (m_module c1))) with (length (blocks (m_module c))). lia.
  - rewrite Heq. fold c1. intros H.
    apply jumps_to_handleLoopEnd in H as [H|H]; [left; by apply Hc1|].
    right. left. exact H.
Qed.

Lemma entered_only_from_Inserts code c header body :
  (∀ x, In x code → branch_targets x = []) →
  entered_only_from c header body →
  entered_only_from (Inserts code c) header body.
Proof.
  intros Hcode (Hlt & Hstarts & Hjumps).
  destruct (Inserts_fields code c) as (_&_&_&_&_&_&G1&_&_&_&G2).
  split; [by rewrite G2|]. split; [by rewrite G1|].
  intros k H. apply jumps_to_Inserts in H as [H|(_ & x & Hx & Ht)]; [by apply Hjumps|].
  by rewrite (Hcode x Hx) in Ht.
Qed.

Lemma entered_only_from_handleLoopStart ip c header body :
  entered_only_from c header body →
  entered_only_from (handleLoopStart ip c) header body.
Proof.
  intros (Hlt & Hstarts & Hjumps).
  destruct (handleLoopStart_fields ip c) as (_&_&_&_&_&_&_&G1&_&G2&_).
  split; [rewrite G1; lia|]. split.
  - rewrite G2. intros [?|?]; [lia|done].
  - intros k H. apply jumps_to_handleLoopStart in H as [H|[[_ ?]|[_ [?|?]]]];
      [by apply Hjumps|lia..].
Qed.

Lemma entered_only_from_handleLoopEnd ip c header body :
  entered_only_from c header body →
  entered_only_from (handleLoopEnd ip c) header body.
Proof.
  intros (Hlt & Hstarts & Hjumps).
  destruct (handleLoopEnd_fields ip c) as (_&_&_&_&_&_&G1).
  split; [by rewrite G1|]. split.
  - destruct (m_loopStartBlocks c) as [|h starts] eqn:Es;
      [rewrite handleLoopEnd_empty by (by left); simpl; by rewrite Es|].
    destruct (m_loopEndBlocks c) as [|x ends] eqn:Ee;
      [rewrite handleLoopEnd_empty by (by right); simpl; by rewrite Es|].
    rewrite (handleLoopEnd_nonempty ip c h starts x ends Es Ee).
    destruct (Insert_fields (Br h) (set_loopBlocks starts ends c))
      as (_&_&_&_&_&_&_&_&G2&_).
    cbn [m_loopStartBlocks SetInsertPoint set_insertBlock]. rewrite G2. simpl.
    intros ?. apply Hstarts. by right.
  - intros k H. apply jumps_to_handleLoopEnd in H as [H|H]; [by apply Hjumps|done].
Qed.

Lemma entered_only_from_generateIR_loop source : ∀ i c header body,
  entered_only_from c header body →
  entered_only_from (generateIR_loop i source c) header body.
Proof.
  induction source as [|ch rest IH]; intros i c header body H; simpl; [done|].
  apply IH.
  assert (entered_only_from
            (set_statistics (statistics_incr ch (m_statistics c)) (set_currentIP i c))
            header body) as H1 by exact H.
  destruct (generateIR_step_cases i ch c)
    as [[Hdelta _]|[(_ & _ & ->)|(_ & _ & ->)]].
  - destruct (generateIR_step_simple i ch c Hdelta) as [->|(code & -> & Hcode)].
    + exact H.
    + by apply entered_only_from_Inserts.
  - by apply entered_only_from_handleLoopStart.
  - by apply entered_only_from_handleLoopEnd.
Qed.

Lemma length_blocks_generateIR_step i ch c :
  (length (blocks (m_module c)) ≤ length (blocks (m_module (generateIR_step i ch c))))%nat.
Proof.
  set (c1 := set_statistics (statistics_incr ch (m_statistics c)) (set_currentIP i c)).
  change (length (blocks (m_module c1))
          ≤ length (blocks (m_module (generateIR_step i ch c))))%nat.
  destruct (generateIR_step_cases i ch c)
    as [[_ [->|[code ->]]]|[(_ & _ & ->)|(_ & _ & ->)]]; fold c1.
  - done.
  - destruct (Inserts_fields code c1) as (_&_&_&_&_&_&_&_&_&_&G). by rewrite G.
  - destruct (handleLoopStart_fields i c1) as (_&_&_&_&_&_&_&G&_). rewrite G. lia.
  - destruct (handleLoopEnd_fields i c1) as (_&_&_&_&_&_&G). by rewrite G.
Qed.

Lemma well_targeted_generateIR_step i ch c :
  ready c = true → well_targeted c → well_targeted (generateIR_step i ch c).
Proof.
  intros Hready Hwt k t H.
  pose proof (length_blocks_generateIR_step i ch c) as Hlen.
  apply ready_iff in Hready as (_ & _ & _ & _ & Hstarts & _).
  apply jumps_to_generateIR_step in H as [H|[H|H]].
  - specialize (Hwt k t H). lia.
  - specialize (Hstarts t H). lia.
  - lia.
Qed.

Lemma well_targeted_generateIR_loop source : ∀ i c,
  ready c = true → well_targeted c → well_targeted (generateIR_loop i source c).
Proof.
  induction source as [|ch rest IH]; intros i c Hready Hwt; simpl; [done|].
  apply IH; [by apply ready_generateIR_step|by apply well_targeted_generateIR_step].
Qed.

Lemma well_targeted_after_setup N : well_targeted (after_setup N).
Proof.
  intros k t (x & Hx & Ht). exfalso.
  assert (block_instrs (after_setup N) k =
          match k with
          | O => block_instrs (after_setup N) 0
          | S _ => []
          end) as Hk by (destruct k; reflexivity).
  destruct k as [|k]; [|by rewrite Hk in Hx].
  assert (block_instrs (after_setup N) 0 =
          emitted allocateMemory (createMainFunction (BrainfuckCompiler_new N))) as H0
    by (vm_compute; reflexivity).
  rewrite H0, emitted_allocateMemory in Hx. simpl in Hx.
  destruct Hx as [<-|[<-|[<-|[<-|[<-|[<-|[]]]]]]]; done.
Qed.

(** In the state after a '[', the body block is entered from the loop
    header only. *)
Lemma entered_only_from_loop_start ip c :
  ready c = true → well_targeted c →
  entered_only_from (handleLoopStart ip c)
    (length (blocks (m_module c))) (S (length (blocks (m_module c)))).
Proof.
  intros Hready Hwt.
  apply ready_iff in Hready as (_ & _ & _ & _ & Hstarts & _).
  destruct (handleLoopStart_fields ip c) as (_&_&_&_&_&_&_&G1&_&G2&_).
  split; [rewrite G1; lia|]. split.
  - rewrite G2. intros [?|Hin]; [lia|]. specialize (Hstarts _ Hin). lia.
  - intros k H. apply jumps_to_handleLoopStart in H as [H|[[_ ?]|[-> _]]].
    + specialize (Hwt _ _ H). lia.
    + lia.
    + done.
Qed.

Lemma well_targeted_set_currentIP i c :
  well_targeted c → well_targeted (set_currentIP i c).
Proof. intros H. exact H. Qed.

(** The two conditions on the compiler hold at every character of every
    translation. *)
Lemma state_during_translation N source i :
  let c := generateIR_loop 0 (take i (String.list_ascii_of_string source))
             (set_currentIP 0 (after_setup N)) in
  ready c = true ∧ well_targeted c.
Proof.
  split; [apply ready_during_translation|].
  apply well_targeted_generateIR_loop.
  - rewrite ready_set_currentIP. apply ready_after_setup.
  - apply well_targeted_set_currentIP, well_targeted_after_setup.
Qed.

(** ** The command line *)

Lemma parseCommandLine_loop_app (before : list string) :
  ∀ (after : list string) (o o' : CommandLineOptions),
  parseCommandLine_loop before o = inr o' →
  parseCommandLine_loop (before ++ after) o = parseCommandLine_loop after o'.
Proof.
  assert (∀ n (before : list string), (length before ≤ n)%nat →
          ∀ (after : list string) (o o' : CommandLineOptions),
            parseCommandLine_loop before o = inr o' →
            parseCommandLine_loop (before ++ after) o = parseCommandLine_loop after o')
    as H; [|by apply (H (length before))].
  clear before. induction n as [|n IH]; intros before Hlen after o o'.
  { destruct before; [|simpl in Hlen; lia]. by intros [= ->]. }
  destruct before as [|arg rest]; [by intros [= ->]|].
  simpl in Hlen. cbn [parseCommandLine_loop app].
  repeat match goal with
  | |- context [if ?b then _ else _] => destruct b
  end;
  try (destruct rest as [|value rest]; [done|]; cbn [app];
       try destruct (stoul value); try done);
  try done;
  apply IH; simpl in *; lia.
Qed.

Lemma pretty_N_char_digit (d : N) :
  (d < 10)%N →
  isdigit (pretty_N_char d) = true ∧ digit_value (pretty_N_char d) = Z.of_N d.
Proof.
  intros Hd.
  assert (d = 0 ∨ d = 1 ∨ d = 2 ∨ d = 3 ∨ d = 4 ∨ d = 5 ∨ d = 6 ∨ d = 7 ∨ d = 8 ∨ d = 9)%N
    as H by lia.
  repeat (destruct H as [->|H]; [by vm_compute|]). subst. by vm_compute.
Qed.

Lemma pretty_N_go_app (x : N) : ∀ s rest,
  pretty_N_go x s +:+ rest = pretty_N_go x (s +:+ rest).
Proof.
  induction (N.lt_wf_0 x) as [x _ IH]; intros s rest.
  destruct (decide (x = 0)%N) as [->|Hx]; [by rewrite !pretty_N_go_0|].
  rewrite (pretty_N_go_step x s), (pretty_N_go_step x (s +:+ rest)) by lia.
  rewrite IH by (apply N.div_lt; lia). done.
Qed.

Lemma strtoul_digits_pretty_N_go (x : N) : ∀ s,
  strtoul_digits (String.list_ascii_of_string (pretty_N_go x s)) 0
  = strtoul_digits (String.list_ascii_of_string s) (Z.of_N x).
Proof.
  induction (N.lt_wf_0 x) as [x _ IH]; intros s.
  destruct (decide (x = 0)%N) as [->|Hx]; [by rewrite pretty_N_go_0|].
  rewrite pretty_N_go_step by lia.
  rewrite IH by (apply N.div_lt; lia).
  destruct (pretty_N_char_digit (x `mod` 10)) as [Hd Hv]; [by apply N.mod_lt|].
  cbn [String.list_ascii_of_string strtoul_digits]. rewrite Hd, Hv. f_equal.
  rewrite (N.div_mod x 10) at 3 by done. lia.
Qed.

Lemma pretty_N_go_head (x : N) : ∀ s,
  (0 < x)%N →
  ∃ c t, String.list_ascii_of_string (pretty_N_go x s) = c :: t ∧ isdigit c = true.
Proof.
  induction (N.lt_wf_0 x) as [x _ IH]; intros s Hx.
  rewrite pretty_N_go_step by done.
  destruct (decide (x `div` 10 = 0)%N) as [->|Hq].
  - rewrite pretty_N_go_0. eexists _, _. split; [done|].
    apply pretty_N_char_digit. by apply N.mod_lt.
  - apply IH; [apply N.div_lt; lia|]. by apply N.neq_0_lt_0.
Qed.

Lemma strtoul_digits_stop (s : string) (acc : Z) :
  no_leading_digit s → strtoul_digits (String.list_ascii_of_string s) acc = acc.
Proof.
  unfold no_leading_digit. destruct (String.list_ascii_of_string s); simpl; [done|].
  by intros ->.
Qed.

(** The numeral of [n] followed by [rest]: its first character is a
    digit and the digits read from it make up [n]. *)
Lemma pretty_N_numeral (n : N) (rest : string) :
  no_leading_digit rest →
  ∃ c t, String.list_ascii_of_string (pretty n +:+ rest) = c :: t ∧
         isdigit c = true ∧ strtoul_digits (c :: t) 0 = Z.of_N n.
Proof.
  intros Hrest. unfold pretty, pretty_N.
  destruct (decide (n = 0)%N) as [->|Hn].
  - exists "0"%char, (String.list_ascii_of_string rest).
    split; [done|]. split; [done|].
    cbn [strtoul_digits]. change (isdigit "0") with true. cbv iota.
    by rewrite strtoul_digits_stop.
  - rewrite pretty_N_go_app. cbn [String.append].
    destruct (pretty_N_go_head n rest) as (c & t & Heq & Hc); [lia|].
    exists c, t. split; [done|]. split; [done|].
    rewrite <- Heq, strtoul_digits_pretty_N_go. by apply strtoul_digits_stop.
Qed.

Lemma isdigit_not_space_or_sign (c : ascii) :
  isdigit c = true →
  isspace c = false ∧ (c =? "-")%char = false ∧ (c =? "+")%char = false.
Proof.
  destruct c as [[] [] [] [] [] [] [] []]; vm_compute; intros; done.
Qed.

Lemma stoul_numeral (n : N) (rest : string) :
  no_leading_digit rest →
  stoul (pretty n +:+ rest)
  = if (n <? 2 ^ 64)%N then inr (Z.of_N n) else inl OutOfRange.
Proof.
  intros Hrest. destruct (pretty_N_numeral n rest Hrest) as (c & t & Heq & Hc & Hv).
  destruct (isdigit_not_space_or_sign c Hc) as (Hs & Hm & Hp).
  unfold stoul. rewrite Heq. cbn [skip_space]. rewrite Hs, Hm, Hp, Hc. cbv zeta.
  rewrite Hv. unfold ULONG_MAX.
  destruct (n <? 2 ^ 64)%N eqn:E.
  - apply N.ltb_lt in E. destruct (2 ^ 64 - 1 <? Z.of_N n) eqn:E'; [|done].
    apply Z.ltb_lt in E'. lia.
  - apply N.ltb_ge in E. destruct (2 ^ 64 - 1 <? Z.of_N n) eqn:E'; [done|].
    apply Z.ltb_ge in E'. lia.
Qed.

Lemma stoul_negative_numeral (n : N) (rest : string) :
  no_leading_digit rest →
  stoul ("-" +:+ pretty n +:+ rest)
  = if (n <? 2 ^ 64)%N then inr ((- Z.of_N n) mod 2 ^ 64) else inl OutOfRange.
Proof.
  intros Hrest. destruct (pretty_N_numeral n rest Hrest) as (c & t & Heq & Hc & Hv).
  unfold stoul.
  change (String.list_ascii_of_string ("-" +:+ pretty n +:+ rest))
    with ("-"%char :: String.list_ascii_of_string (pretty n +:+ rest)).
  rewrite Heq.
  cbn [skip_space]. change (isspace "-") with false. cbv iota.
  change ("-" =? "-")%char with true. cbv iota. rewrite Hc. cbv zeta.
  rewrite Hv. unfold ULONG_MAX.
  destruct (n <? 2 ^ 64)%N eqn:E.
  - apply N.ltb_lt in E. destruct (2 ^ 64 - 1 <? Z.of_N n) eqn:E'; [|done].
    apply Z.ltb_lt in E'. lia.
  - apply N.ltb_ge in E. destruct (2 ^ 64 - 1 <? Z.of_N n) eqn:E'; [done|].
    apply Z.ltb_ge in E'. lia.
Qed.

Lemma parseCommandLine_loop_unknown (arg : string) (rest : list string)
    (o : CommandLineOptions) :
  arg ∉ known_options →
  parseCommandLine_loop (arg :: rest) o = inl (UnknownOption arg).
Proof.
  intros Hnot. cbn [parseCommandLine_loop].
  repeat match goal with
  | |- context [(arg =? ?s)%string] =>
      let E := fresh in
      destruct (arg =? s)%string eqn:E;
      [apply String.eqb_eq in E; subst arg; exfalso; apply Hnot;
       unfold known_options; set_solver|]
  end.
  reflexivity.
Qed.

(** X1.  The command line is processed from left to right.  When the
    arguments [before] are accepted and leave the options [o'], the
    arguments after them are processed from [o'] on.  So a later [-i] or
    [-o] replaces an earlier one, whatever the argument after it looks
    like; an option that takes a value is an error at the very end of
    the command line; and an argument in option position that is no
    known option is an error, whatever follows it. *)
Theorem parseCommandLine_processes_left_to_right
    (before after : list string) (o o' : CommandLineOptions) :
  parseCommandLine_loop before o = inr o' →
  parseCommandLine_loop (before ++ after) o = parseCommandLine_loop after o' ∧
  (∀ file, parseCommandLine_loop (before ++ ["-i"; file]) o = inr (set_inputFile file o')) ∧
  (∀ file, parseCommandLine_loop (before ++ ["-o"; file]) o = inr (set_outputFile file o')) ∧
  parseCommandLine_loop (before ++ ["-i"]) o = inl MissingInputFileName ∧
  parseCommandLine_loop (before ++ ["-o"]) o = inl MissingOutputFileName ∧
  parseCommandLine_loop (before ++ ["-m"]) o = inl MissingMemorySize ∧
  (∀ arg, arg ∉ known_options →
          parseCommandLine_loop (before ++ arg :: after) o = inl (UnknownOption arg)).
Proof.
  intros H.
  split; [by apply parseCommandLine_loop_app|].
  repeat split; intros; rewrite (parseCommandLine_loop_app _ _ _ _ H); try reflexivity.
  by apply parseCommandLine_loop_unknown.
Qed.

Lemma parseCommandLine_left_to_right_witness :
  parseCommandLine_loop ["-i"; "a.bf"; "-j"] CommandLineOptions_default
    = inr (set_enableJIT true (set_inputFile "a.bf" CommandLineOptions_default)) ∧
  parseCommandLine_loop (["-i"; "a.bf"; "-j"] ++ ["-i"; "-h"]) CommandLineOptions_default
    = inr (set_inputFile "-h"
             (set_enableJIT true (set_inputFile "a.bf" CommandLineOptions_default))).
Proof.
  split; [reflexivity|].
  exact (proj1 (proj2
    (parseCommandLine_processes_left_to_right ["-i"; "a.bf"; "-j"] [] _ _ eq_refl)) "-h").
Defined.

(** X2.  [-m] takes the decimal numeral at the start of its argument and
    ignores what follows the digits.  A numeral of 2^64 or more is
    refused with [std::out_of_range]; a numeral with a minus sign is
    accepted and taken modulo 2^64, so [-m -1] asks for 2^64 - 1
    cells. *)
Theorem parseCommandLine_memory_size
    (n : N) (rest : string) (args : list string) (o : CommandLineOptions) :
  no_leading_digit rest →
  parseCommandLine_loop ("-m" :: (pretty n +:+ rest) :: args) o =
    (if (n <? 2 ^ 64)%N
     then parseCommandLine_loop args (set_memorySize (Z.of_N n) o)
     else inl OutOfRange) ∧
  parseCommandLine_loop ("--memory" :: ("-" +:+ pretty n +:+ rest) :: args) o =
    (if (n <? 2 ^ 64)%N
     then parseCommandLine_loop args (set_memorySize ((- Z.of_N n) mod 2 ^ 64) o)
     else inl OutOfRange).
Proof.
  intros Hrest. split.
  - change (parseCommandLine_loop ("-m" :: (pretty n +:+ rest) :: args) o)
      with (match stoul (pretty n +:+ rest) with
            | inr n => parseCommandLine_loop args (set_memorySize n o)
            | inl e => inl e
            end).
    rewrite stoul_numeral by done. by destruct (n <? 2 ^ 64)%N.
  - change (parseCommandLine_loop ("--memory" :: ("-" +:+ pretty n +:+ rest) :: args) o)
      with (match stoul ("-" +:+ pretty n +:+ rest) with
            | inr n => parseCommandLine_loop args (set_memorySize n o)
            | inl e => inl e
            end).
    rewrite stoul_negative_numeral by done. by destruct (n <? 2 ^ 64)%N.
Qed.

Lemma parseCommandLine_memory_size_witness :
  no_leading_digit "k" ∧
  parseCommandLine ["-m"; "100k"] = inr (set_memorySize 100 CommandLineOptions_default) ∧
  parseCommandLine ["--memory"; "-1"]
    = inr (set_memorySize 18446744073709551615 CommandLineOptions_default).
Proof.
  split; [reflexivity|]. split.
  - exact (proj1 (parseCommandLine_memory_size 100 "k" [] CommandLineOptions_default
                    eq_refl)).
  - exact (proj2 (parseCommandLine_memory_size 1 "" [] CommandLineOptions_default I)).
Defined.

(** ** The result of [compile] *)

Lemma settings_Insert i c : settings (Insert i c) = settings c.
Proof. unfold Insert. by destruct (m_insertBlock c). Qed.

Lemma settings_Inserts code : ∀ c, settings (Inserts code c) = settings c.
Proof.
  induction code as [|i code IH]; intros c; [done|].
  change (Inserts (i :: code) c) with (Inserts code (Insert i c)).
  by rewrite IH, settings_Insert.
Qed.

Lemma settings_handleLoopStart ip c : settings (handleLoopStart ip c) = settings c.
Proof.
  rewrite handleLoopStart_eq. cbv zeta.
  set (n := length (blocks (m_module c))).
  set (c0 := set_module _ c).
  set (code := [_; _; _; _]).
  pose proof (settings_Inserts code (SetInsertPoint n (Insert (Br n) c0))) as H1.
  pose proof (settings_Insert (Br n) c0) as H2.
  unfold settings in *.
  cbn [m_memorySize m_enableOptimization m_enableDebugInfo
       set_loopBlocks SetInsertPoint set_insertBlock] in *.
  rewrite H1, H2. reflexivity.
Qed.

Lemma settings_handleLoopEnd ip c : settings (handleLoopEnd ip c) = settings c.
Proof.
  unfold handleLoopEnd, CreateBr.
  destruct (m_loopStartBlocks c) as [|h starts], (m_loopEndBlocks c) as [|e ends];
    try reflexivity.
  pose proof (settings_Insert (Br h) (set_loopBlocks starts ends c)) as H.
  unfold settings in *.
  cbn [m_memorySize m_enableOptimization m_enableDebugInfo
       set_loopBlocks SetInsertPoint set_insertBlock] in *.
  by rewrite H.
Qed.

Lemma settings_generateIR_step i ch c : settings (generateIR_step i ch c) = settings c.
Proof.
  unfold generateIR_step.
  destruct (not_instruction ch); [reflexivity|].
  set (c1 := set_statistics _ _).
  change (settings c) with (settings c1). clearbody c1.
  destruct (ch =? ">")%char; [by rewrite handleIncrementPtr_Inserts, settings_Inserts|].
  destruct (ch =? "<")%char; [by rewrite handleDecrementPtr_Inserts, settings_Inserts|].
  destruct (ch =? "+")%char; [by rewrite handleIncrementByte_Inserts, settings_Inserts|].
  destruct (ch =? "-")%char; [by rewrite handleDecrementByte_Inserts, settings_Inserts|].
  destruct (ch =? ".")%char; [by rewrite handleOutput_Inserts, settings_Inserts|].
  destruct (ch =? ",")%char; [by rewrite handleInput_Inserts, settings_Inserts|].
  destruct (ch =? "[")%char; [apply settings_handleLoopStart|].
  destruct (ch =? "]")%char; [apply settings_handleLoopEnd|].
  reflexivity.
Qed.

Lemma settings_generateIR_loop source : ∀ i c,
  settings (generateIR_loop i source c) = settings c.
Proof.
  induction source as [|ch rest IH]; intros i c; simpl; [done|].
  by rewrite IH, settings_generateIR_step.
Qed.

Lemma settings_generateIR source c : settings (generateIR source c) = settings c.
Proof.
  unfold generateIR, CreateRet. by rewrite settings_Insert, settings_generateIR_loop.
Qed.

Ltac fields_cbn :=
  cbn [m_module set_module blocks functions m_mainFunction set_mainFunction m_insertBlock
       set_insertBlock m_memoryArray set_memoryArray m_dataPtr set_dataPtr
       m_putcharFunc set_putcharFunc m_getcharFunc set_getcharFunc set_diBuilder
       m_memorySize m_enableOptimization m_enableDebugInfo m_statistics m_diBuilder
       m_loopStartBlocks m_loopEndBlocks m_currentIP cerr fst snd settings].

Lemma createMainFunction_fields c :
  settings (createMainFunction c) = settings c ∧
  m_statistics (createMainFunction c) = m_statistics c ∧
  cerr (createMainFunction c) = cerr c ∧
  m_loopStartBlocks (createMainFunction c) = m_loopStartBlocks c ∧
  m_loopEndBlocks (createMainFunction c) = m_loopEndBlocks c.
Proof.
  destruct c as [sz opt dbg stats [fns blks] ib di ma dp mf pf gf starts ends cip err].
  repeat split; reflexivity.
Qed.

Lemma getOrInsertDeclaration_fields name c :
  settings (snd (getOrInsertDeclaration name c)) = settings c ∧
  m_statistics (snd (getOrInsertDeclaration name c)) = m_statistics c ∧
  cerr (snd (getOrInsertDeclaration name c)) = cerr c ∧
  m_loopStartBlocks (snd (getOrInsertDeclaration name c)) = m_loopStartBlocks c ∧
  m_loopEndBlocks (snd (getOrInsertDeclaration name c)) = m_loopEndBlocks c ∧
  m_memorySize (snd (getOrInsertDeclaration name c)) = m_memorySize c.
Proof.
  unfold getOrInsertDeclaration.
  destruct (list_find _ _) as [[k f]|]; repeat split; reflexivity.
Qed.

Lemma allocateMemory_fields c :
  settings (allocateMemory c) = settings c ∧
  m_statistics (allocateMemory c) = m_statistics c ∧
  cerr (allocateMemory c) = cerr c ∧
  m_loopStartBlocks (allocateMemory c) = m_loopStartBlocks c ∧
  m_loopEndBlocks (allocateMemory c) = m_loopEndBlocks c.
Proof.
  unfold allocateMemory, CreateAlloca, CreateBitCast, CreateCall, CreateInBoundsGEP,
    CreateStore.
  set (c1 := set_memoryArray _ (Insert _ c)).
  destruct (getOrInsertDeclaration_fields FnMemset c1) as (G1 & G2 & G3 & G4 & G5 & _).
  destruct (getOrInsertDeclaration FnMemset c1) as [memsetFunc c2].
  cbn [snd] in *.
  set (c3 := Insert (BitCast _ _ _) c2).
  set (c4 := Insert (Call _ _ _) c3).
  set (c5 := set_dataPtr _ (Insert _ c4)).
  set (c6 := Insert (InBoundsGEP _ _ _ _) c5).
  assert (∀ i c, settings (Insert i c) = settings c ∧
                 m_statistics (Insert i c) = m_statistics c ∧
                 cerr (Insert i c) = cerr c ∧
                 m_loopStartBlocks (Insert i c) = m_loopStartBlocks c ∧
                 m_loopEndBlocks (Insert i c) = m_loopEndBlocks c) as HI.
  { intros i c'. destruct (Insert_fields i c') as (?&?&?&?&?&?&?&?&?&?&?&?&?&?).
    rewrite settings_Insert. done. }
  destruct (HI (Store (Named "initial_ptr") (m_dataPtr c6)) c6) as (A1&A2&A3&A4&A5).
  rewrite A1, A2, A3, A4, A5. clear A1 A2 A3 A4 A5.
  subst c6.
  match goal with |- context [Insert ?i c5] =>
    destruct (HI i c5) as (A1&A2&A3&A4&A5) end.
  rewrite A1, A2, A3, A4, A5. clear A1 A2 A3 A4 A5.
  subst c5.
  change (settings (set_dataPtr ?v ?x)) with (settings x).
  change (m_statistics (set_dataPtr ?v ?x)) with (m_statistics x).
  change (cerr (set_dataPtr ?v ?x)) with (cerr x).
  change (m_loopStartBlocks (set_dataPtr ?v ?x)) with (m_loopStartBlocks x).
  change (m_loopEndBlocks (set_dataPtr ?v ?x)) with (m_loopEndBlocks x).
  match goal with |- context [Insert ?i c4] =>
    destruct (HI i c4) as (A1&A2&A3&A4&A5) end.
  rewrite A1, A2, A3, A4, A5. clear A1 A2 A3 A4 A5.
  subst c4.
  match goal with |- context [Insert ?i c3] =>
    destruct (HI i c3) as (A1&A2&A3&A4&A5) end.
  rewrite A1, A2, A3, A4, A5. clear A1 A2 A3 A4 A5.
  subst c3.
  match goal with |- context [Insert ?i c2] =>
    destruct (HI i c2) as (A1&A2&A3&A4&A5) end.
  rewrite A1, A2, A3, A4, A5. clear A1 A2 A3 A4 A5.
  rewrite G1, G2, G3, G4, G5. subst c1.
  change (settings (set_memoryArray ?v ?x)) with (settings x).
  change (m_statistics (set_memoryArray ?v ?x)) with (m_statistics x).
  change (cerr (set_memoryArray ?v ?x)) with (cerr x).
  change (m_loopStartBlocks (set_memoryArray ?v ?x)) with (m_loopStartBlocks x).
  change (m_loopEndBlocks (set_memoryArray ?v ?x)) with (m_loopEndBlocks x).
  apply HI.
Qed.

Lemma setupRuntimeFunctions_fields c :
  settings (setupRuntimeFunctions c) = settings c ∧
  m_statistics (setupRuntimeFunctions c) = m_statistics c ∧
  cerr (setupRuntimeFunctions c) = cerr c ∧
  m_loopStartBlocks (setupRuntimeFunctions c) = m_loopStartBlocks c ∧
  m_loopEndBlocks (setupRuntimeFunctions c) = m_loopEndBlocks c.
Proof.
  destruct c as [sz opt dbg stats [fns blks] ib di ma dp mf pf gf starts ends cip err].
  repeat split; reflexivity.
Qed.

(** The set-up steps touch neither the settings, the statistics, the
    error stream nor the loop stacks, whatever compiler they start
    from. *)
Lemma setup_fields c :
  settings (setup c) = settings c ∧
  m_statistics (setup c) = m_statistics c ∧
  cerr (setup c) = cerr c ∧
  m_loopStartBlocks (setup c) = m_loopStartBlocks c ∧
  m_loopEndBlocks (setup c) = m_loopEndBlocks c.
Proof.
  assert (∀ c3, settings (if m_enableDebugInfo c3 then createDebugInfo c3 else c3)
                  = settings c3 ∧
                m_statistics (if m_enableDebugInfo c3 then createDebugInfo c3 else c3)
                  = m_statistics c3 ∧
                cerr (if m_enableDebugInfo c3 then createDebugInfo c3 else c3) = cerr c3 ∧
                m_loopStartBlocks (if m_enableDebugInfo c3 then createDebugInfo c3 else c3)
                  = m_loopStartBlocks c3 ∧
                m_loopEndBlocks (if m_enableDebugInfo c3 then createDebugInfo c3 else c3)
                  = m_loopEndBlocks c3) as HD
    by (intros c3; destruct (m_enableDebugInfo c3); repeat split; reflexivity).
  unfold setup. cbv zeta.
  destruct (HD (setupRuntimeFunctions (allocateMemory (createMainFunction c))))
    as (D1&D2&D3&D4&D5).
  rewrite D1, D2, D3, D4, D5. clear D1 D2 D3 D4 D5 HD.
  destruct (setupRuntimeFunctions_fields (allocateMemory (createMainFunction c)))
    as (C1&C2&C3&C4&C5).
  rewrite C1, C2, C3, C4, C5. clear C1 C2 C3 C4 C5.
  destruct (allocateMemory_fields (createMainFunction c)) as (B1&B2&B3&B4&B5).
  rewrite B1, B2, B3, B4, B5.
  apply createMainFunction_fields.
Qed.

Lemma cerr_report_all msgs : ∀ c, cerr (report_all msgs c) = (cerr c ++ msgs)%list.
Proof.
  induction msgs as [|msg msgs IH]; intros c; [by rewrite app_nil_r|].
  change (report_all (msg :: msgs) c) with (report_all msgs (reportError msg c)).
  rewrite IH. simpl. by rewrite <- app_assoc.
Qed.

Lemma checkBrackets_loop_message source : ∀ count c c',
  checkBrackets_loop source count c = Some (false, c') →
  c' = reportError ExtraRightBracket c ∨ c' = reportError BracketsDoNotMatch c.
Proof.
  induction source as [|ch rest IH]; intros count c c'; simpl.
  - destruct (negb (count =? 0)); intros [= <-]; auto.
  - destruct (ch =? "[")%char.
    + destruct (int_checked (count + 1)); simpl; [apply IH|done].
    + destruct (ch =? "]")%char; [|apply IH].
      destruct (int_checked (count - 1)) as [n|]; simpl; [|done].
      destruct (n <? 0); [|apply IH].
      intros [= <-]; auto.
Qed.

(** [compile] after its bracket check. *)
Lemma compile_after_check verifyModule optimizeModule executeJIT emitObjectFile
    source outputFile enableJIT c :
  compile verifyModule optimizeModule executeJIT emitObjectFile source outputFile enableJIT c =
  match checkBrackets source c with
  | None => None
  | Some (false, c') => Some (false, c')
  | Some (true, _) =>
      let generated := generateIR source (setup (set_statistics ∅ c)) in
      if verifyModule (m_module generated)
      then Some (false, reportError InvalidIR generated)
      else
        let optimized :=
          if m_enableOptimization generated
          then set_module (optimizeModule (m_module generated)) generated
          else generated in
        Some (true,
              if enableJIT
              then report_all (executeJIT (m_module optimized)) optimized
              else report_all (emitObjectFile outputFile (m_module optimized)) optimized)
  end.
Proof.
  unfold compile.
  destruct (checkBrackets source c) as [[ok c']|] eqn:Hcheck; [|reflexivity].
  apply checkBrackets_loop_result in Hcheck.
  destruct Hcheck as [[-> ->]|[-> [message ->]]]; cbn [mbind option_bind negb];
    [|reflexivity].
  unfold setup. cbv zeta. reflexivity.
Qed.

Lemma generated_fields source c c1 :
  m_loopStartBlocks c = [] → m_loopEndBlocks c = [] →
  checkBrackets source c = Some (true, c1) →
  let generated := generateIR source (setup (set_statistics ∅ c)) in
  cerr generated = cerr c ∧ m_enableOptimization generated = m_enableOptimization c.
Proof.
  intros Hs He Hcheck generated.
  destruct (setup_fields (set_statistics ∅ c)) as (A1 & _ & A3 & A4 & A5).
  destruct (generateIR_reports_nothing source (setup (set_statistics ∅ c)) c c1)
    as (B1 & _); [by rewrite A4|by rewrite A5|done|].
  split.
  - subst generated. by rewrite B1, A3.
  - pose proof (settings_generateIR source (setup (set_statistics ∅ c))) as B2.
    fold generated in B2. rewrite A1 in B2.
    unfold settings in B2. cbn [m_memorySize m_enableOptimization m_enableDebugInfo
                                 set_statistics] in B2.
    congruence.
Qed.

(** X6.  The result of [compile] on a new compiler without debug
    information, when an object file is asked for.  [compile] returns
    [true] exactly when [checkBrackets] accepts the source and LLVM's
    verifier accepts the generated module.  It then has written to the
    error stream what [emitObjectFile] reported and nothing else: a back
    end that fails (no target, output file not writable, link failure)
    does not make [compile] fail.  The module the back end gets is the
    generated one, optimised exactly when optimisation is enabled.  When
    [compile] returns [false] it has reported exactly one error. *)
Theorem compile_succeeds_whatever_the_back_end_reports
    (verifyModule : Module → bool) (optimizeModule : Module → Module)
    (executeJIT : Module → list Message) (emitObjectFile : string → Module → list Message)
    (source outputFile : string) (N : Z) (opt : bool) (c' : BrainfuckCompiler) (ok : bool) :
  let c := setDebugInfo false (setOptimization opt (BrainfuckCompiler_new N)) in
  compile verifyModule optimizeModule executeJIT emitObjectFile source outputFile false c
    = Some (ok, c') →
  let generated := generateIR source (setup (set_statistics ∅ c)) in
  let handed_over :=
    if opt then optimizeModule (m_module generated) else m_module generated in
  (ok = true ↔
   checkBrackets source c = Some (true, c) ∧ verifyModule (m_module generated) = false) ∧
  (ok = true → cerr c' = emitObjectFile outputFile handed_over) ∧
  (ok = false →
   ∃ message, cerr c' = [message] ∧
              (message = ExtraRightBracket ∨ message = BracketsDoNotMatch ∨
               message = InvalidIR)).
Proof.
  intros c.
  assert (m_loopStartBlocks c = []) as Hs by reflexivity.
  assert (m_loopEndBlocks c = []) as He by reflexivity.
  assert (cerr c = []) as Hnil by reflexivity.
  assert (m_enableOptimization c = opt) as Hoptc by reflexivity.
  clearbody c.
  rewrite compile_after_check.
  destruct (checkBrackets source c) as [[[] c1]|] eqn:Hcheck; [| |done].
  - destruct (generated_fields source c c1 Hs He Hcheck) as [Hcerr Hopt].
    pose proof Hcheck as Hc1. apply checkBrackets_loop_result in Hc1.
    destruct Hc1 as [[_ ->]|[? _]]; [|done].
    cbv zeta in *.
    set (generated := generateIR source (setup (set_statistics ∅ c))) in *.
    clearbody generated.
    destruct (verifyModule (m_module generated)) eqn:Hverify.
    + intros [= <- <-]. split; [split; [done|by intros [_ ?]]|].
      split; [done|]. intros _. exists InvalidIR. simpl. rewrite Hcerr, Hnil. auto.
    + intros [= <- <-]. split; [done|]. split; [|done]. intros _.
      rewrite Hopt, Hoptc.
      destruct opt; rewrite cerr_report_all; simpl; by rewrite Hcerr, Hnil.
  - intros [= <- <-]. split; [split; [done|]|].
    { intros [? _]. congruence. }
    split; [done|]. intros _.
    apply checkBrackets_loop_message in Hcheck as [->| ->]; eexists; simpl;
      rewrite Hnil; split; try reflexivity; auto.
Qed.

Lemma compile_back_end_witness :
  let link_fails := λ (_ : string) (_ : Module), [BackendMessage "link failed"] in
  match compile (λ _, false) (λ M, M) (λ _, []) link_fails "+." "a.out" false
          (setDebugInfo false (setOptimization false (BrainfuckCompiler_new 4))) with
  | Some (ok, c') => ok = true ∧ cerr c' = [BackendMessage "link failed"]
  | None => False
  end.
Proof.
  intros link_fails.
  destruct (compile (λ _, false) (λ M, M) (λ _, []) link_fails "+." "a.out" false
              (setDebugInfo false (setOptimization false (BrainfuckCompiler_new 4))))
    as [[ok c']|] eqn:H; [|vm_compute in H; discriminate].
  destruct (compile_succeeds_whatever_the_back_end_reports
              (λ _, false) (λ M, M) (λ _, []) link_fails "+." "a.out" 4 false c' ok H)
    as (H1 & H2 & _).
  assert (ok = true) as Hok by (apply H1; split; reflexivity).
  split; [exact Hok|]. exact (H2 Hok).
Defined.

(** ** The statistics [main] shows *)








(** ** The exit status of [main] *)

(** X3.  The exit status of [main].  A command line that is not
    accepted gives status 1.  For an accepted command line that asks
    neither for JIT execution nor for debug information, the status is 0
    in exactly two cases: it asks for help; or it names an input file
    that can be read, [checkBrackets] accepts its content and LLVM's
    verifier accepts the generated module.  In every other case the
    status is 1.  What [emitObjectFile] reports has no part in it. *)
Theorem main_exit_code
    (verifyModule : Module → bool) (optimizeModule : Module → Module)
    (executeJIT : Module → list Message) (emitObjectFile : string → Module → list Message)
    (files : string → option string)
    (programName : string) (args : list string) (res : MainResult) :
  main verifyModule optimizeModule executeJIT emitObjectFile files programName args
    = Some res →
  match parseCommandLine args with
  | inl e => exit_code res = 1
  | inr options =>
      enableJIT options = false → enableDebugInfo options = false →
      (exit_code res = 0 ∨ exit_code res = 1) ∧
      (exit_code res = 0 ↔
       showHelp options = true ∨
       ∃ sourceCode,
         inputFile options ≠ "" ∧
         files (inputFile options) = Some sourceCode ∧
         let compiler :=
           setDebugInfo false
             (setOptimization (enableOptimization options)
                (BrainfuckCompiler_new (memorySize options))) in
         checkBrackets sourceCode compiler = Some (true, compiler) ∧
         verifyModule
           (m_module (generateIR sourceCode (setup (set_statistics ∅ compiler)))) = false)
  end.
Proof.
  unfold main.
  destruct (parseCommandLine args) as [e|options] eqn:Hparse.
  { by intros [= <-]. }
  intros Hmain Hjit Hdbg. revert Hmain. rewrite Hdbg.
  destruct (showHelp options) eqn:Hhelp.
  { intros [= <-]. simpl. split; [auto|]. split; auto. }
  destruct (inputFile options =? "")%string eqn:Hempty.
  { intros [= <-]. simpl. split; [auto|]. split; [done|].
    intros [?|(? & Hne & _)]; [congruence|].
    by apply String.eqb_eq in Hempty. }
  apply String.eqb_neq in Hempty.
  unfold readFile.
  destruct (files (inputFile options)) as [sourceCode|] eqn:Hfile.
  2:{ intros [= <-]. simpl. split; [auto|]. split; [done|].
      intros [?|(? & _ & ? & _)]; congruence. }
  cbv zeta. rewrite compile_after_check.
  set (compiler := setDebugInfo _ (setOptimization _ (BrainfuckCompiler_new _))).
  destruct (checkBrackets sourceCode compiler) as [[[] c1]|] eqn:Hcheck;
    cbn [mbind option_bind]; [| |done].
  - pose proof Hcheck as Hc1. apply checkBrackets_loop_result in Hc1.
    destruct Hc1 as [[_ ->]|[? _]]; [|done].
    cbv zeta.
    destruct (verifyModule (m_module (generateIR sourceCode
                                        (setup (set_statistics ∅ compiler))))) eqn:Hverify;
      cbn [negb]; intros [= <-]; cbn [exit_code]; (split; [auto|]).
    + split; [done|].
      intros [?|(src & _ & Hsrc & _ & Hv)]; [congruence|].
      injection Hsrc as <-. fold compiler in Hv. congruence.
    + split; [|done]. intros _. right.
      exists sourceCode. fold compiler. auto.
  - cbn [negb]. intros [= <-]. cbn [exit_code]. split; [auto|]. split; [done|].
    intros [?|(src & _ & Hsrc & Hc & _)]; [congruence|].
    injection Hsrc as <-. fold compiler in Hc. congruence.
Qed.

Lemma main_exit_code_witness :
  let files := λ name, if (name =? "a.bf")%string then Some "+[-]." else None in
  match main (λ _, false) (λ M, M) (λ _, []) (λ _ _, [BackendMessage "link failed"])
          files "bfc" ["-i"; "a.bf"] with
  | Some res => exit_code res = 0
  | None => False
  end.
Proof.
  intros files.
  destruct (main (λ _, false) (λ M, M) (λ _, []) (λ _ _, [BackendMessage "link failed"])
              files "bfc" ["-i"; "a.bf"]) as [res|] eqn:H;
    [|vm_compute in H; discriminate].
  pose proof (main_exit_code _ _ _ _ _ _ _ _ H) as Hcode.
  change (parseCommandLine ["-i"; "a.bf"])
    with (inr (B := CommandLineOptions) (A := Exception)
            (set_inputFile "a.bf" CommandLineOptions_default)) in Hcode.
  destruct (Hcode eq_refl eq_refl) as [_ Hiff].
  apply Hiff. right. exists "+[-].".
  split; [done|]. split; [reflexivity|]. split; reflexivity.
Defined.

Lemma parseCommandLine_loop_optimization (args : list string) :
  ∀ (o o' : CommandLineOptions),
  "-O" ∉ args → "--optimize" ∉ args →
  parseCommandLine_loop args o = inr o' →
  enableOptimization o' = enableOptimization o.
Proof.
  assert (∀ n (args : list string), (length args ≤ n)%nat →
          ∀ (o o' : CommandLineOptions),
            "-O" ∉ args → "--optimize" ∉ args →
            parseCommandLine_loop args o = inr o' →
            enableOptimization o' = enableOptimization o)
    as H; [|by apply (H (length args))].
  clear args. induction n as [|n IH]; intros args Hlen o o' H1 H2.
  { destruct args; [|simpl in Hlen; lia]. by intros [= ->]. }
  destruct args as [|arg rest]; [by intros [= ->]|].
  simpl in Hlen. cbn [parseCommandLine_loop].
  apply not_elem_of_cons in H1 as [H1 H1'], H2 as [H2 H2'].
  destruct (arg =? "-i")%string, (arg =? "--input")%string,
    (arg =? "-o")%string, (arg =? "--output")%string,
    (arg =? "-m")%string, (arg =? "--memory")%string; cbn [orb];
  try (destruct rest as [|value rest]; [done|];
       apply not_elem_of_cons in H1' as [_ H1'], H2' as [_ H2'];
       try (destruct (stoul value); [done|]);
       intros Hp; rewrite (IH rest ltac:(simpl in *; lia) _ o' H1' H2' Hp); reflexivity).
  destruct (arg =? "-O")%string eqn:E1; [by apply String.eqb_eq in E1|].
  destruct (arg =? "--optimize")%string eqn:E2; [by apply String.eqb_eq in E2|].
  cbn [orb].
  repeat match goal with
  | |- context [if ?b then _ else _] => destruct b
  end; try done;
  intros Hp; rewrite (IH rest ltac:(simpl in *; lia) _ o' H1' H2' Hp); reflexivity.
Qed.

(** X4.  [main] optimises on request only.  The class enables optimisation
    when it is constructed, and [main] sets it from the command line,
    where it is off unless [-O] or [--optimize] is given: on a command
    line without these two, the result of [main] does not depend on what
    the optimiser would do. *)
Theorem main_optimises_only_on_request
    (verifyModule : Module → bool) (optimizeModule optimizeModule' : Module → Module)
    (executeJIT : Module → list Message) (emitObjectFile : string → Module → list Message)
    (files : string → option string)
    (programName : string) (args : list string) :
  "-O" ∉ args → "--optimize" ∉ args →
  main verifyModule optimizeModule executeJIT emitObjectFile files programName args =
  main verifyModule optimizeModule' executeJIT emitObjectFile files programName args.
Proof.
  intros H1 H2. unfold main.
  destruct (parseCommandLine args) as [e|options] eqn:Hparse; [done|].
  apply parseCommandLine_loop_optimization in Hparse; [|done..].
  change (enableOptimization CommandLineOptions_default) with false in Hparse.
  destruct (showHelp options); [done|].
  destruct (inputFile options =? "")%string; [done|].
  destruct (readFile files (inputFile options)) as [e|sourceCode]; [done|].
  cbv zeta. rewrite !compile_after_check. rewrite Hparse.
  set (compiler := setDebugInfo _ (setOptimization _ (BrainfuckCompiler_new _))).
  destruct (checkBrackets sourceCode compiler) as [[[] c1]|]; [|done..].
  cbv zeta.
  set (generated := generateIR sourceCode (setup (set_statistics ∅ compiler))).
  assert (m_enableOptimization generated = false) as Hopt.
  { pose proof (settings_generateIR sourceCode (setup (set_statistics ∅ compiler))) as G.
    destruct (setup_fields (set_statistics ∅ compiler)) as (G' & _).
    fold generated in G. rewrite G' in G. unfold settings in G.
    cbn [m_memorySize m_enableOptimization m_enableDebugInfo set_statistics] in G.
    injection G as _ G _. rewrite G. reflexivity. }
  clearbody generated. rewrite Hopt. reflexivity.
Qed.

Lemma main_optimises_only_on_request_witness :
  let files := λ name, if (name =? "a.bf")%string then Some "+." else None in
  main (λ _, false) (λ M, M) (λ _, []) (λ _ _, []) files "bfc" ["-i"; "a.bf"; "-j"] =
  main (λ _, false) (λ _, {| functions := []; blocks := [] |}) (λ _, []) (λ _ _, [])
    files "bfc" ["-i"; "a.bf"; "-j"].
Proof.
  intros files.
  apply main_optimises_only_on_request; apply (bool_decide_unpack _); vm_compute; exact I.
Defined.

(** ** The translation, instruction by instruction *)

Lemma generateIR_step_skip i ch c :
  not_instruction ch = true → generateIR_step i ch c = set_currentIP i c.
Proof. intros H. unfold generateIR_step. by rewrite H. Qed.

Lemma generateIR_step_open i c :
  generateIR_step i "[" c =
  handleLoopStart i (set_statistics (statistics_incr "[" (m_statistics c)) (set_currentIP i c)).
Proof. reflexivity. Qed.

Lemma generateIR_step_close i c :
  generateIR_step i "]" c =
  handleLoopEnd i (set_statistics (statistics_incr "]" (m_statistics c)) (set_currentIP i c)).
Proof. reflexivity. Qed.

Lemma generateIR_step_simple_cmd i ch cmd c :
  simple_cmd ch = Some cmd → ready c = true →
  ∃ code,
    generateIR_step i ch c =
      Inserts code (set_statistics (statistics_incr ch (m_statistics c)) (set_currentIP i c)) ∧
    is_code_of (m_putcharFunc c) (m_getcharFunc c) cmd code.
Proof.
  intros Hcmd (b & _ & _ & Hd & _)%ready_inv. unfold simple_cmd in Hcmd.
  set (c1 := set_statistics (statistics_incr ch (m_statistics c)) (set_currentIP i c)).
  assert (m_dataPtr c1 = Named "dataptr") as Hd1 by exact Hd.
  destruct (Ascii.eqb_spec ch ">") as [->|_].
  { injection Hcmd as <-. eexists. split; [|reflexivity].
    change (generateIR_step i ">" c) with (handleIncrementPtr c1).
    by rewrite handleIncrementPtr_Inserts, Hd1. }
  destruct (Ascii.eqb_spec ch "<") as [->|_].
  { injection Hcmd as <-. eexists. split; [|reflexivity].
    change (generateIR_step i "<" c) with (handleDecrementPtr c1).
    by rewrite handleDecrementPtr_Inserts, Hd1. }
  destruct (Ascii.eqb_spec ch "+") as [->|_].
  { injection Hcmd as <-. eexists. split; [|reflexivity].
    change (generateIR_step i "+" c) with (handleIncrementByte c1).
    by rewrite handleIncrementByte_Inserts, Hd1. }
  destruct (Ascii.eqb_spec ch "-") as [->|_].
  { injection Hcmd as <-. eexists. split; [|reflexivity].
    change (generateIR_step i "-" c) with (handleDecrementByte c1).
    by rewrite handleDecrementByte_Inserts, Hd1. }
  destruct (Ascii.eqb_spec ch ".") as [->|_].
  { injection Hcmd as <-. eexists. split; [|reflexivity].
    change (generateIR_step i "." c) with (handleOutput c1).
    by rewrite handleOutput_Inserts, Hd1. }
  destruct (Ascii.eqb_spec ch ",") as [->|_]; [|done].
  injection Hcmd as <-. eexists. split; [|reflexivity].
  change (generateIR_step i "," c) with (handleInput c1).
  by rewrite handleInput_Inserts, Hd1.
Qed.

Lemma generateIR_loop_app (a b : list ascii) : ∀ i c,
  generateIR_loop i (a ++ b) c
  = generateIR_loop (i + length a) b (generateIR_loop i a c).
Proof.
  induction a as [|ch a IH]; intros i c; simpl.
  - by rewrite Nat.add_0_r.
  - rewrite IH. f_equal. lia.
Qed.

(** Blocks other than the insertion point are not touched by
    [handleLoopStart]. *)
Lemma handleLoopStart_blocks_other ip c b k :
  m_insertBlock c = Some b → k ≠ b → (k < length (blocks (m_module c)))%nat →
  block_instrs (handleLoopStart ip c) k = block_instrs c k.
Proof.
  intros Hb Hne Hlt. rewrite handleLoopStart_eq. cbv zeta.
  set (n := length (blocks (m_module c))) in *.
  set (c0 := set_module _ c).
  set (code := [_; _; _; _]).
  change (block_instrs (set_loopBlocks ?x ?y (SetInsertPoint ?z ?w)))
    with (block_instrs w).
  assert (m_insertBlock (SetInsertPoint n (Insert (Br n) c0)) = Some n) as Hn by reflexivity.
  rewrite (Inserts_block_instrs_ne code _ n k Hn) by lia.
  change (block_instrs (SetInsertPoint n (Insert (Br n) c0)) k)
    with (block_instrs (Insert (Br n) c0) k).
  rewrite (Insert_block_instrs_ne (Br n) c0 b k) by done.
  subst c0. erewrite block_instrs_app by reflexivity. by rewrite decide_True.
Qed.

Lemma block_instrs_beyond c k :
  (length (blocks (m_module c)) ≤ k)%nat → block_instrs c k = [].
Proof. intros H. unfold block_instrs. by rewrite lookup_ge_None_2. Qed.

(** A turn of [generateIR]'s loop only adds: to the instructions of a
    block, and blocks. *)
Lemma generateIR_step_prefix i ch c k :
  ready c = true →
  block_instrs c k `prefix_of` block_instrs (generateIR_step i ch c) k.
Proof.
  intros Hready. pose proof Hready as (b & Hb & Hlt & _)%ready_inv.
  set (c1 := set_statistics (statistics_incr ch (m_statistics c)) (set_currentIP i c)).
  assert (m_insertBlock c1 = Some b) as Hb1 by exact Hb.
  assert (length (blocks (m_module c1)) = length (blocks (m_module c))) as Hlen1
    by reflexivity.
  change (block_instrs c k) with (block_instrs c1 k).
  destruct (generateIR_step_cases i ch c)
    as [[_ [->| [code ->]]]|[(_ & _ & ->)|(_ & _ & ->)]]; fold c1.
  - done.
  - destruct (decide (k = b)) as [->|Hne].
    + rewrite Inserts_block_instrs by (rewrite ?Hlen1; done). by apply prefix_app_r.
    + by rewrite (Inserts_block_instrs_ne code c1 b k).
  - destruct (decide (k = b)) as [->|Hne].
    + destruct (handleLoopStart_blocks i c1 b Hb1) as (-> & _); [lia|].
      by apply prefix_app_r.
    + destruct (decide (k < length (blocks (m_module c1)))%nat).
      * by rewrite (handleLoopStart_blocks_other i c1 b k).
      * rewrite (block_instrs_beyond c1 k) by lia. apply prefix_nil.
  - destruct (m_loopStartBlocks c1) as [|h starts] eqn:Es;
      [rewrite handleLoopEnd_empty by (by left); done|].
    destruct (m_loopEndBlocks c1) as [|e ends] eqn:Ee;
      [rewrite handleLoopEnd_empty by (by right); done|].
    rewrite (handleLoopEnd_nonempty i c1 h starts e ends Es Ee).
    change (block_instrs (SetInsertPoint ?z ?w)) with (block_instrs w).
    change (block_instrs c1 k) with (block_instrs (set_loopBlocks starts ends c1) k).
    destruct (decide (k = b)) as [->|Hne].
    + rewrite Insert_block_instrs by done. by apply prefix_app_r.
    + by rewrite (Insert_block_instrs_ne _ _ b k).
Qed.

Lemma generateIR_loop_prefix source : ∀ i c k,
  ready c = true →
  block_instrs c k `prefix_of` block_instrs (generateIR_loop i source c) k.
Proof.
  induction source as [|ch rest IH]; intros i c k Hready; simpl; [done|].
  etrans; [by apply (generateIR_step_prefix i ch)|].
  by apply IH, ready_generateIR_step.
Qed.

Lemma translating_generateIR_step i ch c :
  translating c → translating (generateIR_step i ch c).
Proof.
  intros (Hready & Hnodup & Hends).
  pose proof Hready as (b & Hb & Hlt & _)%ready_inv.
  pose proof (proj1 (ready_iff c) Hready) as (_ & _ & _ & _ & _ & Hok).
  split; [by apply ready_generateIR_step|].
  set (c1 := set_statistics (statistics_incr ch (m_statistics c)) (set_currentIP i c)).
  assert (m_insertBlock c1 = Some b) as Hb1 by exact Hb.
  assert (∀ e, e ∈ m_loopEndBlocks c1 → block_instrs c1 e = [] ∧ e ≠ b) as Hends1.
  { intros e He. destruct (Hends e He) as [H1 H2]. split; [exact H1|].
    intros ->. by apply H2. }
  assert (NoDup (m_loopEndBlocks c1)) as Hnodup1 by exact Hnodup.
  assert (∀ e, e ∈ m_loopEndBlocks c1 → (e < length (blocks (m_module c1)))%nat) as Hok1.
  { intros e He. apply (Hok e). by apply list_elem_of_In. }
  clear Hends Hnodup Hok.
  destruct (generateIR_step_cases i ch c)
    as [[_ [->| [code ->]]]|[(_ & _ & ->)|(_ & _ & ->)]]; fold c1.
  - split; [exact Hnodup1|]. intros e He. destruct (Hends1 e He) as [H1 H2].
    split; [exact H1|]. change (m_insertBlock (set_currentIP i c)) with (m_insertBlock c).
    rewrite Hb. by intros [= ->].
  - destruct (Inserts_fields code c1) as (_&G1&_&_&_&_&_&G2&_).
    rewrite G1, G2. split; [exact Hnodup1|]. intros e He.
    destruct (Hends1 e He) as [H1 H2]. split.
    + by rewrite (Inserts_block_instrs_ne code c1 b e).
    + rewrite Hb1. by intros [= ->].
  - destruct (handleLoopStart_fields i c1) as (_&_&_&_&_&_&_&_&G1&_&G2).
    destruct (handleLoopStart_blocks i c1 b Hb1) as (_ & _ & _ & Hexit); [done|].
    rewrite G1, G2. set (n := length (blocks (m_module c1))) in *. split.
    + apply NoDup_cons. split; [|exact Hnodup1].
      intros Hin. apply Hok1 in Hin. lia.
    + intros e [->|He]%elem_of_cons.
      * split; [exact Hexit|]. intros [= ?]. lia.
      * destruct (Hends1 e He) as [H1 H2]. pose proof (Hok1 e He). split.
        -- by rewrite (handleLoopStart_blocks_other i c1 b e).
        -- intros [= ?]. lia.
  - destruct (m_loopStartBlocks c1) as [|h starts] eqn:Es.
    { rewrite handleLoopEnd_empty by (by left).
      split; [exact Hnodup1|]. intros e He. destruct (Hends1 e He) as [H1 H2].
      split; [exact H1|]. change (m_insertBlock (reportError _ c1)) with (m_insertBlock c1).
      rewrite Hb1. by intros [= ->]. }
    destruct (m_loopEndBlocks c1) as [|e0 ends] eqn:Ee.
    { rewrite handleLoopEnd_empty by (by right).
      change (m_loopEndBlocks (reportError _ c1)) with (m_loopEndBlocks c1). rewrite Ee.
      split; [apply NoDup_nil_2|]. intros e He. by apply elem_of_nil in He. }
    rewrite (handleLoopEnd_nonempty i c1 h starts e0 ends Es Ee).
    apply NoDup_cons in Hnodup1 as [Hnotin Hnodup1].
    destruct (Insert_fields (Br h) (set_loopBlocks starts ends c1))
      as (_&_&_&_&_&_&_&_&_&G&_).
    change (m_loopEndBlocks (SetInsertPoint ?z ?w)) with (m_loopEndBlocks w).
    change (m_insertBlock (SetInsertPoint ?z ?w)) with (Some z).
    change (block_instrs (SetInsertPoint ?z ?w)) with (block_instrs w).
    rewrite G. cbn [m_loopEndBlocks set_loopBlocks].
    split; [exact Hnodup1|]. intros e He.
    destruct (Hends1 e) as [H1 H2]; [by apply elem_of_cons; right|]. split.
    + by rewrite (Insert_block_instrs_ne (Br h) (set_loopBlocks starts ends c1) b e).
    + intros [= ->]. done.
Qed.

Lemma translating_generateIR_loop source : ∀ i c,
  translating c → translating (generateIR_loop i source c).
Proof.
  induction source as [|ch rest IH]; intros i c H; simpl; [done|].
  by apply IH, translating_generateIR_step.
Qed.

(** Across a source that reads as a program the loop stacks come back
    to what they were. *)
Lemma parses_stacks source prog :
  parses source prog →
  ∀ i c,
    m_loopStartBlocks (generateIR_loop i source c) = m_loopStartBlocks c ∧
    m_loopEndBlocks (generateIR_loop i source c) = m_loopEndBlocks c.
Proof.
  induction 1 as [|ch source prog Hskip _ IH|ch cmd source prog Hcmd _ IH
                  |body rest body_prog rest_prog _ IHbody _ IHrest]; intros i c.
  - done.
  - simpl. rewrite generateIR_step_skip by done. apply (IH (S i) (set_currentIP i c)).
  - simpl. destruct (IH (S i) (generateIR_step i ch c)) as [-> ->].
    destruct (generateIR_step_cases i ch c)
      as [[_ [->| [code ->]]]|[(_ & -> & _)|(_ & -> & _)]]; try done.
    destruct (Inserts_fields code
                (set_statistics (statistics_incr ch (m_statistics c)) (set_currentIP i c)))
      as (_&_&_&_&_&_&G1&G2&_).
    by rewrite G1, G2.
  - cbn [generateIR_loop]. rewrite generateIR_loop_app. cbn [generateIR_loop].
    destruct (IHrest (S (S i + length body))
                (generateIR_step (S i + length body) "]"
                   (generateIR_loop (S i) body (generateIR_step i "[" c)))) as [-> ->].
    rewrite generateIR_step_close.
    set (c2 := generateIR_loop (S i) body (generateIR_step i "[" c)).
    destruct (IHbody (S i) (generateIR_step i "[" c)) as [Hs He]. fold c2 in Hs, He.
    rewrite generateIR_step_open in Hs, He.
    set (c0 := set_statistics (statistics_incr "[" (m_statistics c)) (set_currentIP i c))
      in *.
    destruct (handleLoopStart_fields i c0) as (_&_&_&_&_&_&_&_&_&G1&G2).
    rewrite G1 in Hs. rewrite G2 in He.
    rewrite (handleLoopEnd_nonempty _ _ _ (m_loopStartBlocks c0) _ (m_loopEndBlocks c0))
      by (cbn [m_loopStartBlocks m_loopEndBlocks set_statistics set_currentIP]; done).
    destruct (Insert_fields (Br (length (blocks (m_module c0))))
                (set_loopBlocks (m_loopStartBlocks c0) (m_loopEndBlocks c0)
                   (set_statistics (statistics_incr "]" (m_statistics c2))
                      (set_currentIP (S i + length body) c2))))
      as (_&_&_&_&_&_&_&_&K1&K2&_).
    change (m_loopStartBlocks (SetInsertPoint ?z ?w)) with (m_loopStartBlocks w).
    change (m_loopEndBlocks (SetInsertPoint ?z ?w)) with (m_loopEndBlocks w).
    rewrite K1, K2. done.
Qed.

Lemma handleLoopEnd_blocks ip c h starts e ends b :
  m_loopStartBlocks c = h :: starts → m_loopEndBlocks c = e :: ends →
  m_insertBlock c = Some b → (b < length (blocks (m_module c)))%nat →
  block_instrs (handleLoopEnd ip c) b = (block_instrs c b ++ [Br h])%list ∧
  (∀ k, k ≠ b → block_instrs (handleLoopEnd ip c) k = block_instrs c k) ∧
  m_insertBlock (handleLoopEnd ip c) = Some e.
Proof.
  intros Hs He Hb Hlt. rewrite (handleLoopEnd_nonempty ip c h starts e ends Hs He).
  change (block_instrs (SetInsertPoint ?z ?w)) with (block_instrs w).
  split; [|split; [|reflexivity]].
  - by rewrite Insert_block_instrs.
  - intros k Hk. by rewrite (Insert_block_instrs_ne _ _ b k).
Qed.

(** ** Reading a source *)

Lemma simple_cmd_None_skip ch :
  (ch =? "]")%char = false → (ch =? "[")%char = false → simple_cmd ch = None →
  not_instruction ch = true.
Proof.
  unfold simple_cmd, not_instruction. intros -> ->.
  repeat match goal with
  | |- context [(ch =? ?k)%char] => destruct (ch =? k)%char; [done|]
  end. done.
Qed.

Lemma parse_upto_sound fuel : ∀ source prog rest,
  parse_upto fuel source = Some (prog, rest) →
  ∃ pre, source = (pre ++ rest)%list ∧ parses pre prog ∧
         (rest = [] ∨ ∃ rest', rest = "]"%char :: rest').
Proof.
  induction fuel as [|fuel IH]; intros source prog rest; [done|].
  cbn [parse_upto]. destruct source as [|ch source].
  { intros [= <- <-]. exists []. split; [done|]. split; [constructor|by left]. }
  destruct (Ascii.eqb_spec ch "]") as [->|Hclose].
  { intros [= <- <-]. exists []. split; [done|]. split; [constructor|]. right. eauto. }
  destruct (Ascii.eqb_spec ch "[") as [->|Hopen].
  - destruct (parse_upto fuel source) as [[body rest1]|] eqn:Hbody; [|done].
    cbn [mbind option_bind].
    apply IH in Hbody as (pre1 & -> & Hp1 & Hrest1).
    destruct rest1 as [|x rest2]; [done|].
    destruct Hrest1 as [|(rest' & [= -> ->])]; [done|].
    destruct (parse_upto fuel rest') as [[prog2 rest3]|] eqn:Hrest; [|done].
    cbn [mbind option_bind]. intros [= <- <-].
    apply IH in Hrest as (pre2 & -> & Hp2 & Hrest3).
    exists ("["%char :: pre1 ++ "]"%char :: pre2)%list. split; [|split; [|done]].
    + simpl. by rewrite <- !app_assoc.
    + by constructor.
  - destruct (parse_upto fuel source) as [[prog' rest']|] eqn:Hrest; [|done].
    cbn [mbind option_bind].
    apply IH in Hrest as (pre & -> & Hp & Hrest').
    destruct (simple_cmd ch) as [cmd|] eqn:Hcmd; intros [= <- <-].
    + exists (ch :: pre). split; [done|]. split; [|done]. by constructor.
    + exists (ch :: pre). split; [done|]. split; [|done].
      apply parses_skip; [|done].
      apply simple_cmd_None_skip; [by apply Ascii.eqb_neq..|done].
Qed.

Lemma parse_parses source prog :
  parse source = Some prog → parses (String.list_ascii_of_string source) prog.
Proof.
  unfold parse.
  destruct (parse_upto _ _) as [[prog' [|x rest]]|] eqn:H; [|done..].
  intros [= <-]. apply parse_upto_sound in H as (pre & Hpre & Hp & _).
  rewrite app_nil_r in Hpre. by rewrite Hpre.
Qed.

(** ** The translated program *)

Lemma after_setup_entry N :
  block_instrs (after_setup N) 0
    = emitted allocateMemory (createMainFunction (BrainfuckCompiler_new N)) ∧
  m_insertBlock (after_setup N) = Some 0%nat ∧
  functions (m_module (after_setup N)) = [FnMain; FnMemset; FnPutchar; FnGetchar] ∧
  m_loopEndBlocks (after_setup N) = [] ∧
  m_mainFunction (after_setup N) = 0%nat ∧
  block_labels (after_setup N) = [("entry", 0%nat)].
Proof.
  split; [vm_compute; reflexivity|]. split; [vm_compute; reflexivity|].
  split; [vm_compute; reflexivity|]. split; [vm_compute; reflexivity|].
  split; vm_compute; reflexivity.
Qed.

(** ** The blocks of a module *)

Lemma block_labels_Insert i c : block_labels (Insert i c) = block_labels c.
Proof.
  unfold block_labels, Insert. destruct (m_insertBlock c) as [b|]; [|done].
  cbn [m_module set_module blocks].
  rewrite (list_fmap_alter _ _ id).
  - clear. generalize ((λ bb, (bb_name bb, bb_parent bb)) <$> blocks (m_module c)).
    intros l. revert b. induction l as [|x l IH]; intros [|b]; simpl; f_equal; try done.
    apply IH.
  - by apply Forall_forall.
Qed.

Lemma block_labels_Inserts code : ∀ c, block_labels (Inserts code c) = block_labels c.
Proof.
  induction code as [|i code IH]; intros c; [done|].
  change (Inserts (i :: code) c) with (Inserts code (Insert i c)).
  by rewrite IH, block_labels_Insert.
Qed.

Lemma block_labels_handleLoopStart ip c :
  block_labels (handleLoopStart ip c) =
  (block_labels c ++
   [("loop_header_" +:+ pretty ip, m_mainFunction c);
    ("loop_body_" +:+ pretty ip, m_mainFunction c);
    ("loop_end_" +:+ pretty ip, m_mainFunction c)])%list.
Proof.
  rewrite handleLoopStart_eq. cbv zeta.
  set (n := length (blocks (m_module c))).
  set (c0 := set_module _ c).
  set (code := [_; _; _; _]).
  change (block_labels (set_loopBlocks ?x ?y (SetInsertPoint ?z ?w)))
    with (block_labels w).
  rewrite block_labels_Inserts.
  change (block_labels (SetInsertPoint ?z ?w)) with (block_labels w).
  rewrite block_labels_Insert. subst c0. unfold block_labels.
  cbn [m_module set_module blocks]. by rewrite fmap_app.
Qed.

Lemma block_labels_handleLoopEnd ip c :
  block_labels (handleLoopEnd ip c) = block_labels c.
Proof.
  unfold handleLoopEnd, CreateBr.
  destruct (m_loopStartBlocks c) as [|h starts], (m_loopEndBlocks c) as [|e ends];
    try reflexivity.
  change (block_labels (SetInsertPoint ?z ?w)) with (block_labels w).
  by rewrite block_labels_Insert.
Qed.

Lemma mainFunction_generateIR_step i ch c :
  m_mainFunction (generateIR_step i ch c) = m_mainFunction c.
Proof.
  set (c1 := set_statistics (statistics_incr ch (m_statistics c)) (set_currentIP i c)).
  change (m_mainFunction c) with (m_mainFunction c1).
  destruct (generateIR_step_cases i ch c)
    as [[_ [->| [code ->]]]|[(_ & _ & ->)|(_ & _ & ->)]]; fold c1.
  - done.
  - apply Inserts_fields.
  - apply handleLoopStart_fields.
  - apply handleLoopEnd_fields.
Qed.

Lemma block_labels_generateIR_step i ch c :
  block_labels (generateIR_step i ch c) =
  (block_labels c ++
   if (ch =? "[")%char
   then [("loop_header_" +:+ pretty i, m_mainFunction c);
         ("loop_body_" +:+ pretty i, m_mainFunction c);
         ("loop_end_" +:+ pretty i, m_mainFunction c)]
   else [])%list.
Proof.
  set (c1 := set_statistics (statistics_incr ch (m_statistics c)) (set_currentIP i c)).
  change (block_labels c) with (block_labels c1).
  change (m_mainFunction c) with (m_mainFunction c1).
  destruct (generateIR_step_cases i ch c)
    as [[Hd [->| [code ->]]]|[(_ & -> & ->)|(_ & -> & ->)]]; fold c1.
  - unfold bracket_delta in Hd. destruct (ch =? "[")%char; [done|]. by rewrite app_nil_r.
  - unfold bracket_delta in Hd. destruct (ch =? "[")%char; [done|].
    by rewrite block_labels_Inserts, app_nil_r.
  - apply block_labels_handleLoopStart.
  - by rewrite block_labels_handleLoopEnd, app_nil_r.
Qed.

Lemma block_labels_generateIR_loop source : ∀ i c,
  block_labels (generateIR_loop i source c) =
  (block_labels c ++ loop_labels i source (m_mainFunction c))%list ∧
  m_mainFunction (generateIR_loop i source c) = m_mainFunction c.
Proof.
  induction source as [|ch rest IH]; intros i c; simpl.
  - by rewrite app_nil_r.
  - destruct (IH (S i) (generateIR_step i ch c)) as [-> ->].
    rewrite block_labels_generateIR_step, mainFunction_generateIR_step.
    by rewrite <- app_assoc.
Qed.

Lemma set_currentIP_fields i c :
  (∀ k, block_instrs (set_currentIP i c) k = block_instrs c k) ∧
  m_insertBlock (set_currentIP i c) = m_insertBlock c ∧
  m_loopEndBlocks (set_currentIP i c) = m_loopEndBlocks c ∧
  m_mainFunction (set_currentIP i c) = m_mainFunction c ∧
  block_labels (set_currentIP i c) = block_labels c ∧
  functions (m_module (set_currentIP i c)) = functions (m_module c).
Proof. done. Qed.

Lemma translating_set_currentIP i c : translating c → translating (set_currentIP i c).
Proof. intros H. exact H. Qed.

Lemma translating_after_setup N : translating (after_setup N).
Proof.
  destruct (after_setup_entry N) as (_ & _ & _ & Hends & _).
  split; [apply ready_after_setup|]. rewrite Hends.
  split; [apply NoDup_nil_2|]. intros e He. by apply elem_of_nil in He.
Qed.

(** ** Sources that [checkBrackets] accepts read as programs *)

Lemma bracket_counter_app a b :
  bracket_counter (a ++ b) = bracket_counter a + bracket_counter b.
Proof. induction a as [|ch a IH]; simpl; [done|]. rewrite IH. lia. Qed.

Lemma first_unmatched_close_deeper source : ∀ d,
  0 ≤ d →
  match first_unmatched_close source d with
  | Some k =>
      first_unmatched_close source (d + 1)
      = (λ j, (S k + j)%nat) <$> first_unmatched_close (drop (S k) source) 0
  | None => first_unmatched_close source (d + 1) = None
  end.
Proof.
  induction source as [|ch rest IH]; intros d Hd; simpl; [done|].
  assert (-1 ≤ bracket_delta ch ≤ 1) as Hdelta.
  { unfold bracket_delta. destruct (ch =? "[")%char; [lia|].
    destruct (ch =? "]")%char; lia. }
  destruct (d + bracket_delta ch <? 0) eqn:E.
  - apply Z.ltb_lt in E. assert (d + 1 + bracket_delta ch = 0) as -> by lia.
    simpl. rewrite drop_0. by destruct (first_unmatched_close rest 0).
  - apply Z.ltb_ge in E.
    replace (d + 1 + bracket_delta ch <? 0) with false by (symmetry; apply Z.ltb_ge; lia).
    specialize (IH (d + bracket_delta ch) E).
    replace (d + 1 + bracket_delta ch) with (d + bracket_delta ch + 1) by lia.
    destruct (first_unmatched_close rest (d + bracket_delta ch)) as [k|]; simpl.
    + rewrite IH. by destruct (first_unmatched_close (drop (S k) rest) 0).
    + by rewrite IH.
Qed.

Lemma first_unmatched_close_split source k :
  first_unmatched_close source 0 = Some k →
  drop k source = "]"%char :: drop (S k) source ∧
  bracket_counter source = -1 + bracket_counter (drop (S k) source).
Proof.
  intros H. apply first_unmatched_close_Some in H as (Hk & Hneg & Hpos); [|done].
  split; [by apply drop_S|].
  rewrite <- (take_drop (S k) source) at 1. rewrite bracket_counter_app.
  specialize (Hpos k (Nat.le_refl k)).
  rewrite (take_S_r _ _ _ Hk), bracket_counter_app in Hneg |- *.
  change (bracket_counter ["]"%char]) with (-1) in *. lia.
Qed.

Lemma parse_upto_complete fuel : ∀ source,
  (length source < fuel)%nat →
  match first_unmatched_close source 0 with
  | Some k => ∃ prog, parse_upto fuel source = Some (prog, drop k source)
  | None => bracket_counter source = 0 → ∃ prog, parse_upto fuel source = Some (prog, [])
  end.
Proof.
  induction fuel as [|fuel IH]; intros source Hlen; [lia|].
  destruct source as [|ch rest]; [by exists []|].
  simpl in Hlen. cbn [parse_upto first_unmatched_close bracket_counter].
  unfold bracket_delta.
  destruct (Ascii.eqb_spec ch "[") as [->|Hopen].
  - change ("[" =? "]")%char with false. cbv iota. rewrite Z.add_0_l.
    change (1 <? 0) with false. cbv iota.
    pose proof (IH rest ltac:(lia)) as IHbody.
    pose proof (first_unmatched_close_deeper rest 0 ltac:(done)) as Hdeep.
    rewrite Z.add_0_l in Hdeep.
    destruct (first_unmatched_close rest 0) as [k1|] eqn:Hk1.
    + destruct IHbody as (body & ->). cbn [mbind option_bind].
      destruct (first_unmatched_close_split rest k1 Hk1) as [Hdrop Hcount].
      rewrite Hdrop, Hdeep.
      pose proof (IH (drop (S k1) rest) ltac:(rewrite length_drop; lia)) as IHrest.
      destruct (first_unmatched_close (drop (S k1) rest) 0) as [k2|]; simpl.
      * destruct IHrest as (prog2 & ->). cbn [mbind option_bind].
        eexists. f_equal. f_equal. rewrite drop_drop. f_equal. 
      * intros H0. destruct IHrest as (prog2 & ->); [lia|].
        cbn [mbind option_bind]. by eexists.
    + rewrite Hdeep. simpl. intros H0.
      pose proof (proj1 (first_unmatched_close_None rest 0 ltac:(done)) Hk1
                    (length rest)) as Hall.
      rewrite take_ge in Hall by lia. lia.
  - destruct (Ascii.eqb_spec ch "]") as [->|Hclose].
    + simpl. by eexists.
    + rewrite Z.add_0_l. change (0 <? 0) with false. cbv iota.
      pose proof (IH rest ltac:(lia)) as IHrest.
      destruct (first_unmatched_close rest 0) as [k|]; simpl.
      * destruct IHrest as (prog & ->). cbn [mbind option_bind].
        destruct (simple_cmd ch); by eexists.
      * intros H0. destruct IHrest as (prog & ->); [lia|]. cbn [mbind option_bind].
        destruct (simple_cmd ch); by eexists.
Qed.

Lemma checkBrackets_parse source c c' :
  checkBrackets source c = Some (true, c') → ∃ prog, parse source = Some prog.
Proof.
  intros [Hnone Hzero]%checkBrackets_true. unfold parse.
  pose proof (parse_upto_complete (S (length (String.list_ascii_of_string source)))
                (String.list_ascii_of_string source) ltac:(lia)) as H.
  rewrite Hnone in H. destruct (H Hzero) as (prog & ->). by exists prog.
Qed.

(** ** What [compile] hands to the back end *)

Lemma setOptimization_Insert o i c :
  setOptimization o (Insert i c) = Insert i (setOptimization o c).
Proof. unfold Insert. simpl. by destruct (m_insertBlock c). Qed.

Lemma setOptimization_Inserts o code : ∀ c,
  setOptimization o (Inserts code c) = Inserts code (setOptimization o c).
Proof.
  induction code as [|i code IH]; intros c; [done|].
  change (Inserts (i :: code) ?x) with (Inserts code (Insert i x)).
  by rewrite IH, setOptimization_Insert.
Qed.

Lemma setOptimization_handleLoopStart o ip c :
  setOptimization o (handleLoopStart ip c) = handleLoopStart ip (setOptimization o c).
Proof.
  rewrite !handleLoopStart_eq. cbv zeta.
  change (setOptimization o (set_loopBlocks ?a ?b ?x))
    with (set_loopBlocks a b (setOptimization o x)).
  change (setOptimization o (SetInsertPoint ?a ?x))
    with (SetInsertPoint a (setOptimization o x)).
  rewrite setOptimization_Inserts.
  change (setOptimization o (SetInsertPoint ?a ?x))
    with (SetInsertPoint a (setOptimization o x)).
  rewrite setOptimization_Insert.
  reflexivity.
Qed.

Lemma setOptimization_handleLoopEnd o ip c :
  setOptimization o (handleLoopEnd ip c) = handleLoopEnd ip (setOptimization o c).
Proof.
  unfold handleLoopEnd, CreateBr.
  change (m_loopStartBlocks (setOptimization o c)) with (m_loopStartBlocks c).
  change (m_loopEndBlocks (setOptimization o c)) with (m_loopEndBlocks c).
  destruct (m_loopStartBlocks c), (m_loopEndBlocks c); try reflexivity.
  change (setOptimization o (SetInsertPoint ?a ?x))
    with (SetInsertPoint a (setOptimization o x)).
  by rewrite setOptimization_Insert.
Qed.

Lemma setOptimization_generateIR_step o i ch c :
  setOptimization o (generateIR_step i ch c) = generateIR_step i ch (setOptimization o c).
Proof.
  unfold generateIR_step.
  destruct (not_instruction ch); [reflexivity|].
  change (set_statistics
            (statistics_incr ch (m_statistics (set_currentIP i (setOptimization o c))))
            (set_currentIP i (setOptimization o c)))
    with (setOptimization o
            (set_statistics (statistics_incr ch (m_statistics (set_currentIP i c)))
               (set_currentIP i c))).
  set (c1 := set_statistics _ _). clearbody c1.
  destruct (ch =? ">")%char;
    [rewrite !handleIncrementPtr_Inserts; apply setOptimization_Inserts|].
  destruct (ch =? "<")%char;
    [rewrite !handleDecrementPtr_Inserts; apply setOptimization_Inserts|].
  destruct (ch =? "+")%char;
    [rewrite !handleIncrementByte_Inserts; apply setOptimization_Inserts|].
  destruct (ch =? "-")%char;
    [rewrite !handleDecrementByte_Inserts; apply setOptimization_Inserts|].
  destruct (ch =? ".")%char;
    [rewrite !handleOutput_Inserts; apply setOptimization_Inserts|].
  destruct (ch =? ",")%char;
    [rewrite !handleInput_Inserts; apply setOptimization_Inserts|].
  destruct (ch =? "[")%char; [apply setOptimization_handleLoopStart|].
  destruct (ch =? "]")%char; [apply setOptimization_handleLoopEnd|].
  reflexivity.
Qed.

Lemma setOptimization_generateIR o source c :
  setOptimization o (generateIR source c) = generateIR source (setOptimization o c).
Proof.
  unfold generateIR, CreateRet. rewrite setOptimization_Insert. f_equal.
  change (set_currentIP 0 (setOptimization o c))
    with (setOptimization o (set_currentIP 0 c)).
  generalize (set_currentIP 0 c) as c0. generalize 0%nat as i.
  induction (String.list_ascii_of_string source) as [|ch rest IH]; intros i c0; simpl.
  - reflexivity.
  - by rewrite IH, setOptimization_generateIR_step.
Qed.

Lemma before_generateIR_after_setup N opt :
  before_generateIR N opt false = setOptimization opt (after_setup N).
Proof. destruct opt; vm_compute; reflexivity. Qed.

(** The compiler [compile] generates code in, for a new compiler of
    size [N], is the translation studied here, up to the switches. *)
Lemma generated_is_translate N opt dbg source :
  without_debug (generateIR source (before_generateIR N opt dbg))
  = setOptimization opt (translate N source).
Proof.
  rewrite without_debug_generateIR, without_debug_before_generateIR.
  rewrite before_generateIR_after_setup. unfold translate.
  by rewrite setOptimization_generateIR.
Qed.



(** ** Every block ends in one terminator *)

Lemma open_block_app code1 code2 :
  open_block (code1 ++ code2) = open_block code1 && open_block code2.
Proof. unfold open_block. apply forallb_app. Qed.

Lemma complete_block_snoc code t :
  open_block code = true → is_terminator t = true → complete_block (code ++ [t]) = true.
Proof.
  induction code as [|i code IH]; intros Hopen Ht; simpl; [done|].
  simpl in Hopen. apply andb_prop in Hopen as [Hi Hopen].
  rewrite Hi, IH by done. by destruct code.
Qed.

Lemma char_cases ch :
  not_instruction ch = true ∨ (∃ cmd, simple_cmd ch = Some cmd) ∨
  ch = "["%char ∨ ch = "]"%char.
Proof.
  destruct (Ascii.eqb_spec ch "["); [auto|]. destruct (Ascii.eqb_spec ch "]"); [auto|].
  destruct (simple_cmd ch) as [cmd|] eqn:E; [eauto|].
  left. apply simple_cmd_None_skip; [by apply Ascii.eqb_neq..|done].
Qed.

Lemma is_code_of_open p g cmd code : is_code_of p g cmd code → open_block code = true.
Proof. unfold is_code_of. destruct cmd; try done; by intros ->. Qed.

Lemma if_bool_decide_iff (P Q : Prop) `{!Decision P, !Decision Q} (A B : Prop) :
  (P ↔ Q) → (if bool_decide P then A else B) → (if bool_decide Q then A else B).
Proof. intros H. by rewrite (bool_decide_ext P Q H). Qed.

Lemma blocks_in_order_generateIR_step i ch c :
  translating c → blocks_in_order c → blocks_in_order (generateIR_step i ch c).
Proof.
  intros Htr Hord. pose proof Htr as (Hready & Hnodup & Hends).
  pose proof Hready as (b & Hb & Hlt & _)%ready_inv.
  pose proof (proj1 (ready_iff c) Hready) as (_ & _ & _ & _ & _ & Hok).
  set (c1 := set_statistics (statistics_incr ch (m_statistics c)) (set_currentIP i c)).
  assert (m_insertBlock c1 = Some b) as Hb1 by exact Hb.
  assert (blocks_in_order c1) as Hord1 by exact Hord.
  assert (ready c1 = true) as Hready1 by exact Hready.
  assert ((b < length (blocks (m_module c1)))%nat) as Hlt1 by exact Hlt.
  assert (∀ e, e ∈ m_loopEndBlocks c1 → e ≠ b ∧ (e < length (blocks (m_module c1)))%nat)
    as Hends1.
  { intros e He. split.
    - intros ->. by destruct (Hends b He).
    - apply (Hok e). by apply list_elem_of_In. }
  assert (NoDup (m_loopEndBlocks c1)) as Hnodup1 by exact Hnodup.
  assert (open_block (block_instrs c1 b) = true) as Hopenb.
  { specialize (Hord1 b Hlt1). rewrite bool_decide_eq_true_2 in Hord1 by (by left). done. }
  destruct (char_cases ch) as [Hskip|[[cmd Hcmd]|[->| ->]]].
  - rewrite generateIR_step_skip by done. exact Hord.
  - destruct (generateIR_step_simple_cmd i ch cmd c Hcmd Hready) as (code & -> & Hcode).
    fold c1. apply is_code_of_open in Hcode.
    destruct (Inserts_fields code c1) as (_&G1&_&_&_&_&_&G2&_&_&G3).
    intros k Hk. rewrite G1, G2. rewrite G3 in Hk.
    destruct (decide (k = b)) as [->|Hne].
    + rewrite bool_decide_eq_true_2 by (by left).
      rewrite Inserts_block_instrs, open_block_app by done. by rewrite Hopenb, Hcode.
    + rewrite (Inserts_block_instrs_ne code c1 b k) by done. by apply Hord1.
  - rewrite generateIR_step_open. fold c1.
    destruct (handleLoopStart_fields i c1) as (_&_&_&_&_&_&_&G1&G2&_&G3).
    destruct (handleLoopStart_blocks i c1 b Hb1 Hlt1) as (B1 & B2 & B3 & B4).
    cbv zeta in B1, B2, B3, B4.
    set (n := length (blocks (m_module c1))) in *.
    intros k Hk. rewrite G1 in Hk. rewrite G2, G3.
    assert (∀ e, e ∈ m_loopEndBlocks c1 → e ≠ b ∧ (e < n)%nat) as Hends1' by exact Hends1.
    destruct (decide (k = b)) as [->|Hnb].
    { rewrite bool_decide_eq_false_2.
      - rewrite B1. by apply complete_block_snoc.
      - intros [[= ?]|[?|Hin]%elem_of_cons]; [lia..|]. by destruct (Hends1' b Hin). }
    destruct (decide (k = n)) as [->|Hnn].
    { rewrite bool_decide_eq_false_2.
      - rewrite B2. reflexivity.
      - intros [[= ?]|[?|Hin]%elem_of_cons]; [lia..|]. destruct (Hends1' n Hin). lia. }
    destruct (decide (k = S n)) as [->|Hn1].
    { rewrite bool_decide_eq_true_2 by (by left). by rewrite B3. }
    destruct (decide (k = S (S n))) as [->|Hn2].
    { rewrite bool_decide_eq_true_2 by (right; apply elem_of_cons; by left). by rewrite B4. }
    rewrite (handleLoopStart_blocks_other i c1 b k) by (done || (fold n; lia)).
    eapply if_bool_decide_iff; [|apply (Hord1 k); fold n; lia].
    rewrite Hb1. split.
    + intros [[= ?]|Hin]; [done|]. right. apply elem_of_cons. by right.
    + intros [[= ?]|[?|Hin]%elem_of_cons]; [lia..|]. by right.
  - rewrite generateIR_step_close. fold c1.
    destruct (m_loopStartBlocks c1) as [|h starts] eqn:Es;
      [rewrite handleLoopEnd_empty by (by left); exact Hord1|].
    destruct (m_loopEndBlocks c1) as [|e0 ends] eqn:Ee;
      [rewrite handleLoopEnd_empty by (by right); exact Hord1|].
    destruct (handleLoopEnd_blocks i c1 h starts e0 ends b Es Ee Hb1 Hlt1) as (E1 & E2 & E3).
    destruct (handleLoopEnd_fields i c1) as (_&_&_&_&_&_&G1).
    assert (m_loopEndBlocks (handleLoopEnd i c1) = ends) as G2.
    { rewrite (handleLoopEnd_nonempty i c1 h starts e0 ends Es Ee).
      change (m_loopEndBlocks (SetInsertPoint ?z ?w)) with (m_loopEndBlocks w).
      by destruct (Insert_fields (Br h) (set_loopBlocks starts ends c1))
        as (_&_&_&_&_&_&_&_&_&->&_). }
    apply NoDup_cons in Hnodup1 as [Hnotin Hnodup1].
    intros k Hk. rewrite G1 in Hk. rewrite E3, G2.
    destruct (decide (k = b)) as [->|Hnb].
    { rewrite bool_decide_eq_false_2.
      - rewrite E1. by apply complete_block_snoc.
      - intros [[= ?]|Hin].
        + destruct (Hends1 e0); [apply elem_of_cons; by left|]. done.
        + destruct (Hends1 b); [apply elem_of_cons; by right|]. done. }
    rewrite E2 by done.
    eapply if_bool_decide_iff; [|apply (Hord1 k Hk)].
    rewrite Hb1, Ee. split.
    + intros [[= ?]|[->|Hin]%elem_of_cons]; [done|by left|by right].
    + intros [[= ->]|Hin]; right; apply elem_of_cons; [by left|by right].
Qed.

Lemma blocks_in_order_generateIR_loop source : ∀ i c,
  translating c → blocks_in_order c → blocks_in_order (generateIR_loop i source c).
Proof.
  induction source as [|ch rest IH]; intros i c Htr Hord; simpl; [done|].
  apply IH; [by apply translating_generateIR_step|by apply blocks_in_order_generateIR_step].
Qed.

Lemma block_labels_length c : length (block_labels c) = length (blocks (m_module c)).
Proof. unfold block_labels. apply length_fmap. Qed.

Lemma blocks_in_order_after_setup N : blocks_in_order (after_setup N).
Proof.
  destruct (after_setup_entry N) as (Hentry & Hib & _ & Hends & _ & Hlabels).
  assert (length (blocks (m_module (after_setup N))) = 1%nat) as Hlen.
  { rewrite <- block_labels_length, Hlabels. reflexivity. }
  unfold blocks_in_order. rewrite Hlen, Hib, Hends. intros k Hk.
  assert (k = 0%nat) as -> by lia.
  rewrite bool_decide_eq_true_2 by (left; reflexivity).
  rewrite Hentry, emitted_allocateMemory. reflexivity.
Qed.

Lemma blocks_in_order_set_currentIP i c :
  blocks_in_order c → blocks_in_order (set_currentIP i c).
Proof. intros H. exact H. Qed.

(** X12.  The module of an accepted source is well formed in its
    terminators: every basic block of [translate N source] holds exactly
    one terminator ([br] or [ret]), as its last instruction. *)
Theorem translated_blocks_are_complete (N : Z) (source : string) c c' :
  checkBrackets source c = Some (true, c') →
  ∀ k bb, blocks (m_module (translate N source)) !! k = Some bb →
          complete_block (bb_instrs bb) = true.
Proof.
  intros (prog & Hparse%parse_parses)%checkBrackets_parse.
  set (chars := String.list_ascii_of_string source) in *.
  set (c0 := set_currentIP 0 (after_setup N)).
  set (cL := generateIR_loop 0 chars c0).
  set (cT := Insert (Ret (ConstantInt Int32Ty 0)) cL).
  assert (translate N source = cT) as -> by reflexivity.
  destruct (after_setup_entry N) as (_ & _ & _ & Hends & _).
  destruct (set_currentIP_fields 0 (after_setup N)) as (_ & _ & S3 & _).
  fold c0 in S3.
  assert (translating c0) as Htr0
    by apply translating_set_currentIP, translating_after_setup.
  assert (blocks_in_order c0) as Hord0
    by apply blocks_in_order_set_currentIP, blocks_in_order_after_setup.
  assert (translating cL) as HtrL by (by apply translating_generateIR_loop).
  assert (blocks_in_order cL) as HordL by (by apply blocks_in_order_generateIR_loop).
  destruct (parses_stacks chars prog Hparse 0%nat c0) as [_ HendsL]. fold cL in HendsL.
  rewrite S3, Hends in HendsL.
  pose proof HtrL as (HreadyL & _).
  pose proof HreadyL as (bL & HbL & HltL & _)%ready_inv.
  clearbody cL. clear Htr0 Hord0 S3 Hends. clearbody c0.
  intros k bb Hk.
  assert (block_instrs cT k = bb_instrs bb) as <- by (unfold block_instrs; by rewrite Hk).
  assert ((k < length (blocks (m_module cL)))%nat) as Hlt.
  { apply lookup_lt_Some in Hk. subst cT.
    destruct (Insert_fields (Ret (ConstantInt Int32Ty 0)) cL)
      as (_&_&_&_&_&_&_&_&_&_&_&_&_&Hlen).
    rewrite Hlen in Hk. exact Hk. }
  specialize (HordL k Hlt). rewrite HbL, HendsL in HordL. subst cT.
  destruct (decide (k = bL)) as [->|Hne].
  - rewrite Insert_block_instrs by done. apply complete_block_snoc; [|done].
    rewrite bool_decide_eq_true_2 in HordL by (by left). done.
  - rewrite (Insert_block_instrs_ne _ _ bL k) by done.
    rewrite bool_decide_eq_false_2 in HordL; [done|].
    intros [[= ?]|Hin]; [done|]. by apply elem_of_nil in Hin.
Qed.

Lemma translated_blocks_are_complete_witness :
  checkBrackets "+[-]" (BrainfuckCompiler_new 8) = Some (true, BrainfuckCompiler_new 8) ∧
  Forall (λ bb, complete_block (bb_instrs bb) = true)
    (blocks (m_module (translate 8 "+[-]"))).
Proof.
  split; [vm_compute; reflexivity|].
  apply Forall_lookup.
  apply (translated_blocks_are_complete 8 "+[-]"
           (BrainfuckCompiler_new 8) (BrainfuckCompiler_new 8)).
  vm_compute. reflexivity.
Defined.

(** ** The code of [.] *)

Lemma emitted_handleOutput c :
  ready c = true →
  emitted handleOutput c =
  [Load Int8Ty (Named "dataptr") "current_ptr";
   Load Int8Ty (Named "current_ptr") "output_val";
   ZExt (Named "output_val") Int32Ty "output_int";
   Call (m_putcharFunc c) [Named "output_int"] ""].
Proof.
  intros (b & Hb & Hlt & Hd & _)%ready_inv.
  rewrite (emitted_Inserts _ _ _ _ Hb Hlt (handleOutput_Inserts c)).
  by rewrite Hd.
Qed.

(** ** The blocks of the module *)

Lemma loop_labels_length source : ∀ ip f,
  length (loop_labels ip source f) =
  (3 * length (List.filter (λ ch, (ch =? "[")%char) source))%nat.
Proof.
  induction source as [|ch rest IH]; intros ip f; simpl; [done|].
  rewrite length_app, IH. destruct (ch =? "[")%char; simpl; lia.
Qed.

(** X11.  The blocks [generateIR] leaves in the module, for any source: the
    entry block of [main], then for each '[' of the source, in the order
    of the source, a header, a body and an exit block named after the
    offset of that '['; nothing else creates a block, so the module has
    one block and three more for each '['. *)
Theorem translate_blocks (N : Z) (source : string) :
  block_labels (translate N source) =
    ("entry", 0%nat) :: loop_labels 0 (String.list_ascii_of_string source) 0 ∧
  length (blocks (m_module (translate N source))) =
    S (3 * length (List.filter (λ ch, (ch =? "[")%char)
                     (String.list_ascii_of_string source))).
Proof.
  assert (block_labels (translate N source) =
            ("entry", 0%nat) :: loop_labels 0 (String.list_ascii_of_string source) 0) as H.
  { set (chars := String.list_ascii_of_string source).
    set (c0 := set_currentIP 0 (after_setup N)).
    set (cL := generateIR_loop 0 chars c0).
    assert (translate N source = Insert (Ret (ConstantInt Int32Ty 0)) cL) as ->
      by reflexivity.
    rewrite block_labels_Insert. subst cL.
    destruct (block_labels_generateIR_loop chars 0 c0) as [-> _].
    destruct (after_setup_entry N) as (_ & _ & _ & _ & Hmain & Hlabels).
    destruct (set_currentIP_fields 0 (after_setup N)) as (_ & _ & _ & S4 & S5 & _).
    fold c0 in S4, S5. rewrite S4, S5, Hmain, Hlabels. reflexivity. }
  split; [exact H|].
  rewrite <- block_labels_length, H. simpl. by rewrite loop_labels_length.
Qed.

(** ** The emitted code against the rules on pointer operands *)

Lemma pointer_operands_ok_app env code1 : ∀ code2,
  (∀ env', pointer_operands_ok env' code2 = false) →
  ∀ rest, pointer_operands_ok env (code1 ++ code2 ++ rest) = false.
Proof.
  intros code2 H rest. revert env.
  induction code1 as [|i code1 IH]; intros env.
  - simpl. revert env. revert H. clear.
    induction code2 as [|i code2 IH]; intros H env.
    + specialize (H env). done.
    + (* the failure lies in [i :: code2], wherever [rest] goes *)
      specialize (H env). simpl in *.
      apply andb_false_iff in H as [H|H]; [by rewrite H|].
      apply andb_false_iff. right.
      revert H. generalize (match result_is_pointer i with
                            | Some (name, p) => <[name:=p]> env
                            | None => env
                            end).
      clear. induction code2 as [|j code2 IH2]; intros env' H; [done|].
      simpl in *. apply andb_false_iff in H as [H|H]; [by rewrite H|].
      apply andb_false_iff. right. by apply IH2.
  - simpl. apply andb_false_iff. right. apply IH.
Qed.

Lemma pointer_operands_ok_prefix env code block :
  pointer_operands_ok env code = false → code `prefix_of` block →
  pointer_operands_ok env block = false.
Proof.
  intros H [rest ->]. revert env H.
  induction code as [|i code IH]; intros env H; [done|].
  simpl in *. apply andb_false_iff in H as [H|H]; [by rewrite H|].
  apply andb_false_iff. right. by apply IH.
Qed.

Lemma module_pointer_operands_ok_false (M : Module) (k : nat) (bb : BasicBlock) :
  blocks M !! k = Some bb → pointer_operands_ok ∅ (bb_instrs bb) = false →
  module_pointer_operands_ok M = false.
Proof.
  intros Hk H. unfold module_pointer_operands_ok.
  apply not_true_is_false. intros Hall. rewrite forallb_forall in Hall.
  rewrite Hall in H; [done|]. apply list_elem_of_In. by eapply list_elem_of_lookup_2.
Qed.

(** A load of the data pointer slot followed by a use of the loaded
    value as an address: the value is an [i8]. *)
Lemma load_then_load_ill_typed env name rest :
  pointer_operands_ok env
    (Load Int8Ty (Named "dataptr") "current_ptr" ::
     Load Int8Ty (Named "current_ptr") name :: rest) = false.
Proof.
  simpl. apply andb_false_iff. right. apply andb_false_iff. left.
  by rewrite lookup_insert_eq.
Qed.

Lemma load_then_gep_ill_typed env d name rest :
  pointer_operands_ok env
    (Load Int8Ty (Named "dataptr") "current_ptr" ::
     ConstGEP1_32 Int8Ty (Named "current_ptr") d name :: rest) = false.
Proof.
  simpl. apply andb_false_iff. right. apply andb_false_iff. left.
  by rewrite lookup_insert_eq.
Qed.

Lemma block_instrs_lookup c k code :
  block_instrs c k = code → code ≠ [] →
  ∃ bb, blocks (m_module c) !! k = Some bb ∧ bb_instrs bb = code.
Proof.
  unfold block_instrs. destruct (blocks (m_module c) !! k) as [bb|]; [|congruence].
  intros H _. by exists bb.
Qed.

(** ** C10: input *)

(** C10.  At any point of a translation, the code of [,] is: call the
    input primitive, truncate its result to 8 bits, load the data
    pointer slot as an [i8], store the truncated byte through the value
    loaded.  There is no test of the result, as the claim says.  But the
    address operand of the [store] is the byte just loaded, not a
    pointer: the first three instructions meet the rules on pointer
    operands, the [store] does not, whatever came before in the block
    and whatever follows.  LLVM does not accept this code, so no cell
    receives the byte read. *)
Theorem C10_input_is_stored_through_a_byte (c : BrainfuckCompiler) :
  ready c = true →
  let code := [Call (m_getcharFunc c) [] "input_char";
               Trunc (Named "input_char") Int8Ty "input_byte";
               Load Int8Ty (Named "dataptr") "current_ptr";
               Store (Named "input_byte") (Named "current_ptr")] in
  emitted handleInput c = code ∧
  pointer_operands_ok (<["dataptr" := true]> ∅) (take 3 code) = true ∧
  (∀ env before after, pointer_operands_ok env (before ++ code ++ after) = false).
Proof.
  intros Hready code. split; [by apply emitted_handleInput|]. split; [reflexivity|].
  intros env before after. apply pointer_operands_ok_app. clear env.
  intros env. unfold code. simpl.
  rewrite lookup_insert_eq. simpl. by rewrite !andb_false_r.
Qed.

Lemma C10_input_witness :
  ready (after_setup 30000) = true ∧
  pointer_operands_ok ∅
    (block_instrs (after_setup 30000) 0 ++ emitted handleInput (after_setup 30000) ++
     [Ret (ConstantInt Int32Ty 0)]) = false.
Proof.
  assert (ready (after_setup 30000) = true) as Hready by (vm_compute; reflexivity).
  split; [exact Hready|].
  destruct (C10_input_is_stored_through_a_byte (after_setup 30000) Hready) as (-> & _ & H).
  apply H.
Defined.

(** ** What every handler emits *)

(** X8.  At any point of a translation, the code of each of [>], [<],
    [+], [-], [.] and [,] breaks the rules on pointer operands by
    itself, whatever came before it in the block and whatever follows:
    each handler loads the data pointer slot as an [i8] and then uses
    the byte as the base of a [getelementptr] or as the address of a
    [load] or a [store]. *)
Theorem handlers_emit_ill_typed_code (c : BrainfuckCompiler) :
  ready c = true →
  Forall (λ handler : BrainfuckCompiler → BrainfuckCompiler,
            ∀ env before after,
              pointer_operands_ok env (before ++ emitted handler c ++ after) = false)
    [handleIncrementPtr; handleDecrementPtr; handleIncrementByte; handleDecrementByte;
     handleOutput; handleInput].
Proof.
  intros Hready.
  assert (∀ handler : BrainfuckCompiler → BrainfuckCompiler,
            (∀ env, pointer_operands_ok env (emitted handler c) = false) →
            ∀ env before after,
              pointer_operands_ok env (before ++ emitted handler c ++ after) = false)
    as Hgen by (intros handler H env before after; by apply pointer_operands_ok_app).
  repeat apply Forall_cons_2; [..|apply Forall_nil_2]; apply Hgen; intros env.
  - rewrite emitted_handleIncrementPtr by done. apply load_then_gep_ill_typed.
  - rewrite emitted_handleDecrementPtr by done. apply load_then_gep_ill_typed.
  - rewrite emitted_handleIncrementByte by done. apply load_then_load_ill_typed.
  - rewrite emitted_handleDecrementByte by done. apply load_then_load_ill_typed.
  - rewrite emitted_handleOutput by done. apply load_then_load_ill_typed.
  - rewrite emitted_handleInput by done. simpl.
    rewrite lookup_insert_eq. simpl. by rewrite !andb_false_r.
Qed.

Lemma handlers_emit_ill_typed_code_witness :
  Forall (λ handler : BrainfuckCompiler → BrainfuckCompiler,
            ∀ env before after,
              pointer_operands_ok env
                (before ++ emitted handler (after_setup 30000) ++ after) = false)
    [handleIncrementPtr; handleDecrementPtr; handleIncrementByte; handleDecrementByte;
     handleOutput; handleInput].
Proof.
  apply (handlers_emit_ill_typed_code (after_setup 30000)). vm_compute. reflexivity.
Defined.

(** ** C4: loops *)

(** C4.  At any point of a translation, let [n] be the number of blocks
    so far.  For a '[' at offset [ip], [handleLoopStart] creates three
    empty blocks, the header [n], the body [n + 1] and the exit [n + 2];
    it ends the current block with a jump to the header, fills the header
    with four instructions and leaves the builder in the body.  Whatever
    is translated afterwards, the header keeps exactly these
    instructions and is the only block with a branch to the body.  After
    a balanced body, the ']' finds this header and exit on top of the
    loop stacks: [handleLoopEnd] ends the current block with a jump back
    to the header, leaves the builder in the exit block and the stacks
    as they were before the '['.  So far the control flow is the one of
    the claim.  But the header does not load the current cell: it loads
    the data pointer slot as an [i8] and uses that byte as the address
    of the load whose result it compares with 0.  The header breaks the
    rules on pointer operands whatever precedes it, and so does every
    module that holds it: LLVM accepts no program with this loop. *)
Theorem C4_loop_header_loads_through_a_byte
    (c : BrainfuckCompiler) (ip j : nat) (body rest : list ascii) :
  ready c = true →
  well_targeted c →
  first_unmatched_close body 0 = None →
  bracket_counter body = 0 →
  let header := length (blocks (m_module c)) in
  let body_block := S header in
  let exit := S (S header) in
  let header_code :=
    [Load Int8Ty (Named "dataptr") "current_ptr";
     Load Int8Ty (Named "current_ptr") "loop_val";
     ICmpEQ (Named "loop_val") (ConstantInt Int8Ty 0) "loop_cond";
     CondBr (Named "loop_cond") exit body_block] in
  let c1 := handleLoopStart ip c in
  let c2 := generateIR_loop (S ip) body c1 in
  let c3 := handleLoopEnd j c2 in
  (∃ b, m_insertBlock c = Some b ∧
        block_instrs c1 b = (block_instrs c b ++ [Br header])%list) ∧
  block_instrs c1 header = header_code ∧
  block_instrs c1 body_block = [] ∧
  block_instrs c1 exit = [] ∧
  m_insertBlock c1 = Some body_block ∧
  block_instrs (generateIR_loop (S j) rest c3) header = header_code ∧
  (∃ b2, m_insertBlock c2 = Some b2 ∧
         block_instrs c3 b2 = (block_instrs c2 b2 ++ [Br header])%list) ∧
  m_insertBlock c3 = Some exit ∧
  m_loopStartBlocks c3 = m_loopStartBlocks c ∧
  m_loopEndBlocks c3 = m_loopEndBlocks c ∧
  (∀ k, jumps_to (generateIR_loop (S j) rest c3) k body_block → k = header) ∧
  (∀ env, pointer_operands_ok env header_code = false) ∧
  module_pointer_operands_ok (m_module (generateIR_loop (S j) rest c3)) = false.
Proof.
  intros Hready Hwt Hnone Hzero header body_block exit header_code c1 c2 c3.
  assert (∀ k, jumps_to (generateIR_loop (S j) rest c3) k body_block → k = header)
    as Honly.
  { apply entered_only_from_generateIR_loop, entered_only_from_handleLoopEnd,
      entered_only_from_generateIR_loop.
    by apply entered_only_from_loop_start. }
  pose proof Hready as Hready0.
  apply ready_iff in Hready0 as ((b & Hb & Hlt) & Hdp & _ & _ & Hstarts & Hends).
  destruct (handleLoopStart_blocks ip c b Hb Hlt) as (B1 & B2 & B3 & B4).
  cbv zeta in B1, B2, B3, B4. rewrite Hdp in B2.
  destruct (handleLoopStart_fields ip c) as (_&_&_&_&_&_&_&F1&F2&F3&F4).
  fold c1 header in B1, B2, B3, B4, F1, F2, F3, F4.
  (* the stacks across the balanced body *)
  destruct (generateIR_loop_stacks body (S ip) c1 [] []
              (header :: m_loopStartBlocks c) (exit :: m_loopEndBlocks c))
    as (topS & topE & S1 & S2 & S3 & S4); [done..|].
  fold c2 in S1, S2. rewrite Hzero in S4. simpl in S4.
  assert (topS = []) as -> by (apply length_zero_iff_nil; lia).
  assert (topE = []) as -> by (apply length_zero_iff_nil; lia).
  simpl in S1, S2.
  (* the builder after the body *)
  assert (ready c2 = true) as Hready2
    by (by apply ready_generateIR_loop, ready_handleLoopStart).
  pose proof Hready2 as Hready2'.
  apply ready_iff in Hready2' as ((b2 & Hb2 & Hlt2) & _).
  assert (c3 = SetInsertPoint exit
                 (Insert (Br header)
                    (set_loopBlocks (m_loopStartBlocks c) (m_loopEndBlocks c) c2))) as Hc3
    by (by apply handleLoopEnd_nonempty).
  (* the header is finished *)
  assert (finished_block c1 header) as Hfin1.
  { unfold finished_block. rewrite F1, F2, F4. split; [lia|]. split.
    - intros [= ?]. lia.
    - intros [?|Hin]; [lia|]. specialize (Hends _ Hin). lia. }
  destruct (finished_generateIR_loop body (S ip) c1 header Hfin1) as [Hfin2 Hb2'].
  fold c2 in Hfin2, Hb2'.
  destruct (finished_handleLoopEnd j c2 header Hfin2) as [Hfin3 Hb3].
  fold c3 in Hfin3, Hb3.
  destruct (finished_generateIR_loop rest (S j) c3 header Hfin3) as [_ Hb4].
  destruct (Insert_fields (Br header)
              (set_loopBlocks (m_loopStartBlocks c) (m_loopEndBlocks c) c2))
    as (_&_&_&_&_&_&_&_&I1&I2&_).
  assert (block_instrs (generateIR_loop (S j) rest c3) header = header_code) as Hkept
    by (by rewrite Hb4, Hb3, Hb2').
  assert (∀ env, pointer_operands_ok env header_code = false) as Hill
    by (intros env; apply load_then_load_ill_typed).
  split; [by exists b|].
  split; [exact B2|]. split; [exact B3|]. split; [exact B4|]. split; [exact F2|].
  split; [exact Hkept|].
  split.
  { exists b2. split; [exact Hb2|]. rewrite Hc3.
    change (block_instrs (SetInsertPoint ?z ?w)) with (block_instrs w).
    by rewrite Insert_block_instrs. }
  split; [by rewrite Hc3|].
  split; [rewrite Hc3; exact I1|]. split; [rewrite Hc3; exact I2|].
  split; [exact Honly|]. split; [exact Hill|].
  destruct (block_instrs_lookup _ _ _ Hkept ltac:(done)) as (bb & Hbb & Hcode).
  apply (module_pointer_operands_ok_false _ header bb Hbb). rewrite Hcode. apply Hill.
Qed.

Lemma C4_loop_header_witness :
  let c := after_setup 30000 in
  let header := length (blocks (m_module c)) in
  let c1 := handleLoopStart 0 c in
  let c3 := handleLoopEnd 2 (generateIR_loop 1 ["-"%char] c1) in
  ready c = true ∧
  first_unmatched_close ["-"%char] 0 = None ∧
  bracket_counter ["-"%char] = 0 ∧
  block_instrs c1 header =
    [Load Int8Ty (Named "dataptr") "current_ptr";
     Load Int8Ty (Named "current_ptr") "loop_val";
     ICmpEQ (Named "loop_val") (ConstantInt Int8Ty 0) "loop_cond";
     CondBr (Named "loop_cond") (S (S header)) (S header)] ∧
  m_insertBlock c3 = Some (S (S header)) ∧
  module_pointer_operands_ok (m_module (generateIR_loop 3 [] c3)) = false.
Proof.
  intros c header c1 c3.
  destruct (C4_loop_header_loads_through_a_byte c 0 2 ["-"%char] [])
    as (_ & H2 & _ & _ & _ & _ & _ & H8 & _ & _ & _ & _ & H13).
  - vm_compute; reflexivity.
  - apply well_targeted_after_setup.
  - reflexivity.
  - reflexivity.
  - split; [vm_compute; reflexivity|]. split; [reflexivity|]. split; [reflexivity|].
    split; [exact H2|]. split; [exact H8|exact H13].
Defined.

(** ** The module as a whole *)

Lemma allocateMemory_ill_typed N :
  pointer_operands_ok ∅
    (emitted allocateMemory (createMainFunction (BrainfuckCompiler_new N))) = false.
Proof. rewrite emitted_allocateMemory. reflexivity. Qed.

Lemma translate_entry_prefix N source :
  emitted allocateMemory (createMainFunction (BrainfuckCompiler_new N))
    `prefix_of` block_instrs (translate N source) 0.
Proof.
  set (chars := String.list_ascii_of_string source).
  set (c0 := set_currentIP 0 (after_setup N)).
  set (cL := generateIR_loop 0 chars c0).
  assert (translate N source = Insert (Ret (ConstantInt Int32Ty 0)) cL) as ->
    by reflexivity.
  destruct (after_setup_entry N) as (Hentry & _).
  destruct (set_currentIP_fields 0 (after_setup N)) as (S1 & _). fold c0 in S1.
  assert (translating c0) as (Hready0 & _)
    by apply translating_set_currentIP, translating_after_setup.
  assert (ready cL = true) as HreadyL by (by apply ready_generateIR_loop).
  pose proof HreadyL as (bL & HbL & HltL & _)%ready_inv.
  rewrite <- Hentry, <- S1.
  etrans; [by apply (generateIR_loop_prefix chars 0 c0 0)|]. fold cL.
  destruct (decide (bL = 0%nat)) as [->|Hne].
  - rewrite Insert_block_instrs by done. by apply prefix_app_r.
  - by rewrite (Insert_block_instrs_ne _ _ bL 0%nat).
Qed.

(** X10.  No module this translator produces is accepted.  For every
    memory size and every source, the entry block of the module of
    [generateIR] starts with the code of [allocateMemory], which casts
    the pointer to the array to [i8] with [bitcast]: the module breaks
    the rules on pointer operands.  So with a verifier that rejects the
    modules that break these rules, as LLVM's does, [compile] on a new
    compiler without debug information never returns [true], whatever
    the source: it reports one error, a bracket error of
    [checkBrackets] or "the generated IR is invalid", and runs no back
    end. *)
Theorem compile_never_succeeds
    (verifyModule : Module → bool) (optimizeModule : Module → Module)
    (executeJIT : Module → list Message) (emitObjectFile : string → Module → list Message)
    (source outputFile : string) (enableJIT : bool) (N : Z) (opt : bool)
    (ok : bool) (c' : BrainfuckCompiler) :
  (∀ M, module_pointer_operands_ok M = false → verifyModule M = true) →
  compile verifyModule optimizeModule executeJIT emitObjectFile source outputFile enableJIT
    (setDebugInfo false (setOptimization opt (BrainfuckCompiler_new N))) = Some (ok, c') →
  module_pointer_operands_ok (m_module (translate N source)) = false ∧
  ok = false ∧
  ∃ message, cerr c' = [message] ∧
             (message = ExtraRightBracket ∨ message = BracketsDoNotMatch ∨
              message = InvalidIR).
Proof.
  intros Hverifier.
  assert (module_pointer_operands_ok (m_module (translate N source)) = false) as Hill.
  { destruct (translate_entry_prefix N source) as [rest Hrest].
    pose proof (allocateMemory_ill_typed N) as Hcode.
    destruct (block_instrs_lookup (translate N source) 0 _ Hrest) as (bb & Hbb & Hinstrs).
    { rewrite emitted_allocateMemory. done. }
    apply (module_pointer_operands_ok_false _ 0%nat bb Hbb). rewrite Hinstrs.
    by apply (pointer_operands_ok_prefix _ _ _ Hcode), prefix_app_r. }
  rewrite compile_fresh.
  destruct (bracket_verdict (String.list_ascii_of_string source) 0) as [[message|]|] eqn:Hv;
    [| |done].
  - intros [= <- <-]. split; [exact Hill|]. split; [done|].
    exists message. split; [reflexivity|].
    pose proof (checkBrackets_loop_verdict (String.list_ascii_of_string source) 0
                  (BrainfuckCompiler_new N)) as Hc.
    rewrite Hv in Hc. apply checkBrackets_loop_message in Hc.
    destruct Hc as [Hc|Hc]; apply (f_equal cerr) in Hc; simpl in Hc;
      injection Hc as ->; auto.
  - assert (checkBrackets source (after_setup N) = Some (true, after_setup N)) as Hcheck.
    { unfold checkBrackets. by rewrite checkBrackets_loop_verdict, Hv. }
    cbv zeta.
    pose proof (generated_is_translate N opt false source) as Hgen.
    set (generated := generateIR source (before_generateIR N opt false)) in *.
    assert (m_module generated = m_module (translate N source) ∧
            cerr generated = cerr (translate N source)) as (Hm & He).
    { change (m_module (without_debug generated)
                = m_module (setOptimization opt (translate N source)) ∧
              cerr (without_debug generated)
                = cerr (setOptimization opt (translate N source))).
      by rewrite Hgen. }
    assert (cerr (translate N source) = []) as Hnone.
    { unfold translate.
      destruct (generateIR_reports_nothing source (after_setup N) _ _
                  eq_refl eq_refl Hcheck) as (-> & _).
      reflexivity. }
    clearbody generated. rewrite Hm, (Hverifier _ Hill).
    intros [= <- <-]. split; [exact Hill|]. split; [done|].
    exists InvalidIR. split; [|auto]. simpl. by rewrite He, Hnone.
Qed.

Lemma compile_never_succeeds_witness :
  match compile (λ M, negb (module_pointer_operands_ok M)) (λ M, M) (λ _, []) (λ _ _, [])
          "++." "a.out" false
          (setDebugInfo false (setOptimization false (BrainfuckCompiler_new 30000))) with
  | Some (ok, c') => ok = false ∧ cerr c' = [InvalidIR]
  | None => False
  end.
Proof.
  destruct (compile (λ M, negb (module_pointer_operands_ok M)) (λ M, M) (λ _, []) (λ _ _, [])
              "++." "a.out" false
              (setDebugInfo false (setOptimization false (BrainfuckCompiler_new 30000))))
    as [[ok c']|] eqn:H; [|vm_compute in H; discriminate].
  assert (∀ M, module_pointer_operands_ok M = false →
               negb (module_pointer_operands_ok M) = true) as Hverifier
    by (intros M HM; by rewrite HM).
  destruct (compile_never_succeeds _ _ _ _ _ _ _ _ _ _ _ Hverifier H)
    as (_ & Hok & message & Hcerr & _).
  split; [exact Hok|].
  vm_compute in H. injection H as _ <-. reflexivity.
Defined.

(** ** C6: a ']' at nesting depth 0 *)




(** ** C9: translating twice *)

(** The set-up steps of [compile] and the first assignment of
    [generateIR] overwrite every member two fresh compilers may differ
    in. *)
Lemma setup_overwrites c1 c2 :
  fresh c1 → fresh c2 → same_settings c1 c2 →
  set_currentIP 0 (setup (set_statistics ∅ c1)) = set_currentIP 0 (setup (set_statistics ∅ c2)).
Proof.
  intros (F1 & F2 & F3) (G1 & G2 & G3) (H1 & H2 & H3 & H4 & H5).
  destruct c1 as [N1 opt1 dbg1 st1 M1 ib1 di1 ma1 dp1 mf1 pf1 gf1 ls1 le1 ip1 err1].
  destruct c2 as [N2 opt2 dbg2 st2 M2 ib2 di2 ma2 dp2 mf2 pf2 gf2 ls2 le2 ip2 err2].
  simpl in F1, F2, F3, G1, G2, G3, H1, H2, H3, H4, H5. subst.
  destruct dbg2; vm_compute; reflexivity.
Qed.

Lemma generateIR_set_currentIP source c :
  generateIR source c = generateIR source (set_currentIP 0 c).
Proof. reflexivity. Qed.

(** C9.  Translating the same validated source from two fresh states
    gives the same result.  Take two compiler objects with an empty
    module and empty loop stacks, the same memory size and switches, and
    anything in their other members (statistics left by an earlier
    count, positions, handles).  For a source that [checkBrackets]
    accepts, [compile] returns the same on both: the same verdict and
    the same compiler state, so the same module (the two generated
    programs are one program: they behave the same on every input,
    whatever the meaning of the instructions) and the same statistics.
    A translation reads nothing of the state it starts in but what is
    named here. *)
Theorem C9_translation_is_deterministic
    (verifyModule : Module → bool) (optimizeModule : Module → Module)
    (executeJIT : Module → list Message) (emitObjectFile : string → Module → list Message)
    (source outputFile : string) (enableJIT : bool) (c1 c2 c1' : BrainfuckCompiler) :
  fresh c1 → fresh c2 → same_settings c1 c2 →
  checkBrackets source c1 = Some (true, c1') →
  compile verifyModule optimizeModule executeJIT emitObjectFile source outputFile enableJIT c1
  = compile verifyModule optimizeModule executeJIT emitObjectFile source outputFile enableJIT c2.
Proof.
  intros Hf1 Hf2 Hs Hcheck.
  rewrite !compile_after_check.
  unfold checkBrackets in *. rewrite checkBrackets_loop_verdict in Hcheck.
  rewrite !checkBrackets_loop_verdict.
  destruct (bracket_verdict _ _) as [[message|]|]; [done| |done].
  cbv zeta.
  rewrite (generateIR_set_currentIP source (setup (set_statistics ∅ c1))).
  rewrite (generateIR_set_currentIP source (setup (set_statistics ∅ c2))).
  by rewrite (setup_overwrites c1 c2).
Qed.

Lemma C9_determinism_witness :
  let c1 := BrainfuckCompiler_new 4 in
  let c2 := set_statistics {[ "."%char := 7%nat ]}
              (set_currentIP 5 (set_dataPtr (Named "elsewhere") (BrainfuckCompiler_new 4))) in
  c1 ≠ c2 ∧
  compile (λ _, false) (λ M, M) (λ _, []) (λ _ _, []) "+[-]." "a.out" false c1
  = compile (λ _, false) (λ M, M) (λ _, []) (λ _ _, []) "+[-]." "a.out" false c2.
Proof.
  intros c1 c2. split; [discriminate|].
  apply (C9_translation_is_deterministic _ _ _ _ "+[-]." "a.out" false c1 c2 c1).
  - repeat split.
  - repeat split.
  - repeat split.
  - reflexivity.
Defined.
